(** * generate-bdd-cards: retry policy, document walker, normalizer,
      local fallback and JSON recovery, embedded from the TypeScript sources

    Modelling conventions.
    - A JavaScript string is the list of its UTF-16 code units ([jsstring]);
      [length] is JavaScript's [.length].  String constants are written
      [js "..."], where the two-character sequences backslash-n,
      backslash-t, backslash-q and backslash-backslash stand for a line
      feed, a tab, a double quote and a backslash.
    - JavaScript numbers that hold delays and limits are doubles, given by
      the rationals ([Q]) they denote; arithmetic on delays rounds every
      result to the nearest double ([Double.round]).  [NaN] is [None] where
      it can arise ([parseInt]).
    - Regular expressions are abstract syntax trees run by a backtracking
      matcher with JavaScript's priorities (leftmost start, greedy or lazy
      quantifiers, alternatives in order). *)

From Stdlib Require Import String Ascii NArith ZArith QArith Qpower Qround Qminmax Lqa Bool Lia Permutation DecimalString Sorted List.
Import ListNotations.
Close Scope Q_scope.

Set Implicit Arguments.
Set Warnings "-register-all".

(* ================================================================== *)
(** ** JavaScript strings *)
(* ================================================================== *)

Module Js.

Definition char := N.
Definition jsstring := list char.

Definition unescape (c : ascii) : char :=
  match c with
  | "n"%char => 10%N
  | "t"%char => 9%N
  | "q"%char => 34%N
  | _ => N_of_ascii c
  end.

(** Code units of a Basic Latin constant, with the escapes described above. *)
Fixpoint js (s : string) : jsstring :=
  match s with
  | EmptyString => []
  | String c rest =>
      match c, rest with
      | "\"%char, String d rest' => unescape d :: js rest'
      | _, _ => N_of_ascii c :: js rest
      end
  end.

Definition ch (c : ascii) : char := N_of_ascii c.

Definition eqb (a b : jsstring) : bool :=
  if list_eq_dec N.eq_dec a b then true else false.

(** [WhiteSpace] and [LineTerminator] of ECMAScript: what [trim] strips and
    what the regular-expression class [\s] matches. *)
Definition isWhiteSpace (c : char) : bool :=
  ((9 <=? c) && (c <=? 13) || (c =? 32) || (c =? 160) || (c =? 5760)
   || (8192 <=? c) && (c <=? 8202) || (c =? 8232) || (c =? 8233)
   || (c =? 8239) || (c =? 8287) || (c =? 12288) || (c =? 65279))%N.

Fixpoint trimStart (s : jsstring) : jsstring :=
  match s with
  | c :: s' => if isWhiteSpace c then trimStart s' else s
  | [] => []
  end.

Definition trimEnd (s : jsstring) : jsstring := rev (trimStart (rev s)).

Definition trim (s : jsstring) : jsstring := trimEnd (trimStart s).

Fixpoint startsWith (s p : jsstring) {struct p} : bool :=
  match p, s with
  | [], _ => true
  | a :: p', b :: s' => (a =? b)%N && startsWith s' p'
  | _ :: _, [] => false
  end.

Fixpoint includes (s p : jsstring) : bool :=
  startsWith s p || match s with [] => false | _ :: s' => includes s' p end.

(** [s.indexOf(p)] and [s.lastIndexOf(p)]: a position, or -1. *)
Fixpoint indexOf_from (i : Z) (s p : jsstring) : Z :=
  if startsWith s p then i
  else match s with [] => (-1)%Z | _ :: s' => indexOf_from (i + 1) s' p end.

Definition indexOf (s p : jsstring) : Z := indexOf_from 0 s p.

Fixpoint lastIndexOf_from (i : Z) (found : Z) (s p : jsstring) : Z :=
  let found' := if startsWith s p then i else found in
  match s with [] => found' | _ :: s' => lastIndexOf_from (i + 1) found' s' p end.

Definition lastIndexOf (s p : jsstring) : Z := lastIndexOf_from 0 (-1) s p.

(** [s.substring(a, b)]: both ends clamped to [0, length], swapped when
    [a > b]; [substring_from] is the one-argument form. *)
Definition clamp (s : jsstring) (i : Z) : nat :=
  Nat.min (Z.to_nat i) (length s).

Definition substring (s : jsstring) (a b : Z) : jsstring :=
  let a' := clamp s a in
  let b' := clamp s b in
  let lo := Nat.min a' b' in
  let hi := Nat.max a' b' in
  firstn (hi - lo) (skipn lo s).

Definition substring_from (s : jsstring) (a : Z) : jsstring :=
  skipn (clamp s a) s.

Fixpoint join (sep : jsstring) (l : list jsstring) : jsstring :=
  match l with
  | [] => []
  | [x] => x
  | x :: rest => x ++ sep ++ join sep rest
  end.

(** [s.repeat(n)] for a count that is already a non-negative integer. *)
Fixpoint repeat (s : jsstring) (n : nat) : jsstring :=
  match n with
  | O => []
  | S n' => s ++ repeat s n'
  end.

(** [toLowerCase] on Basic Latin letters; other code units are kept. *)
Definition lowerAscii (s : jsstring) : jsstring :=
  map (fun c => if ((65 <=? c) && (c <=? 90))%N then (c + 32)%N else c) s.

Definition isDigit (c : char) : bool := ((48 <=? c) && (c <=? 57))%N.

Definition isWordChar (c : char) : bool :=
  (isDigit c || (65 <=? c) && (c <=? 90) || (97 <=? c) && (c <=? 122)
   || (c =? 95))%N.

(** Value of a digit in the given radix, if it is one. *)
Definition digitValue (radix : Z) (c : char) : option Z :=
  let v :=
    if isDigit c then Some (Z.of_N c - 48)%Z
    else if ((97 <=? c) && (c <=? 122))%N then Some (Z.of_N c - 87)%Z
    else if ((65 <=? c) && (c <=? 90))%N then Some (Z.of_N c - 55)%Z
    else None in
  match v with
  | Some d => if (d <? radix)%Z then Some d else None
  | None => None
  end.

Fixpoint digits (radix : Z) (acc : option Z) (s : jsstring) : option Z :=
  match s with
  | c :: s' =>
      match digitValue radix c with
      | Some d =>
          digits radix
            (Some (match acc with Some a => a * radix + d | None => d end)%Z) s'
      | None => acc
      end
  | [] => acc
  end.

(** [parseInt(s)] without a radix: leading white space, a sign, an optional
    [0x] prefix, then the longest run of digits; [None] is [NaN]. *)
Definition parseInt (s : jsstring) : option Z :=
  let s1 := trimStart s in
  let '(sign, s2) :=
    match s1 with
    | 45%N :: r => ((-1)%Z, r)
    | 43%N :: r => (1%Z, r)
    | _ => (1%Z, s1)
    end in
  let '(radix, s3) :=
    match s2 with
    | 48%N :: 120%N :: r => (16%Z, r)
    | 48%N :: 88%N :: r => (16%Z, r)
    | _ => (10%Z, s2)
    end in
  match digits radix None s3 with
  | Some v => Some (sign * v)%Z
  | None => None
  end.

End Js.

Import Js.

(* ================================================================== *)
(** ** Regular expressions *)
(* ================================================================== *)

Module Regex.

Inductive re : Type :=
| Eps
| Class (p : char -> bool)
| Cat (r1 r2 : re)
| Alt (r1 r2 : re)
| Star (greedy : bool) (r : re)
| Group (n : nat) (r : re).

Definition Chr (c : ascii) : re := Class (N.eqb (ch c)).

Fixpoint Lit (s : jsstring) : re :=
  match s with
  | [] => Eps
  | c :: s' => Cat (Class (N.eqb c)) (Lit s')
  end.

Definition Plus (r : re) : re := Cat r (Star true r).

Fixpoint Seq (l : list re) : re :=
  match l with
  | [] => Eps
  | [r] => r
  | r :: l' => Cat r (Seq l')
  end.

(** Captures: group number to captured text. *)
Definition captures := list (nat * jsstring).

Fixpoint capture (n : nat) (c : captures) : jsstring :=
  match c with
  | [] => []
  | (m, s) :: c' => if Nat.eqb n m then s else capture n c'
  end.

Section Matcher.
Variable A : Type.

(** [run r s caps k]: match [r] at the head of [s], then continue with
    [k] on the rest; the first success in priority order wins.  An
    iteration of a star that consumes nothing is rejected, as in
    ECMAScript. *)
Fixpoint run (r : re) (s : jsstring) (caps : captures)
    (k : jsstring -> captures -> option A) {struct r} : option A :=
  match r with
  | Eps => k s caps
  | Class p =>
      match s with
      | c :: s' => if p c then k s' caps else None
      | [] => None
      end
  | Cat r1 r2 => run r1 s caps (fun s1 c1 => run r2 s1 c1 k)
  | Alt r1 r2 =>
      match run r1 s caps k with
      | Some x => Some x
      | None => run r2 s caps k
      end
  | Star greedy r1 =>
      (fix star (fuel : nat) (s : jsstring) (caps : captures) {struct fuel}
         : option A :=
         match fuel with
         | O => k s caps
         | S fuel' =>
             let more (_ : unit) :=
               run r1 s caps
                 (fun s' c' =>
                    if (length s' <? length s)%nat then star fuel' s' c'
                    else None) in
             if greedy then
               match more tt with
               | Some x => Some x
               | None => k s caps
               end
             else
               match k s caps with
               | Some x => Some x
               | None => more tt
               end
         end) (S (length s)) s caps
  | Group n r1 =>
      run r1 s caps
        (fun s' c' => k s' ((n, firstn (length s - length s') s) :: c'))
  end.
End Matcher.

(** A match anchored at the head of [s]: the captures and the rest. *)
Definition matchHere (r : re) (s : jsstring) : option (captures * jsstring) :=
  run r s [] (fun s' c => Some (c, s')).

(** [s.match(r)] for a regular expression without the [g] flag: the
    captures of the leftmost match. *)
Fixpoint search (r : re) (s : jsstring) : option captures :=
  match matchHere r s with
  | Some (c, _) => Some c
  | None => match s with [] => None | _ :: s' => search r s' end
  end.

(** Replacement templates: literal text and [$n] references. *)
Inductive piece : Type :=
| Txt (s : jsstring)
| Ref (n : nat).

Fixpoint expand (t : list piece) (c : captures) : jsstring :=
  match t with
  | [] => []
  | Txt s :: t' => s ++ expand t' c
  | Ref n :: t' => capture n c ++ expand t' c
  end.

(** [s.replace(r, t)] with the [g] flag. *)
Fixpoint replaceLoop (fuel : nat) (r : re) (t : list piece) (s : jsstring)
  : jsstring :=
  match fuel with
  | O => s
  | S fuel' =>
      match matchHere r s with
      | Some (c, rest) =>
          if (length rest <? length s)%nat
          then expand t c ++ replaceLoop fuel' r t rest
          else expand t c ++
               match s with
               | [] => []
               | x :: s' => x :: replaceLoop fuel' r t s'
               end
      | None =>
          match s with
          | [] => []
          | x :: s' => x :: replaceLoop fuel' r t s'
          end
      end
  end.

Definition replaceAll (r : re) (t : list piece) (s : jsstring) : jsstring :=
  replaceLoop (S (length s)) r t s.

(** Character classes used by the sources. *)
Definition quote : re := Class (N.eqb 34).                     (* a double quote *)
Definition space : re := Class isWhiteSpace.                  (* \s *)
Definition word : re := Class isWordChar.                     (* \w *)
Definition any : re := Class (fun _ => true).                 (* [\s\S] *)
Definition oneOf (s : jsstring) : re :=
  Class (fun c => existsb (N.eqb c) s).
Definition noneOf (s : jsstring) (also : char -> bool) : re :=
  Class (fun c => negb (existsb (N.eqb c) s || also c)).

End Regex.

Import Regex.

(* ================================================================== *)
(** ** JSON.parse *)
(* ================================================================== *)

Module Json.

(** Parsed values.  A number keeps its lexeme: no claim depends on its
    numeric value.  An object keeps its members in source order; on a
    duplicate key the last member wins, as in [JSON.parse]. *)
Inductive json : Type :=
| JNull
| JBool (b : bool)
| JNum (lexeme : jsstring)
| JStr (s : jsstring)
| JArr (elems : list json)
| JObj (members : list (jsstring * json)).

Fixpoint get (k : jsstring) (members : list (jsstring * json)) : option json :=
  match members with
  | [] => None
  | (k', v) :: rest =>
      match get k rest with
      | Some v' => Some v'
      | None => if Js.eqb k k' then Some v else None
      end
  end.

Inductive token : Type :=
| TLBrace | TRBrace | TLBracket | TRBracket | TComma | TColon
| TStr (s : jsstring)
| TNum (lexeme : jsstring)
| TTrue | TFalse | TNull.

(** The JSON number grammar: an optional minus, an integer part without
    leading zeros, an optional fraction, an optional exponent. *)
Definition digit : re := Class isDigit.
Definition opt (r : re) : re := Alt r Eps.
Definition numberRe : re :=
  Seq [ opt (Chr "-"%char);
        Alt (Chr "0"%char) (Cat (Class (fun c => isDigit c && negb (c =? 48)%N))
                           (Star true digit));
        opt (Cat (Chr "."%char) (Plus digit));
        opt (Seq [oneOf (js "eE"); opt (oneOf (js "+-")); Plus digit]) ].

Definition validNumber (s : jsstring) : bool :=
  match run numberRe s [] (fun rest _ => match rest with [] => Some tt | _ => None end) with
  | Some _ => true
  | None => false
  end.

Definition isNumberChar (c : char) : bool :=
  isDigit c || existsb (N.eqb c) (js "+-.eE").

Definition isJsonSpace (c : char) : bool :=
  ((c =? 32) || (c =? 9) || (c =? 10) || (c =? 13))%N.

Definition hexValue (c : char) : option N :=
  match digitValue 16 c with
  | Some d => Some (Z.to_N d)
  | None => None
  end.

(** Lexer states: between tokens, inside a string (text so far, reversed),
    after a backslash, inside a [\u] escape ([k] hex digits to go), inside
    a number, inside one of the words true, false, null. *)
Inductive mode : Type :=
| Idle
| InStr (acc : jsstring)
| InEsc (acc : jsstring)
| InUni (acc : jsstring) (k : nat) (v : N)
| InNum (acc : jsstring)
| InWord (expect : jsstring) (t : token).

Definition emit (t : token) (rest : option (list token)) : option (list token) :=
  match rest with
  | Some ts => Some (t :: ts)
  | None => None
  end.

Fixpoint lex (m : mode) (s : jsstring) : option (list token) :=
  match s with
  | [] =>
      match m with
      | Idle => Some []
      | InNum acc => if validNumber (rev acc) then Some [TNum (rev acc)] else None
      | _ => None
      end
  | c :: s' =>
      let idle (_ : unit) :=
        if isJsonSpace c then lex Idle s'
        else if (c =? ch "{"%char)%N then emit TLBrace (lex Idle s')
        else if (c =? ch "}"%char)%N then emit TRBrace (lex Idle s')
        else if (c =? ch "["%char)%N then emit TLBracket (lex Idle s')
        else if (c =? ch "]"%char)%N then emit TRBracket (lex Idle s')
        else if (c =? ch ","%char)%N then emit TComma (lex Idle s')
        else if (c =? ch ":"%char)%N then emit TColon (lex Idle s')
        else if (c =? 34)%N then lex (InStr []) s'
        else if (c =? ch "t"%char)%N then lex (InWord (js "rue") TTrue) s'
        else if (c =? ch "f"%char)%N then lex (InWord (js "alse") TFalse) s'
        else if (c =? ch "n"%char)%N then lex (InWord (js "ull") TNull) s'
        else if isDigit c || (c =? ch "-"%char)%N then lex (InNum [c]) s'
        else None in
      match m with
      | Idle => idle tt
      | InStr acc =>
          if (c =? 34)%N then emit (TStr (rev acc)) (lex Idle s')
          else if (c =? ch "\"%char)%N then lex (InEsc acc) s'
          else if (c <? 32)%N then None
          else lex (InStr (c :: acc)) s'
      | InEsc acc =>
          if (c =? 34)%N || (c =? ch "\"%char)%N || (c =? ch "/"%char)%N
          then lex (InStr (c :: acc)) s'
          else if (c =? ch "b"%char)%N then lex (InStr (8%N :: acc)) s'
          else if (c =? ch "f"%char)%N then lex (InStr (12%N :: acc)) s'
          else if (c =? ch "n"%char)%N then lex (InStr (10%N :: acc)) s'
          else if (c =? ch "r"%char)%N then lex (InStr (13%N :: acc)) s'
          else if (c =? ch "t"%char)%N then lex (InStr (9%N :: acc)) s'
          else if (c =? ch "u"%char)%N then lex (InUni acc 4 0%N) s'
          else None
      | InUni acc k v =>
          match hexValue c with
          | Some d =>
              let v' := (v * 16 + d)%N in
              match k with
              | 1%nat => lex (InStr (v' :: acc)) s'
              | _ => lex (InUni acc (pred k) v') s'
              end
          | None => None
          end
      | InNum acc =>
          if isNumberChar c then lex (InNum (c :: acc)) s'
          else if validNumber (rev acc) then emit (TNum (rev acc)) (idle tt)
          else None
      | InWord expect t =>
          match expect with
          | e :: es =>
              if (c =? e)%N then
                match es with
                | [] => emit t (lex Idle s')
                | _ => lex (InWord es t) s'
                end
              else None
          | [] => None
          end
      end
  end.

(** Containers under construction (members and elements reversed) and what
    the parser expects next. *)
Inductive frame : Type :=
| FArr (elems : list json)
| FObj (members : list (jsstring * json))
| FKey (members : list (jsstring * json)) (k : jsstring).

Inductive phase : Type :=
| Value (first : bool)
| Key (first : bool)
| Colon
| After
| Done (v : json).

Definition attach (v : json) (stack : list frame) : option (list frame * phase) :=
  match stack with
  | [] => Some ([], Done v)
  | FArr es :: st => Some (FArr (v :: es) :: st, After)
  | FKey ms k :: st => Some (FObj ((k, v) :: ms) :: st, After)
  | FObj _ :: _ => None
  end.

Definition step (t : token) (stack : list frame) (p : phase)
  : option (list frame * phase) :=
  match p, t with
  | Value _, TLBracket => Some (FArr [] :: stack, Value true)
  | Value _, TLBrace => Some (FObj [] :: stack, Key true)
  | Value true, TRBracket =>
      match stack with
      | FArr [] :: st => attach (JArr []) st
      | _ => None
      end
  | Value _, TStr s => attach (JStr s) stack
  | Value _, TNum n => attach (JNum n) stack
  | Value _, TTrue => attach (JBool true) stack
  | Value _, TFalse => attach (JBool false) stack
  | Value _, TNull => attach JNull stack
  | Key _, TStr k =>
      match stack with
      | FObj ms :: st => Some (FKey ms k :: st, Colon)
      | _ => None
      end
  | Key true, TRBrace =>
      match stack with
      | FObj [] :: st => attach (JObj []) st
      | _ => None
      end
  | Colon, TColon => Some (stack, Value false)
  | After, TComma =>
      match stack with
      | FArr _ :: _ => Some (stack, Value false)
      | FObj _ :: _ => Some (stack, Key false)
      | _ => None
      end
  | After, TRBracket =>
      match stack with
      | FArr es :: st => attach (JArr (rev es)) st
      | _ => None
      end
  | After, TRBrace =>
      match stack with
      | FObj ms :: st => attach (JObj (rev ms)) st
      | _ => None
      end
  | _, _ => None
  end.

Fixpoint pda (ts : list token) (stack : list frame) (p : phase) : option json :=
  match ts with
  | [] => match p with Done v => Some v | _ => None end
  | t :: ts' =>
      match step t stack p with
      | Some (stack', p') => pda ts' stack' p'
      | None => None
      end
  end.

(** [JSON.parse(s)]: the value, or [None] for a [SyntaxError]. *)
Definition parse (s : jsstring) : option json :=
  match lex Idle s with
  | Some ts => pda ts [] (Value false)
  | None => None
  end.

End Json.

Import Json.


(* ================================================================== *)
(** ** Card schema (src/types/index.ts) *)
(* ================================================================== *)

Module Schema.

Record BDDCard : Type := {
  summary : jsstring;
  description : jsstring;
  acceptanceCriteria : list jsstring;
  labels : option (list jsstring);
  priority : option jsstring;
  storyPoints : option jsstring;
  component : option jsstring;
  epicLink : option jsstring;
  linkedIssues : option (list jsstring)
}.

(** What a [ZodError] reports, down to the offending field. *)
Inductive issue : Type :=
| NotAnArray
| NotAnObject (index : nat)
| BadField (index : nat) (field : jsstring).

(** Field validators: [Some] of the parsed value, or [None] for an issue.
    A missing required key is an issue; a missing optional key is fine, a
    [null] there is not. *)
Definition zString (v : option json) : option jsstring :=
  match v with
  | Some (JStr s) => Some s
  | _ => None
  end.

Definition zStringMax (n : nat) (v : option json) : option jsstring :=
  match zString v with
  | Some s => if (length s <=? n)%nat then Some s else None
  | None => None
  end.

Fixpoint zStrings (l : list json) : option (list jsstring) :=
  match l with
  | [] => Some []
  | JStr s :: l' =>
      match zStrings l' with
      | Some r => Some (s :: r)
      | None => None
      end
  | _ :: _ => None
  end.

Definition zStringArray (v : option json) : option (list jsstring) :=
  match v with
  | Some (JArr l) => zStrings l
  | _ => None
  end.

Definition zNumber (v : option json) : option jsstring :=
  match v with
  | Some (JNum n) => Some n
  | _ => None
  end.

Definition priorities : list jsstring :=
  [ js "Muito Baixa"; js "Baixa"; js "M" ++ [233%N] ++ js "dia"; js "Alta";
    js "Muito Alta"; js "Lowest"; js "Low"; js "Medium"; js "High";
    js "Highest" ].

Definition zPriority (v : option json) : option jsstring :=
  match zString v with
  | Some s => if existsb (Js.eqb s) priorities then Some s else None
  | None => None
  end.

Definition zOptional (A : Type) (f : option json -> option A) (v : option json)
  : option (option A) :=
  match v with
  | None => Some None
  | Some _ =>
      match f v with
      | Some a => Some (Some a)
      | None => None
      end
  end.

Definition bad (A : Type) (i : nat) (field : string) (r : option A) : list issue :=
  match r with
  | Some _ => []
  | None => [BadField i (js field)]
  end.

Definition field (ms : list (jsstring * json)) (k : string) : option json :=
  get (js k) ms.

(** [BDDCardSchema] on the element at index [i]: the card with unknown keys
    stripped, or every issue found. *)
Definition parseCard (i : nat) (v : json) : BDDCard + list issue :=
  match v with
  | JObj ms =>
      let r1 := zStringMax 80 (field ms "summary") in
      let r2 := zString (field ms "description") in
      let r3 := zStringArray (field ms "acceptanceCriteria") in
      let r4 := zOptional zStringArray (field ms "labels") in
      let r5 := zOptional zPriority (field ms "priority") in
      let r6 := zOptional zNumber (field ms "storyPoints") in
      let r7 := zOptional zString (field ms "component") in
      let r8 := zOptional zString (field ms "epicLink") in
      let r9 := zOptional zStringArray (field ms "linkedIssues") in
      match r1, r2, r3, r4, r5, r6, r7, r8, r9 with
      | Some a1, Some a2, Some a3, Some a4, Some a5, Some a6, Some a7,
        Some a8, Some a9 =>
          inl {| summary := a1; description := a2; acceptanceCriteria := a3;
                 labels := a4; priority := a5; storyPoints := a6;
                 component := a7; epicLink := a8; linkedIssues := a9 |}
      | _, _, _, _, _, _, _, _, _ =>
          inr (bad i "summary" r1 ++ bad i "description" r2
               ++ bad i "acceptanceCriteria" r3 ++ bad i "labels" r4
               ++ bad i "priority" r5 ++ bad i "storyPoints" r6
               ++ bad i "component" r7 ++ bad i "epicLink" r8
               ++ bad i "linkedIssues" r9)
      end
  | _ => inr [NotAnObject i]
  end.

(** Elements in order; one bad element fails the whole array, with the
    issues of all elements collected. *)
Fixpoint parseCards (i : nat) (l : list json) : list BDDCard + list issue :=
  match l with
  | [] => inl []
  | v :: l' =>
      match parseCard i v, parseCards (S i) l' with
      | inl c, inl cs => inl (c :: cs)
      | inl _, inr es => inr es
      | inr e, inl _ => inr e
      | inr e, inr es => inr (e ++ es)
      end
  end.

(** [BDDCardsArraySchema = z.array(BDDCardSchema)]. *)
Definition BDDCardsArraySchema (v : json) : list BDDCard + list issue :=
  match v with
  | JArr l => parseCards 0 l
  | _ => inr [NotAnArray]
  end.

End Schema.

Import Schema.

(* ================================================================== *)
(** ** Results and errors shared by the clients *)
(* ================================================================== *)

(** [ApiResponse<T>]: [{ success: true, data }] or
    [{ success: false, error }]. *)
Inductive ApiResponse (T : Type) : Type :=
| Success (data : T)
| Failure (error : jsstring).

Arguments Success {T} data.
Arguments Failure {T} error.

(* ================================================================== *)
(** ** Structured response recovery (src/modules/gepeto.ts) *)
(* ================================================================== *)

Module Gepeto.

(** What the body of [generateBDDCards] can throw: the [SyntaxError] of
    [JSON.parse] on [src], the [ZodError] of the array schema on [input],
    or a plain [Error]. *)
Inductive exn : Type :=
| SyntaxError (src : jsstring)
| ZodError (input : json) (issues : list issue)
| Error (message : jsstring).

(** The [message] texts of [SyntaxError] and [ZodError] are written by the
    JavaScript engine and by Zod; they are functions of what the failing
    call was given. *)
Record messages : Type := {
  syntaxErrorMessage : jsstring -> jsstring;
  zodErrorMessage : json -> list issue -> jsstring
}.

Definition messageOf (M : messages) (e : exn) : jsstring :=
  match e with
  | SyntaxError src => syntaxErrorMessage M src
  | ZodError input issues => zodErrorMessage M input issues
  | Error m => m
  end.

(** The fence patterns of line 76: three backquotes, [json], a line feed,
    the lazily matched body as group 1, a line feed, three backquotes; and
    the same without [json]. *)
Definition jsonFence : re :=
  Seq [Lit (js "```json\n"); Group 1 (Star false any); Lit (js "\n```")].

Definition plainFence : re :=
  Seq [Lit (js "```\n"); Group 1 (Star false any); Lit (js "\n```")].

(** [jsonMatch ? jsonMatch[1] : content]. *)
Definition jsonString (content : jsstring) : jsstring :=
  match search jsonFence content with
  | Some c => capture 1 c
  | None =>
      match search plainFence content with
      | Some c => capture 1 c
      | None => content
      end
  end.

(** The six replacements of [attemptJsonFix], in source order. *)
Definition trailingComma : re :=
  Seq [Chr ","%char; Group 1 (Cat (Star true space) (oneOf (js "}]")))].

Definition unquotedKey : re :=
  Seq [Group 1 (Cat (oneOf (js "{,")) (Star true space));
       Group 2 (Plus word); Chr ":"%char].

Definition unquotedValue : re :=
  Seq [Chr ":"%char; Star true space;
       Group 1 (Cat (noneOf (js "\q,{[") isWhiteSpace)
                    (Star false (noneOf (js ",}]") (fun _ => false))));
       Group 2 (Cat (Star true space) (oneOf (js ",}")))].

Definition colonSpacing : re :=
  Seq [quote; Star true space; Chr ":"%char; Star true space; quote].

Definition commaBrace : re :=
  Seq [Chr ","%char; Star true space; Chr "}"%char].

Definition commaBracket : re :=
  Seq [Chr ","%char; Star true space; Chr "]"%char].

Definition attemptJsonFix (jsonString : jsstring) : jsstring :=
  let fixed := trim jsonString in
  let arrayStart := indexOf fixed (js "[") in
  let fixed :=
    if (arrayStart >? 0)%Z then substring_from fixed arrayStart else fixed in
  let arrayEnd := lastIndexOf fixed (js "]") in
  let fixed :=
    if (arrayEnd >? 0)%Z && (arrayEnd <? Z.of_nat (length fixed) - 1)%Z
    then substring fixed 0 (arrayEnd + 1) else fixed in
  let fixed := replaceAll trailingComma [Ref 1] fixed in
  let fixed :=
    replaceAll unquotedKey [Ref 1; Txt (js "\q"); Ref 2; Txt (js "\q:")] fixed in
  let fixed :=
    replaceAll unquotedValue [Txt (js ": \q"); Ref 1; Txt (js "\q"); Ref 2]
      fixed in
  let fixed := replaceAll colonSpacing [Txt (js "\q: \q")] fixed in
  let fixed := replaceAll commaBrace [Txt (js "}")] fixed in
  let fixed := replaceAll commaBracket [Txt (js "]")] fixed in
  fixed.

(** [JSON.parse] followed by [BDDCardsArraySchema.parse]: the two calls of
    each [try] body. *)
Definition parseAndValidate (s : jsstring) : list BDDCard + exn :=
  match parse s with
  | None => inr (SyntaxError s)
  | Some v =>
      match BDDCardsArraySchema v with
      | inl cards => inl cards
      | inr issues => inr (ZodError v issues)
      end
  end.

(** How the call ends once the last try is over: with the cards, or in the
    outer [catch] with the message of the error (lines 96 to 106). *)
Definition respond (M : messages) (r : list BDDCard + exn)
  : ApiResponse (list BDDCard) :=
  match r with
  | inl cards => Success cards
  | inr e => Failure (messageOf M e)
  end.

(** The two nested [try] blocks of [generateBDDCards] (lines 79 to 88):
    parse and validate the candidate; on any error repair it and try once
    more. *)
Definition recover (M : messages) (jsonString : jsstring)
  : ApiResponse (list BDDCard) :=
  match parseAndValidate jsonString with
  | inl cards => Success cards
  | inr _ =>
      let fixedJson := attemptJsonFix jsonString in
      respond M (parseAndValidate fixedJson)
  end.

(** [generateBDDCards] from the reply content on (lines 69 to 106).  The
    request itself and the envelope check happen before and hand over
    [content]; writing the cache and printing the preview come after the
    cards are fixed and cannot change the result (the cache writer catches
    its own errors). *)
Definition generateBDDCards (M : messages) (content : jsstring)
  : ApiResponse (list BDDCard) :=
  match content with
  | [] => Failure (messageOf M (Error (js "No content received from Gepeto")))
  | _ => recover M (jsonString content)
  end.

End Gepeto.


(* ================================================================== *)
(** ** Errors thrown by remote calls *)
(* ================================================================== *)

(** The parts of a thrown error object that the sources inspect:
    [error.code] (a string such as ECONNRESET, or a number),
    [error.message], [error.response.status], the retry-after entry of
    [error.response.headers] and the error messages of
    [error.response.data]; [instanceOfError] is [error instanceof Error].
    An absent property is [None]. *)
Inductive codeValue : Type :=
| CodeStr (s : jsstring)
| CodeNum (n : Z).

(** [error.message]: a string, or a value of another kind that is neither
    [null] nor [undefined] (a number, a boolean, an object), given by
    whether it is truthy and by what [String] makes of it. *)
Inductive messageValue : Type :=
| Text (s : jsstring)
| NonText (truthy : bool) (shown : jsstring).

(** [error.response.data?.errorMessages]: absent or falsy, an array of
    texts, or a truthy value that is no array and has no [forEach]. *)
Inductive listing : Type :=
| NoList
| List (items : list jsstring)
| NotAList.

Record httpResponse : Type := {
  status : option Z;
  retryAfter : option jsstring;
  errorMessages : listing
}.

(** [serializable]: [JSON.stringify] accepts the value (it is not
    circular). *)
Record error : Type := {
  instanceOfError : bool;
  code : option codeValue;
  message : option messageValue;
  response : option httpResponse;
  serializable : bool
}.

(** [error instanceof Error ? error.message : 'Unknown error'], the text
    both clients put in a failed [ApiResponse]; an [Error] without a
    message of its own has the empty one, and a message that is not a
    string is passed on by its string conversion. *)
Definition errorText (e : error) : jsstring :=
  if instanceOfError e then
    match message e with
    | Some (Text m) => m
    | Some (NonText _ shown) => shown
    | None => []
    end
  else js "Unknown error".

(* ================================================================== *)
(** ** Numbers (IEEE 754 binary64) *)
(* ================================================================== *)

(** The numbers of the sources are doubles.  A double is represented by
    the rational it denotes, and an arithmetic operation by the exact
    operation followed by [round], the rounding to the nearest double, ties
    to even.  Only the normal range is modelled: no result here comes near
    the largest double or the smallest normal one, except the power of the
    backoff, which [Math.min] caps where the source would reach
    [Infinity]. *)
Module Double.
Local Open Scope Q_scope.

(** The binade of a positive number: the [e] with 2^e <= q < 2^(e+1). *)
Definition binade (q : Q) : Z :=
  let e := (Z.log2 (Qnum q) - Z.log2 (Zpos (Qden q)))%Z in
  if Qle_bool (2 ^ e) q then e else (e - 1)%Z.

(** The integer nearest to a number, the even one of two that are equally
    near. *)
Definition nearestEven (q : Q) : Z :=
  let f := Qfloor q in
  match Qcompare (q - inject_Z f) (1 # 2) with
  | Lt => f
  | Gt => (f + 1)%Z
  | Eq => if Z.even f then f else (f + 1)%Z
  end.

(** The double nearest to a positive number: 53 significant bits. *)
Definition nearest (q : Q) : Q :=
  let s := (binade q - 52)%Z in
  inject_Z (nearestEven (q / 2 ^ s)) * 2 ^ s.

Definition round (q : Q) : Q :=
  match Qnum q with
  | Z0 => 0
  | Zpos _ => nearest q
  | Zneg _ => - nearest (- q)
  end.

End Double.

(* ================================================================== *)
(** ** Transport retry policy (RetryManager) *)
(* ================================================================== *)

Module RetryManager.
Local Open Scope Q_scope.

(** [RetryOptions]: every field optional. *)
Record RetryOptions : Type := {
  maxAttempts : option Q;
  baseDelay : option Q;
  maxDelay : option Q;
  backoffFactor : option Q;
  retryCondition : option (error -> bool)
}.

Definition noOptions : RetryOptions :=
  {| maxAttempts := None; baseDelay := None; maxDelay := None;
     backoffFactor := None; retryCondition := None |}.

(** [Required<RetryOptions>]. *)
Record Options : Type := {
  optMaxAttempts : Q;
  optBaseDelay : Q;
  optMaxDelay : Q;
  optBackoffFactor : Q;
  optRetryCondition : error -> bool
}.

Definition codeIs (e : error) (s : string) : bool :=
  match code e with
  | Some (CodeStr c) => Js.eqb c (js s)
  | _ => false
  end.

Definition statusOf (e : error) : option Z :=
  match response e with
  | Some r => status r
  | None => None
  end.

(** Retry on network errors, 5xx, and 429. *)
Definition defaultRetryCondition (e : error) : bool :=
  if codeIs e "ECONNRESET" || codeIs e "ETIMEDOUT" then true
  else if match statusOf e with Some s => (500 <=? s)%Z | None => false end
  then true
  else if match statusOf e with Some s => (s =? 429)%Z | None => false end
  then true
  else false.

Definition DEFAULT_OPTIONS : Options :=
  {| optMaxAttempts := 3; optBaseDelay := 1000; optMaxDelay := 10000;
     optBackoffFactor := 2; optRetryCondition := defaultRetryCondition |}.

Definition orDefault (A : Type) (o : option A) (d : A) : A :=
  match o with Some a => a | None => d end.

(** [{ ...DEFAULT_OPTIONS, ...options }]. *)
Definition merge (options : RetryOptions) : Options :=
  {| optMaxAttempts := orDefault (maxAttempts options) (optMaxAttempts DEFAULT_OPTIONS);
     optBaseDelay := orDefault (baseDelay options) (optBaseDelay DEFAULT_OPTIONS);
     optMaxDelay := orDefault (maxDelay options) (optMaxDelay DEFAULT_OPTIONS);
     optBackoffFactor :=
       orDefault (backoffFactor options) (optBackoffFactor DEFAULT_OPTIONS);
     optRetryCondition :=
       orDefault (retryCondition options) (optRetryCondition DEFAULT_OPTIONS) |}.

(** Lines 126 to 137: the capped exponential delay, the jittered delay for
    a sample [u] of [Math.random()], and the delay slept, where a
    retry-after header (a non-empty string, so truthy) raises the delay to
    at least its [parseInt] in seconds; [None] is [NaN].  Every operation
    rounds its result to a double; [Math.pow] is taken to round correctly,
    and the literal [0.1] is the double nearest to one tenth. *)
Definition tenth : Q := Double.round (1 # 10).

Definition backoffDelay (opts : Options) (attempt : Z) : Q :=
  Qmin (Double.round
          (optBaseDelay opts
           * Double.round (optBackoffFactor opts ^ (attempt - 1))))
       (optMaxDelay opts).

Definition totalDelay (opts : Options) (attempt : Z) (u : Q) : Q :=
  let delay := backoffDelay opts attempt in
  let jitter := Double.round (Double.round (u * tenth) * delay) in
  Double.round (delay + jitter).

Definition retryAfterOf (e : error) : option jsstring :=
  match response e with
  | Some r =>
      match retryAfter r with
      | Some [] => None
      | h => h
      end
  | None => None
  end.

Definition finalDelay (opts : Options) (attempt : Z) (u : Q) (e : error)
  : option Q :=
  match retryAfterOf e with
  | Some h =>
      match parseInt h with
      | Some r =>
          Some (Qmax (Double.round (Double.round (inject_Z r) * 1000))
                  (totalDelay opts attempt u))
      | None => None
      end
  | None => Some (totalDelay opts attempt u)
  end.

(** How a call of [execute] ends.  The two throw sites are kept apart:
    [throw error] inside the loop, and [throw lastError] after it, where
    [lastError] is still [undefined] ([None]) if no attempt was made. *)
Inductive exit (T : Type) : Type :=
| Returned (value : T)
| ThrownInLoop (e : error)
| ThrownAfterLoop (lastError : option error).

Arguments Returned {T} value.
Arguments ThrownInLoop {T} e.
Arguments ThrownAfterLoop {T} lastError.

(** The exit, the number of times the operation was invoked, the delays
    slept in order, and the world the operation left behind. *)
Record execution (T W : Type) : Type := {
  outcome : exit T;
  calls : nat;
  sleeps : list (option Q);
  world : W
}.

Section Execute.
Variables T W : Type.

(** The wrapped operation acts on a world [W] and returns or throws;
    [random k] is what [Math.random()] yields during attempt [k].  Here
    the limit is a finite number, every invocation settles, and what it
    throws is an object; [Unrestricted.loop] further down is the loop
    without these three restrictions. *)
Variable operation : W -> (T + error) * W.
Variable random : Z -> Q.
Variable opts : Options.

(** The [for] loop from a given [attempt]; [fuel] bounds the iterations
    still to run and [None] means it was too small. *)
Fixpoint loop (fuel : nat) (attempt : Z) (lastError : option error) (w : W)
    (n : nat) (slept : list (option Q)) : option (execution T W) :=
  if Qle_bool (inject_Z attempt) (optMaxAttempts opts) then
    match fuel with
    | O => None
    | S fuel' =>
        match operation w with
        | (inl v, w') =>
            Some {| outcome := Returned v; calls := S n; sleeps := slept;
                    world := w' |}
        | (inr e, w') =>
            if Qeq_bool (inject_Z attempt) (optMaxAttempts opts)
               || negb (optRetryCondition opts e)
            then Some {| outcome := ThrownInLoop e; calls := S n;
                         sleeps := slept; world := w' |}
            else
              loop fuel' (attempt + 1) (Some e) w' (S n)
                (slept ++ [finalDelay opts attempt (random attempt) e])
        end
    end
  else
    Some {| outcome := ThrownAfterLoop lastError; calls := n;
            sleeps := slept; world := w |}.

(** Attempts run from 1 while [attempt <= maxAttempts]: at most the
    integer part of [maxAttempts] iterations. *)
Definition iterations : nat := Z.to_nat (Qfloor (optMaxAttempts opts)).

Definition run (w : W) : option (execution T W) :=
  loop iterations 1 None w 0 [].

End Execute.

(** [RetryManager.execute(operation, options)]. *)
Definition execute (T W : Type) (operation : W -> (T + error) * W)
    (random : Z -> Q) (options : RetryOptions) (w : W)
  : option (execution T W) :=
  run operation random (merge options) w.

End RetryManager.

(* ================================================================== *)
(** ** Document reader (src/modules/gdocs.ts) *)
(* ================================================================== *)

Module GoogleDocs.

(** What the JavaScript engine supplies: [String.prototype.toLowerCase]
    (the Unicode case tables are not modelled), the message of the
    [RangeError] that [repeat] throws for a negative count, and the message
    of the [TypeError] thrown by the named call when its value does not
    allow it ([toLowerCase] or [forEach] on a value without such a method,
    [stringify] on a circular structure). *)
Record engine : Type := {
  toLowerCase : jsstring -> jsstring;
  invalidCountMessage : Z -> jsstring;
  typeErrorMessage : string -> jsstring
}.

(** *** Document tree and walker *)

(** A structural element of the Docs API, with the properties the walker
    reads; an absent property is [None], and an array may hold holes. *)
Inductive element : Type :=
| Element (textRun : option (option jsstring))
          (paragraph : option paragraph)
          (table : option table)
          (list_ : option (option (list (option Z))))
          (elements : option (list (option element)))
with paragraph : Type :=
| Paragraph (elements : option (list (option element)))
            (namedStyleType : option jsstring)
            (bullet : bool)
with table : Type :=
| Table (tableRows : option (list tableRow))
with tableRow : Type :=
| TableRow (tableCells : option (list tableCell))
with tableCell : Type :=
| TableCell (content : option (list (option element))).

(** The walker returns text or throws the [RangeError] of [repeat]. *)
Inductive walked (A : Type) : Type :=
| Ok (a : A)
| RangeError (count : Z).

Arguments Ok {A} a.
Arguments RangeError {A} count.

Definition bind (A B : Type) (m : walked A) (f : A -> walked B) : walked B :=
  match m with
  | Ok a => f a
  | RangeError c => RangeError c
  end.

Notation "x <- m ;; k" := (bind m (fun x => k))
  (at level 61, m at next level, right associativity).

(** [s.repeat(count)] for an integer count. *)
Definition repeatZ (s : jsstring) (count : Z) : walked jsstring :=
  if (count <? 0)%Z then RangeError count
  else Ok (Js.repeat s (Z.to_nat count)).

(** [items.map(f).join(sep)], the calls of [f] made left to right. *)
Section MapJoin.
Variable A : Type.
Variable f : A -> walked jsstring.

Fixpoint mapM (items : list A) : walked (list jsstring) :=
  match items with
  | [] => Ok []
  | x :: rest =>
      s <- f x ;;
      r <- mapM rest ;;
      Ok (s :: r)
  end.

Definition mapJoin (sep : jsstring) (items : list A) : walked jsstring :=
  l <- mapM items ;; Ok (join sep l).
End MapJoin.

(** The heading prefix of lines 141 to 147. *)
Definition headingPrefix (style : option jsstring) : walked jsstring :=
  match style with
  | Some ((_ :: _) as style) =>
      if startsWith style (js "HEADING_") then
        match parseInt (skipn 8 style) with
        | Some level => h <- repeatZ (js "#") level ;; Ok (h ++ js " ")
        | None => Ok (js " ")
        end
      else Ok []
  | _ => Ok []
  end.

(** The list marker of lines 179 to 186:
    [nestingLevels[0]?.nestingLevel || 0]. *)
Definition listMarker (l : option (list (option Z))) : walked jsstring :=
  match l with
  | Some nestingLevels =>
      let level :=
        match nestingLevels with
        | Some n :: _ => n
        | _ => 0%Z
        end in
      indent <- repeatZ (js "  ") level ;; Ok (indent ++ js "- ")
  | None => Ok []
  end.

Fixpoint processElement (element : element) : walked jsstring :=
  let item (o : option GoogleDocs.element) : walked jsstring :=
    match o with
    | Some e => processElement e
    | None => Ok []
    end in
  match element with
  | Element textRun paragraph table list_ elements =>
      let content := [] in
      let content :=
        match textRun with
        | Some (Some c) => content ++ c
        | _ => content
        end in
      content <-
        match paragraph with
        | Some p => t <- processParagraph p ;; Ok (content ++ t)
        | None => Ok content
        end ;;
      content <-
        match table with
        | Some t => r <- processTable t ;; Ok (content ++ r)
        | None => Ok content
        end ;;
      content <-
        match list_ with
        | Some l => m <- listMarker l ;; Ok (content ++ m)
        | None => Ok content
        end ;;
      match elements with
      | Some es => r <- mapJoin item [] es ;; Ok (content ++ r)
      | None => Ok content
      end
  end
with processParagraph (p : paragraph) : walked jsstring :=
  let item (o : option GoogleDocs.element) : walked jsstring :=
    match o with
    | Some e => processElement e
    | None => Ok []
    end in
  match p with
  | Paragraph elements namedStyleType bullet =>
      paragraphText <-
        match elements with
        | Some es => mapJoin item [] es
        | None => Ok []
        end ;;
      h <- headingPrefix namedStyleType ;;
      let paragraphText := h ++ paragraphText in
      let paragraphText :=
        if bullet then js "- " ++ paragraphText else paragraphText in
      Ok (paragraphText ++ js "\n")
  end
with processTable (t : table) : walked jsstring :=
  match t with
  | Table (Some rows) =>
      r <- mapJoin processRow [] rows ;; Ok (r ++ js "\n")
  | Table None => Ok []
  end
with processRow (row : tableRow) : walked jsstring :=
  match row with
  | TableRow (Some cells) =>
      rowText <- mapJoin processCell (js " | ") cells ;;
      Ok (js "| " ++ rowText ++ js " |\n")
  | TableRow None => Ok []
  end
with processCell (cell : tableCell) : walked jsstring :=
  let item (o : option GoogleDocs.element) : walked jsstring :=
    match o with
    | Some e => processElement e
    | None => Ok []
    end in
  match cell with
  | TableCell (Some content) =>
      s <- mapJoin item [] content ;; Ok (trim s)
  | TableCell None => Ok []
  end.

(** [extractContent]: the title, defaulting when absent or empty, and the
    flattened body. *)
Record document : Type := {
  docTitle : option jsstring;
  body : option (list (option element))
}.

Definition extractContent (d : document) : walked (jsstring * jsstring) :=
  let title :=
    match docTitle d with
    | Some ((_ :: _) as t) => t
    | _ => js "Untitled Document"
    end in
  text <-
    match body d with
    | Some content =>
        mapJoin (fun o => match o with
                          | Some e => processElement e
                          | None => Ok []
                          end) [] content
    | None => Ok []
    end ;;
  Ok (title, text).

(** *** Content normalizer *)

Definition newline : re := Class (N.eqb 10).
Definition blank : re := oneOf (js " \t").

(** Three or more line feeds; a run of spaces and tabs; a line feed
    followed by such a run. *)
Definition manyNewlines : re := Seq [newline; newline; newline; Star true newline].
Definition blanks : re := Plus blank.
Definition newlineBlanks : re := Cat newline (Plus blank).

(** The clean-up both normalizers start with (lines 208 to 213 and 414 to
    419). *)
Definition cleanup (text : jsstring) : jsstring :=
  let normalized := text in
  let normalized := replaceAll manyNewlines [Txt (js "\n\n")] normalized in
  let normalized := replaceAll blanks [Txt (js " ")] normalized in
  let normalized := replaceAll newlineBlanks [Txt (js "\n")] normalized in
  trim normalized.

Definition heading (title : jsstring) : jsstring := js "# " ++ title.

(** Remote path: the title is always added at the beginning. *)
Definition normalizeContent (title text : jsstring) : jsstring :=
  let normalized := cleanup text in
  heading title ++ js "\n\n" ++ normalized.

(** Local path: the title is added unless the text starts with it. *)
Definition normalizeMarkdownContent (content title : jsstring) : jsstring :=
  let normalized := cleanup content in
  if negb (startsWith normalized (heading title))
  then heading title ++ js "\n\n" ++ normalized
  else normalized.

(** *** Permission errors and the fallback *)

(** How an evaluation that may throw a [TypeError] ends. *)
Inductive checked (A : Type) : Type :=
| Checked (a : A)
| TypeError.

Arguments Checked {A} a.
Arguments TypeError {A}.

(** [error?.message?.toLowerCase().includes(needle)]: the optional chain
    stops at a message that is [null] or [undefined]; a message of any
    other kind than a string has no [toLowerCase], and calling it throws. *)
Definition messageIncludes (E : engine) (e : error) (needle : string)
  : checked bool :=
  match message e with
  | Some (Text m) => Checked (includes (toLowerCase E m) (js needle))
  | Some (NonText _ _) => TypeError
  | None => Checked false
  end.

(** The two tests made before the message is read. *)
Definition status403 (e : error) : bool :=
  match response e with
  | Some r => match status r with Some s => (s =? 403)%Z | None => false end
  | None => false
  end.

Definition code403 (e : error) : bool :=
  match code e with Some (CodeNum n) => (n =? 403)%Z | _ => false end.

(** [isPermissionError] (lines 280 to 289): six tests in a row, the first
    that holds returns [true]. *)
Definition isPermissionError (E : engine) (e : error) : checked bool :=
  if status403 e then Checked true
  else if code403 e then Checked true
  else
    match messageIncludes E e "permission denied" with
    | TypeError => TypeError
    | Checked true => Checked true
    | Checked false =>
        match messageIncludes E e "access denied" with
        | TypeError => TypeError
        | Checked true => Checked true
        | Checked false =>
            match messageIncludes E e "forbidden" with
            | TypeError => TypeError
            | Checked true => Checked true
            | Checked false =>
                match messageIncludes E e "insufficient permissions" with
                | TypeError => TypeError
                | Checked true => Checked true
                | Checked false => Checked false
                end
            end
        end
    end.

(** The permission class in the words of the specification: status 403,
    an error code equal to 403, or a message that contains, whatever the
    case of its letters, one of four phrases.  A text contains a phrase
    when the phrase stands somewhere in it. *)
Definition permissionPhrases : list jsstring :=
  [ js "permission denied"; js "access denied"; js "forbidden";
    js "insufficient permissions" ].

Definition contains (s phrase : jsstring) : Prop :=
  exists before after, s = before ++ phrase ++ after.

Definition permissionClass (E : engine) (e : error) : Prop :=
  (exists r, response e = Some r /\ status r = Some 403%Z)
  \/ code e = Some (CodeNum 403)
  \/ (exists m phrase,
        message e = Some (Text m) /\ In phrase permissionPhrases
        /\ contains (toLowerCase E m) phrase).

Record GoogleDocsContent : Type := {
  title : jsstring;
  text : jsstring;
  normalizedText : jsstring
}.

(** What [readDocument] does besides returning: the warning, the call of
    [Logger.logError] and the call of the local fallback. *)
Inductive event : Type :=
| LogWarning (msg : jsstring)
| LogError (e : error)
| CallFallback.

(** How the promise of an [async] method settles. *)
Inductive settled (A : Type) : Type :=
| Resolved (a : A)
| Rejected (e : error).

Arguments Resolved {A} a.
Arguments Rejected {A} e.

(** The error object of a [RangeError] thrown by the walker, and of the
    [TypeError] thrown by the named call. *)
Definition rangeError (E : engine) (count : Z) : error :=
  {| instanceOfError := true; code := None;
     message := Some (Text (invalidCountMessage E count)); response := None;
     serializable := true |}.

Definition typeError (E : engine) (call : string) : error :=
  {| instanceOfError := true; code := None;
     message := Some (Text (typeErrorMessage E call)); response := None;
     serializable := true |}.

(** [Logger.logError] (src/utils/logger.ts, lines 62 to 82), as far as it
    can throw; [None] when it writes its lines.  For an error with a
    response it lists [data.errorMessages] with [forEach]; an error with
    neither a response nor a truthy message is printed by
    [JSON.stringify].  The values it puts into its lines are taken to
    convert to strings. *)
Definition messageIsTruthy (e : error) : bool :=
  match message e with
  | Some (Text (_ :: _)) => true
  | Some (NonText truthy _) => truthy
  | _ => false
  end.

(** The errors the logger can print, in the words of its branches: the
    error messages of a response, if any, are an array; without a
    response, the message is truthy or the object can be serialized. *)
Definition printable (e : error) : Prop :=
  match response e with
  | Some r => errorMessages r <> NotAList
  | None => messageIsTruthy e = true \/ serializable e = true
  end.

Definition logError (E : engine) (e : error) : option error :=
  match response e with
  | Some r =>
      match errorMessages r with
      | NotAList => Some (typeError E "forEach")
      | _ => None
      end
  | None =>
      if messageIsTruthy e then None
      else if serializable e then None
      else Some (typeError E "stringify")
  end.

(** The [catch] block of [readDocument] (lines 101 to 113); [fallback] is
    how the call of [fallbackToLocalMarkdown] settles.  A [TypeError]
    thrown by [isPermissionError] or by the logger leaves the block, and
    the method, as it is thrown. *)
Definition onError (E : engine)
    (fallback : settled (ApiResponse GoogleDocsContent)) (e : error)
  : list event * settled (ApiResponse GoogleDocsContent) :=
  match isPermissionError E e with
  | Checked true =>
      ([LogWarning (js "Permission denied accessing Google Docs. Searching for local markdown file...");
        CallFallback], fallback)
  | Checked false =>
      match logError E e with
      | None => ([LogError e], Resolved (Failure (errorText e)))
      | Some thrown => ([LogError e], Rejected thrown)
      end
  | TypeError => ([], Rejected (typeError E "toLowerCase"))
  end.

(** [readDocument] once the client is initialized: [fetched] is how the
    retried [documents.get] call ended, the document or the error object
    it threw.  Cache writes and info lines are left out: they do not change
    the result. *)
Definition readDocument (E : engine)
    (fallback : settled (ApiResponse GoogleDocsContent))
    (fetched : document + error)
  : list event * settled (ApiResponse GoogleDocsContent) :=
  match fetched with
  | inl d =>
      match extractContent d with
      | Ok (t, x) =>
          ([], Resolved (Success {| title := t; text := x;
                                    normalizedText := normalizeContent t x |}))
      | RangeError c => onError E fallback (rangeError E c)
      end
  | inr e => onError E fallback e
  end.

(** *** Local fallback locator *)

(** A directory tree: files with their modification time, directories with
    their entries in [readdirSync] order. *)
Inductive node : Type :=
| File (mtime : Z)
| Dir (entries : list (jsstring * node)).

(** [path.posix.normalize] and [path.posix.join].  A path is read left to
    right; [cur] is the segment being read (reversed) and [stack] the
    segments kept so far (last first). *)
Definition dot : jsstring := js ".".
Definition dotdot : jsstring := js "..".

Definition push (allowAboveRoot : bool) (seg : jsstring) (stack : list jsstring)
  : list jsstring :=
  if Js.eqb seg [] || Js.eqb seg dot then stack
  else if Js.eqb seg dotdot then
    match stack with
    | [] => if allowAboveRoot then [dotdot] else []
    | top :: rest =>
        if Js.eqb top dotdot
        then (if allowAboveRoot then dotdot :: stack else stack)
        else rest
    end
  else seg :: stack.

Fixpoint segments (allowAboveRoot : bool) (path cur : jsstring)
    (stack : list jsstring) : list jsstring :=
  match path with
  | [] => rev (push allowAboveRoot (rev cur) stack)
  | c :: path' =>
      if (c =? 47)%N
      then segments allowAboveRoot path' [] (push allowAboveRoot (rev cur) stack)
      else segments allowAboveRoot path' (c :: cur) stack
  end.

Definition normalize (path : jsstring) : jsstring :=
  match path with
  | [] => dot
  | first :: _ =>
      let isAbsolute := (first =? 47)%N in
      let trailingSeparator := (last path 0 =? 47)%N in
      let p := join (js "/") (segments (negb isAbsolute) path [] []) in
      match p with
      | [] =>
          if isAbsolute then js "/"
          else if trailingSeparator then js "./" else dot
      | _ =>
          let p := if trailingSeparator then p ++ js "/" else p in
          if isAbsolute then js "/" ++ p else p
      end
  end.

(** [join(a, b)] for two arguments. *)
Definition pathJoin (a b : jsstring) : jsstring :=
  match a, b with
  | [], [] => dot
  | [], _ => normalize b
  | _, [] => normalize a
  | _, _ => normalize (a ++ js "/" ++ b)
  end.

(** [path.extname] of a directory entry (a name without a slash). *)
Definition extname (item : jsstring) : jsstring :=
  let startDot := lastIndexOf item dot in
  if (startDot <? 0)%Z then []
  else
    let before := firstn (Z.to_nat startDot) item in
    if forallb (N.eqb 46) before then
      match before with
      | [] => []
      | _ => if Js.eqb item dotdot then [] else substring_from item startDot
      end
    else substring_from item startDot.

Fixpoint lookupEntry (name : jsstring) (entries : list (jsstring * node))
  : option node :=
  match entries with
  | [] => None
  | (n, x) :: rest => if Js.eqb n name then Some x else lookupEntry name rest
  end.

(** The node that a relative path staying below the current directory
    names. *)
Fixpoint walk (segs : list jsstring) (n : node) : option node :=
  match segs with
  | [] => Some n
  | seg :: segs' =>
      match n with
      | Dir entries =>
          match lookupEntry seg entries with
          | Some n' => walk segs' n'
          | None => None
          end
      | File _ => None
      end
  end.

Definition resolve (cwd : node) (path : jsstring) : option node :=
  walk (segments false path [] []) cwd.

Section Scan.
Variable E : engine.

(** The loop of [scanDirectoryForMarkdown(dirPath)] over the entries of
    the directory [d] that [dirPath] names. *)
Fixpoint scan (dirPath : jsstring) (d : node) {struct d} : list jsstring :=
  match d with
  | File _ => []
  | Dir items =>
      (fix each (items : list (jsstring * node)) : list jsstring :=
         match items with
         | [] => []
         | (item, n) :: rest =>
             let fullPath := pathJoin dirPath item in
             match n with
             | Dir _ =>
                 if startsWith item dot || Js.eqb item (js "node_modules")
                 then each rest
                 else scan fullPath n ++ each rest
             | File _ =>
                 if Js.eqb (toLowerCase E (extname item)) (js ".md")
                 then fullPath :: each rest
                 else each rest
             end
         end) items
  end.

(** [scanDirectoryForMarkdown(dirPath)] from the current directory [cwd];
    [None] when [readdirSync] throws because [dirPath] is no directory. *)
Definition scanDirectoryForMarkdown (cwd : node) (dirPath : jsstring)
  : option (list jsstring) :=
  match resolve cwd dirPath with
  | Some (Dir items) => Some (scan dirPath (Dir items))
  | _ => None
  end.

Definition existsSync (cwd : node) (path : jsstring) : bool :=
  match resolve cwd path with
  | Some _ => true
  | None => false
  end.

(** [statSync(path).mtime.getTime()] of a collected file. *)
Definition mtimeOf (cwd : node) (path : jsstring) : Z :=
  match resolve cwd path with
  | Some (File m) => m
  | _ => 0%Z
  end.

(** [Array.prototype.sort] with the comparator
    [statB.mtime - statA.mtime]: stable, most recent first. *)
Fixpoint insert (cwd : node) (a : jsstring) (l : list jsstring) : list jsstring :=
  match l with
  | [] => [a]
  | b :: l' =>
      if (mtimeOf cwd b - mtimeOf cwd a <=? 0)%Z then a :: l
      else b :: insert cwd a l'
  end.

Fixpoint sort (cwd : node) (l : list jsstring) : list jsstring :=
  match l with
  | [] => []
  | a :: l' => insert cwd a (sort cwd l')
  end.

(** The loop of [findMarkdownFiles] over the search paths. *)
Fixpoint collect (cwd : node) (searchPaths : list jsstring) : list jsstring :=
  match searchPaths with
  | [] => []
  | searchPath :: rest =>
      if negb (existsSync cwd searchPath) then collect cwd rest
      else
        match scanDirectoryForMarkdown cwd searchPath with
        | Some files => files ++ collect cwd rest
        | None => collect cwd rest
        end
  end.

Definition findMarkdownFiles (cwd : node) (searchPaths : list jsstring)
  : list jsstring :=
  sort cwd (collect cwd searchPaths).

(** The search roots of [fallbackToLocalMarkdown] (lines 309 to 316). *)
Definition searchPaths : list jsstring :=
  [ js "."; js "./docs"; js "./documents"; js "./markdown"; js "./content";
    js "./.cache" ].

End Scan.

End GoogleDocs.

(* ================================================================== *)
(** ** Scenario data *)
(* ================================================================== *)

Module Scenarios.
Import Gepeto.

(** Message texts of some engine; the results below hold for any. *)
Definition plainMessages : messages :=
  {| syntaxErrorMessage := fun _ => js "Unexpected token";
     zodErrorMessage := fun _ _ => js "Invalid input" |}.

(** The repair scenario: prose, then a json fence around an array with
    bare keys and a trailing comma. *)
Definition reply : jsstring :=
  js "Here you go:\n```json\n[{summary: \qTest\q, description: \qd\q, acceptanceCriteria: [\qa\q],}]\n```".

Definition candidate : jsstring :=
  js "[{summary: \qTest\q, description: \qd\q, acceptanceCriteria: [\qa\q],}]".

Definition repaired : jsstring :=
  js "[{\qsummary\q: \qTest\q, \qdescription\q: \qd\q, \qacceptanceCriteria\q: [\qa\q]}]".

Definition card (s d : string) (ac : list jsstring) : BDDCard :=
  {| summary := js s; description := js d; acceptanceCriteria := ac;
     labels := None; priority := None; storyPoints := None;
     component := None; epicLink := None; linkedIssues := None |}.

Definition testCard : BDDCard := card "Test" "d" [js "a"].

(** A batch of three cards whose second summary has 85 characters. *)
Definition longSummary : jsstring := Js.repeat (js "x") 85.

Definition cardJson (s d : jsstring) (ac : list json) : json :=
  JObj [(js "summary", JStr s); (js "description", JStr d);
        (js "acceptanceCriteria", JArr ac)].

Definition firstJson : json := cardJson (js "First") (js "d1") [JStr (js "a")].
Definition longJson : json := cardJson longSummary (js "d2") [JStr (js "b")].
Definition thirdJson : json := cardJson (js "Third") (js "d3") [JStr (js "c")].

Definition batch : jsstring :=
  js "[{\qsummary\q: \qFirst\q, \qdescription\q: \qd1\q, \qacceptanceCriteria\q: [\qa\q]}, {\qsummary\q: \q"
  ++ longSummary
  ++ js "\q, \qdescription\q: \qd2\q, \qacceptanceCriteria\q: [\qb\q]}, {\qsummary\q: \qThird\q, \qdescription\q: \qd3\q, \qacceptanceCriteria\q: [\qc\q]}]".

(** A batch of three cards whose second summary has 85 characters, ten
    of them commas and closing braces. *)
Definition commaSummary : jsstring := js ",},},},},}" ++ Js.repeat (js "x") 75.

Definition commaBatch : jsstring :=
  js "[{\qsummary\q: \qFirst\q, \qdescription\q: \qd1\q, \qacceptanceCriteria\q: [\qa\q]}, {\qsummary\q: \q"
  ++ commaSummary
  ++ js "\q, \qdescription\q: \qd2\q, \qacceptanceCriteria\q: [\qb\q]}, {\qsummary\q: \qThird\q, \qdescription\q: \qd3\q, \qacceptanceCriteria\q: [\qc\q]}]".

(** A card without acceptance criteria. *)
Definition bare : jsstring :=
  js "[{\qsummary\q: \qOnly\q, \qdescription\q: \qd\q, \qacceptanceCriteria\q: []}]".

(** Two replies that differ before the bracket. *)
Definition brokenX : jsstring := js "x[".
Definition brokenY : jsstring := js "y[".

(** Errors of a remote call: a connection reset, which the default
    condition retries, and a 404 and a 403 response, which it does not. *)
Definition connectionReset : error :=
  {| instanceOfError := true; code := Some (CodeStr (js "ECONNRESET"));
     message := Some (Text (js "socket hang up")); response := None;
     serializable := true |}.

Definition httpError (s : Z) (m : string) : error :=
  {| instanceOfError := true; code := None; message := Some (Text (js m));
     response := Some {| status := Some s; retryAfter := None;
                         errorMessages := NoList |};
     serializable := true |}.

Definition notFound : error := httpError 404 "Not Found".
Definition forbidden : error := httpError 403 "The caller does not have permission".

(** A transport error that only its message marks as a permission
    problem. *)
Definition denied : error :=
  {| instanceOfError := true; code := None;
     message := Some (Text (js "Access Denied for this document"));
     response := None; serializable := true |}.

(** An operation that counts its invocations and always throws [e]. *)
Definition alwaysThrows (e : error) (n : nat) : (unit + error) * nat :=
  (inr e, S n).

Definition noJitter (attempt : Z) : Q := 0%Q.
Definition halfJitter (attempt : Z) : Q := (1 # 2)%Q.

Definition withMaxAttempts (m : Q) : RetryManager.RetryOptions :=
  {| RetryManager.maxAttempts := Some m; RetryManager.baseDelay := None;
     RetryManager.maxDelay := None; RetryManager.backoffFactor := None;
     RetryManager.retryCondition := None |}.

(** Options that leave the three delay settings at their defaults. *)
Definition defaultDelays (m : option Q) (rc : option (error -> bool))
  : RetryManager.RetryOptions :=
  {| RetryManager.maxAttempts := m; RetryManager.baseDelay := None;
     RetryManager.maxDelay := None; RetryManager.backoffFactor := None;
     RetryManager.retryCondition := rc |}.



(** A 429 response asking to wait 120 seconds. *)
Definition tooManyRequests : error :=
  {| instanceOfError := true; code := None;
     message := Some (Text (js "Too Many Requests"));
     response := Some {| status := Some 429%Z;
                         retryAfter := Some (js "120");
                         errorMessages := List [js "Rate limit exceeded"] |};
     serializable := true |}.

(** An engine for Basic Latin text. *)
Definition latin : GoogleDocs.engine :=
  {| GoogleDocs.toLowerCase := lowerAscii;
     GoogleDocs.invalidCountMessage := fun _ => js "Invalid count value";
     GoogleDocs.typeErrorMessage :=
       fun call =>
         if String.eqb call "stringify"
         then js "Converting circular structure to JSON"
         else js call ++ js " is not a function" |}.

(** The local fallback found a file and returned it. *)
Definition localCopy
  : GoogleDocs.settled (ApiResponse GoogleDocs.GoogleDocsContent) :=
  GoogleDocs.Resolved
    (Success {| GoogleDocs.title := js "Notes"; GoogleDocs.text := js "body";
                GoogleDocs.normalizedText := js "# Notes\n\nbody" |}).

(** A project directory with one markdown file under docs. *)
Definition project : GoogleDocs.node :=
  GoogleDocs.Dir
    [ (js "README.txt", GoogleDocs.File 3);
      (js "docs", GoogleDocs.Dir [ (js "spec.md", GoogleDocs.File 5) ]) ].

(** Texts for the normalizer. *)
Definition headed : jsstring := js "# T\n\nbody".
Definition gappy : jsstring := js "x\n\n \ny".

(** A cell holding one paragraph with one text run. *)
Definition textCell (s : string) : GoogleDocs.tableCell :=
  GoogleDocs.TableCell
    (Some [Some (GoogleDocs.Element None
             (Some (GoogleDocs.Paragraph
                      (Some [Some (GoogleDocs.Element (Some (Some (js s)))
                                     None None None None)])
                      None false))
             None None None)]).

(** An element that is only a table, given by its rows of cells. *)
Definition tableOf (rows : list (list GoogleDocs.tableCell))
  : GoogleDocs.element :=
  GoogleDocs.Element None None
    (Some (GoogleDocs.Table
             (Some (map (fun cells => GoogleDocs.TableRow (Some cells)) rows))))
    None None.

Definition withCondition (rc : option (error -> bool))
  : RetryManager.RetryOptions :=
  {| RetryManager.maxAttempts := None; RetryManager.baseDelay := None;
     RetryManager.maxDelay := None; RetryManager.backoffFactor := None;
     RetryManager.retryCondition := rc |}.

End Scenarios.

(* ================================================================== *)
(** ** Further parts of the sources *)
(* ================================================================== *)

(** The loop a star runs, on its own, so that it can be reasoned about:
    [run (Star greedy r1) s caps k] is [starLoop r1 greedy k] with a fuel of
    [S (length s)]. *)
Section StarLoop.
Variable A : Type.
Variable r1 : re.
Variable greedy : bool.
Variable k : jsstring -> captures -> option A.

Fixpoint starLoop (fuel : nat) (s : jsstring) (caps : captures) {struct fuel}
  : option A :=
  match fuel with
  | O => k s caps
  | S fuel' =>
      let more (_ : unit) :=
        run r1 s caps
          (fun s' c' =>
             if (length s' <? length s)%nat then starLoop fuel' s' c'
             else None) in
      if greedy then
        match more tt with
        | Some x => Some x
        | None => k s caps
        end
      else
        match k s caps with
        | Some x => Some x
        | None => more tt
        end
  end.
End StarLoop.

(** The text left after the longest run of characters of a class. *)
Fixpoint dropClass (p : char -> bool) (s : jsstring) : jsstring :=
  match s with
  | c :: s' => if p c then dropClass p s' else s
  | [] => []
  end.

(** A text at whose head a run of the class [p] ends. *)
Definition stops (p : char -> bool) (s : jsstring) : Prop :=
  match s with
  | [] => True
  | c :: _ => p c = false
  end.

(** No two neighbours of a text form a pair that [bad] marks. *)
Fixpoint pairFree (bad : char -> char -> bool) (l : jsstring) : Prop :=
  match l with
  | a :: ((b :: _) as rest) => bad a b = false /\ pairFree bad rest
  | _ => True
  end.

(** The class of [blank], a space or a tab; two blanks side by side; a
    blank right after a line feed. *)
Definition isBlank (c : char) : bool := existsb (N.eqb c) (js " \t").

Definition blankPair (a b : char) : bool := isBlank a && isBlank b.

Definition lineStartBlank (a b : char) : bool := (a =? 10)%N && isBlank b.

(** The head of [out] is a line feed or the head of [s]. *)
Definition headFrom (s out : jsstring) : Prop :=
  match out with
  | [] => True
  | y :: _ => y = 10%N \/ match s with x :: _ => x = y | [] => False end
  end.

(** The largest double below one, the largest sample [Math.random()] can
    yield. *)
Definition belowOne : Q := 1 - 2 ^ (-53).

(** The state of the world after [i] invocations of an operation. *)
Fixpoint worldAfter (R W : Type) (operation : W -> R * W) (w : W) (i : nat) : W :=
  match i with
  | O => w
  | S i' => worldAfter operation (snd (operation w)) i'
  end.

(** What a retry loop holds in [lastError] after [n] invocations: nothing
    yet, or the error the last of them threw. *)
Definition seen (T W : Type) (operation : W -> (T + error) * W) (w0 : W)
    (n : nat) (lastError : option error) : Prop :=
  match lastError with
  | None => n = 0
  | Some e =>
      1 <= n /\ fst (operation (worldAfter operation w0 (n - 1))) = inr e
  end.

(** *** The retry loop without restrictions

    [RetryManager.loop] is the loop of [execute] for a limit that is a
    finite number, invocations that settle, and thrown values that are
    objects.  The loop below lifts the three restrictions: the limit may
    be infinite or no number at all, an invocation may never settle, and
    what it throws may be [undefined] or [null]; the retry condition is any
    function, which may throw.  [agrees] relates the two. *)
Module Unrestricted.
Import RetryManager.
Local Open Scope Q_scope.

(** [opts.maxAttempts]: a finite number, positive infinity, or a value
    that no attempt number is below or equal to ([NaN], negative infinity,
    [undefined]). *)
Inductive limit : Type :=
| Finite (q : Q)
| Infinity
| NoNumber.

(** What an invocation throws: [undefined] or [null], or a value whose
    properties can be read (an object, or a primitive, which has none of
    the properties read). *)
Inductive thrown : Type :=
| Nullish
| Object (e : error).

Inductive attempted (T : Type) : Type :=
| Returns (v : T)
| Throws (x : thrown)
| NeverSettles.

Arguments Returns {T} v.
Arguments Throws {T} x.
Arguments NeverSettles {T}.

(** A retry condition returns, or throws. *)
Definition condition : Type := thrown -> bool + thrown.

(** How a call ends: with the value returned; with the value caught,
    thrown again by [throw error]; with a value the operation did not
    throw, raised by the retry condition or by reading the response of
    [undefined]; with [lastError] after the loop; or never. *)
Inductive exit (T : Type) : Type :=
| Returned (value : T)
| Rethrown (x : thrown)
| Raised (x : thrown)
| AfterLoop (lastError : option thrown)
| Hangs.

Arguments Returned {T} value.
Arguments Rethrown {T} x.
Arguments Raised {T} x.
Arguments AfterLoop {T} lastError.
Arguments Hangs {T}.

Record execution (T W : Type) : Type := {
  outcome : exit T;
  calls : nat;
  sleeps : list (option Q);
  world : W
}.

Definition within (attempt : Z) (l : limit) : bool :=
  match l with
  | Finite q => Qle_bool (inject_Z attempt) q
  | Infinity => true
  | NoNumber => false
  end.

Definition isLast (attempt : Z) (l : limit) : bool :=
  match l with
  | Finite q => Qeq_bool (inject_Z attempt) q
  | _ => false
  end.

Section Execute.
Variables T W : Type.
Variable operation : W -> attempted T * W.
Variable random : Z -> Q.
Variable lim : limit.
Variable cond : condition.

(** The delay settings, and the [TypeError] of reading the named property
    of [undefined] or [null]. *)
Variable opts : Options.
Variable cannotRead : string -> error.

Fixpoint loop (fuel : nat) (attempt : Z) (lastError : option thrown) (w : W)
    (n : nat) (slept : list (option Q)) : option (execution T W) :=
  if within attempt lim then
    match fuel with
    | O => None
    | S fuel' =>
        match operation w with
        | (Returns v, w') =>
            Some {| outcome := Returned v; calls := S n; sleeps := slept;
                    world := w' |}
        | (NeverSettles, w') =>
            Some {| outcome := Hangs; calls := S n; sleeps := slept;
                    world := w' |}
        | (Throws x, w') =>
            if isLast attempt lim then
              Some {| outcome := Rethrown x; calls := S n; sleeps := slept;
                      world := w' |}
            else
              match cond x with
              | inr y =>
                  Some {| outcome := Raised y; calls := S n; sleeps := slept;
                          world := w' |}
              | inl false =>
                  Some {| outcome := Rethrown x; calls := S n;
                          sleeps := slept; world := w' |}
              | inl true =>
                  match x with
                  | Nullish =>
                      Some {| outcome :=
                                Raised (Object (cannotRead "response"%string));
                              calls := S n; sleeps := slept; world := w' |}
                  | Object e =>
                      loop fuel' (attempt + 1) (Some x) w' (S n)
                        (slept ++ [finalDelay opts attempt (random attempt) e])
                  end
              end
        end
    end
  else
    Some {| outcome := AfterLoop lastError; calls := n; sleeps := slept;
            world := w |}.

(** [execute] run for at most [fuel] iterations; [None] when it has not
    ended by then. *)
Definition execute (fuel : nat) (w : W) : option (execution T W) :=
  loop fuel 1 None w 0 [].

End Execute.

(** The default retry condition reads [error.code] first. *)
Definition defaultCondition (cannotRead : string -> error) : condition :=
  fun x =>
    match x with
    | Nullish => inr (Object (cannotRead "code"%string))
    | Object e => inl (defaultRetryCondition e)
    end.

(** The restricted loop inside this one. *)
Definition lift (T W : Type) (operation : W -> (T + error) * W) (w : W)
  : attempted T * W :=
  match operation w with
  | (inl v, w') => (Returns v, w')
  | (inr e, w') => (Throws (Object e), w')
  end.

Definition agreesWith (rc : error -> bool) (cond : condition) : Prop :=
  forall e, cond (Object e) = inl (rc e).

Definition embed (T W : Type) (r : RetryManager.execution T W)
  : execution T W :=
  {| outcome :=
       match RetryManager.outcome r with
       | RetryManager.Returned v => Returned v
       | RetryManager.ThrownInLoop e => Rethrown (Object e)
       | RetryManager.ThrownAfterLoop lastError =>
           AfterLoop (option_map Object lastError)
       end;
     calls := RetryManager.calls r;
     sleeps := RetryManager.sleeps r;
     world := RetryManager.world r |}.

End Unrestricted.

(** Decimal digits of a number, as a template literal prints it. *)
Definition decimal (n : nat) : jsstring :=
  map N_of_ascii
    (list_ascii_of_string (NilEmpty.string_of_uint (Nat.to_uint n))).

(** The character that fences are made of. *)
Definition backquote : char := 96%N.

(** An object with the members of a card and one the schema does not
    know. *)
Definition annotatedJson : json :=
  JObj [(js "summary", JStr (js "First")); (js "note", JNum (js "1"));
        (js "description", JStr (js "d1"));
        (js "acceptanceCriteria", JArr [JStr (js "a")])].

(** A fetch that changes nothing and always throws [e]. *)
Definition fetchThrows (e : error) (w : unit)
  : (GoogleDocs.document + error) * unit := (inr e, w).

(** An operation that throws a connection reset on its first [k]
    invocations and returns the number of earlier invocations afterwards. *)
Definition failsThenReturns (k : nat) (n : nat) : (nat + error) * nat :=
  if (n <? k)%nat then (inr Scenarios.connectionReset, S n) else (inl n, S n).

Module Reader.
Import GoogleDocs RetryManager.

(** [extractTitleFromMarkdown] (lines 401 to 408).  The pattern is a
    sharp sign at the start of a line, one or more white space, and as
    group 1 one or more characters other than line terminators up to the
    end of a line; the two anchors, with the multiline flag, are the test
    [atLineEnd] after the match and the restriction of the search to
    starts of lines. *)
Definition isLineTerminator (c : char) : bool :=
  ((c =? 10) || (c =? 13) || (c =? 8232) || (c =? 8233))%N.

Definition notLineTerminator : re :=
  Class (fun c => negb (isLineTerminator c)).

Definition headingLine : re :=
  Seq [Chr "#"%char; Plus space; Group 1 (Plus notLineTerminator)].

Definition atLineEnd (rest : jsstring) : bool :=
  match rest with
  | [] => true
  | c :: _ => isLineTerminator c
  end.

Definition matchHeadingAt (s : jsstring) : option captures :=
  Regex.run headingLine s []
    (fun rest c => if atLineEnd rest then Some c else None).

Fixpoint searchLines (atLineStart : bool) (s : jsstring) : option captures :=
  match (if atLineStart then matchHeadingAt s else None) with
  | Some c => Some c
  | None =>
      match s with
      | [] => None
      | c :: s' => searchLines (isLineTerminator c) s'
      end
  end.

Definition extractTitleFromMarkdown (content : jsstring) : option jsstring :=
  match searchLines true content with
  | Some c => Some (trim (capture 1 c))
  | None => None
  end.

(** What the file system calls of [fallbackToLocalMarkdown] need beyond
    the directory tree: the content [readFileSync] returns or the error it
    throws, and [path.basename] with an extension to strip. *)
Record files : Type := {
  readFileSync : jsstring -> jsstring + error;
  basename : jsstring -> jsstring -> jsstring
}.

Definition noFilesMessage : jsstring :=
  js "No local markdown files found. Please ensure you have a .md file in the current directory or subdirectories, or configure a specific path using localMarkdownPath.".

(** The file [fallbackToLocalMarkdown] settles on (lines 295 to 330): the
    configured path when it is set and exists, else the first of the files
    found, if any. *)
Definition selectFile (E : engine) (cwd : node)
    (localMarkdownPath : option jsstring) : option jsstring :=
  let configured :=
    match localMarkdownPath with
    | Some ((_ :: _) as path) => if existsSync cwd path then Some path else None
    | _ => None
    end in
  match configured with
  | Some path => Some path
  | None =>
      match findMarkdownFiles E cwd searchPaths with
      | [] => None
      | first :: _ => Some first
      end
  end.

(** [fallbackToLocalMarkdown] (lines 291 to 357), as its promise settles.
    Info lines and the cache write, which catches its own errors, are left
    out; the [catch] block logs the error of [readFileSync] with
    [Logger.logError] before it answers. *)
Definition fallbackToLocalMarkdown (E : engine) (F : files) (cwd : node)
    (localMarkdownPath : option jsstring)
  : settled (ApiResponse GoogleDocsContent) :=
  match selectFile E cwd localMarkdownPath with
  | None => Resolved (Failure noFilesMessage)
  | Some selectedFile =>
      match readFileSync F selectedFile with
      | inr e =>
          match logError E e with
          | None => Resolved (Failure (errorText e))
          | Some thrown => Rejected thrown
          end
      | inl content =>
          let title :=
            match extractTitleFromMarkdown content with
            | Some ((_ :: _) as t) => t
            | _ => basename F selectedFile (js ".md")
            end in
          Resolved
            (Success {| title := title; text := content;
                        normalizedText :=
                          normalizeMarkdownContent content title |})
      end
  end.

(** How the retried fetch of [readDocument] (lines 76 to 81) ends for the
    [try] block around it: with the document, or with what was thrown.
    [undefined] can only be thrown when no attempt is allowed; the error
    record does not cover it. *)
Definition fetchedOf (W : Type) (r : execution GoogleDocs.document W)
  : option (GoogleDocs.document + error) :=
  match outcome r with
  | Returned d => Some (inl d)
  | ThrownInLoop e => Some (inr e)
  | ThrownAfterLoop (Some e) => Some (inr e)
  | ThrownAfterLoop None => None
  end.

(** [readDocument] with its fetch: the number of requests made and what
    it logs and returns. *)
Definition readDocumentThrough (W : Type) (E : engine)
    (fallback : settled (ApiResponse GoogleDocsContent))
    (get : W -> (GoogleDocs.document + error) * W) (random : Z -> Q) (w : W)
  : option (nat * (list event * settled (ApiResponse GoogleDocsContent))) :=
  match execute get random noOptions w with
  | Some r =>
      match fetchedOf r with
      | Some f => Some (calls r, readDocument E fallback f)
      | None => None
      end
  | None => None
  end.

End Reader.

Module Cards.

(** [validateBDDCards] of the test runners (src/test-gepeto-only.ts,
    lines 160 to 192), on cards of type [BDDCard]. *)
Record flagged : Type := {
  flaggedSummary : jsstring;
  errors : list jsstring
}.

Definition isEmpty (A : Type) (l : list A) : bool :=
  match l with [] => true | _ => false end.

Definition tooLong : jsstring := js "Summary too long (>80 chars)".

Definition cardErrors (card : BDDCard) : list jsstring :=
  (if isEmpty (summary card) then [js "Missing summary"] else [])
  ++ (if isEmpty (description card) then [js "Missing description"] else [])
  ++ (if isEmpty (acceptanceCriteria card)
      then [js "Missing acceptance criteria"] else [])
  ++ (if negb (isEmpty (summary card)) && (80 <? length (summary card))%nat
      then [tooLong] else []).

(** A card with a summary, a description and at least one criterion. *)
Definition complete (card : BDDCard) : bool :=
  negb (isEmpty (summary card)) && negb (isEmpty (description card))
  && negb (isEmpty (acceptanceCriteria card)).

(** The keys [BDDCardSchema] declares (src/types/index.ts, lines 100 to
    110). *)
Definition schemaKeys : list jsstring :=
  [ js "summary"; js "description"; js "acceptanceCriteria"; js "labels";
    js "priority"; js "storyPoints"; js "component"; js "epicLink";
    js "linkedIssues" ].

Fixpoint validateBDDCards (cards : list BDDCard) : nat * list flagged :=
  match cards with
  | [] => (0, [])
  | card :: rest =>
      let '(valid, invalid) := validateBDDCards rest in
      match cardErrors card with
      | [] => (S valid, invalid)
      | errs =>
          (valid,
           {| flaggedSummary :=
                match summary card with [] => js "Untitled" | s => s end;
              errors := errs |} :: invalid)
      end
  end.

End Cards.

Module Jira.

(** [createBatchIssues] of the issue tracker client (lines 170 to 211 of
    its file).  [createIssue] acts on a world and gives an [ApiResponse]
    with optional fields, or throws.  An entry of the batch is a payload
    and a card of any kind; [logCreated] is what writing the line for a
    created issue throws, if anything: the line reads [card.summary], which
    throws a [TypeError] for a card that is [null] or [undefined]. *)
Record response (T : Type) : Type := {
  success : bool;
  data : option T;
  failure : option jsstring
}.

Record batchOutcome (T W : Type) : Type := {
  answer : response (list T);
  failures : list jsstring;
  pauses : list Z;
  after : W
}.

Definition undefinedText : jsstring := js "undefined".

Section Batch.
Variables Payload Card Issue W : Type.
Variable createIssue : W -> Payload -> (response Issue + error) * W.
Variable logCreated : Issue -> Card -> option error.

(** The [for] loop from index [i]; [total] is [issues.length]. *)
Fixpoint batchLoop (total i : nat) (issues : list (Payload * Card)) (w : W)
    (results : list Issue) (errors : list jsstring) (pauses : list Z)
  : list Issue * list jsstring * list Z * W :=
  match issues with
  | [] => (results, errors, pauses, w)
  | (payload, card) :: rest =>
      let '(outcome, w') := createIssue w payload in
      let '(results', errors') :=
        match outcome with
        | inl result =>
            match success result, data result with
            | true, Some issue =>
                match logCreated issue card with
                | None => (results ++ [issue], errors)
                | Some e =>
                    (results ++ [issue],
                     errors ++ [js "Issue " ++ decimal (i + 1) ++ js ": "
                                ++ errorText e])
                end
            | _, _ =>
                (results,
                 errors ++ [js "Issue " ++ decimal (i + 1) ++ js ": "
                            ++ match failure result with
                               | Some m => m
                               | None => undefinedText
                               end])
            end
        | inr e =>
            (results,
             errors ++ [js "Issue " ++ decimal (i + 1) ++ js ": "
                        ++ errorText e])
        end in
      let pauses' :=
        if (i <? total - 1)%nat then pauses ++ [500%Z] else pauses in
      batchLoop total (S i) rest w' results' errors' pauses'
  end.

Definition createBatchIssues (issues : list (Payload * Card)) (w : W)
  : batchOutcome Issue W :=
  let '(results, errors, pauses, w') :=
    batchLoop (length issues) 0 issues w [] [] [] in
  {| answer :=
       {| success := (0 <? length results)%nat;
          data := Some results;
          failure :=
            if (0 <? length errors)%nat
            then Some (decimal (length errors) ++ js " issues failed")
            else None |};
     failures := errors;
     pauses := pauses;
     after := w' |}.

End Batch.

(** [findUser] once the search has answered (lines 87 to 114): an exact
    match of the address first, then a display name that contains the
    query whatever the case of the letters, then the first result. *)
Record JiraUser : Type := {
  accountId : jsstring;
  emailAddress : option jsstring;
  displayName : jsstring
}.

Definition hasEmail (emailOrName : jsstring) (u : JiraUser) : bool :=
  match emailAddress u with
  | Some m => Js.eqb m emailOrName
  | None => false
  end.

Definition nameIncludes (E : GoogleDocs.engine) (emailOrName : jsstring)
    (u : JiraUser) : bool :=
  includes (GoogleDocs.toLowerCase E (displayName u))
    (GoogleDocs.toLowerCase E emailOrName).

Definition findUser (E : GoogleDocs.engine) (emailOrName : jsstring)
    (users : list JiraUser) : ApiResponse JiraUser :=
  match users with
  | [] => Failure (js "No user found matching \q" ++ emailOrName ++ js "\q")
  | first :: _ =>
      match find (hasEmail emailOrName) users with
      | Some user => Success user
      | None =>
          match find (nameIncludes E emailOrName) users with
          | Some user => Success user
          | None => Success first
          end
      end
  end.

End Jira.

(** What the walker does with one entry of an [elements] or [content]
    array: a hole gives the empty text. *)
Definition processItem (o : option GoogleDocs.element)
  : GoogleDocs.walked jsstring :=
  match o with
  | Some e => GoogleDocs.processElement e
  | None => GoogleDocs.Ok []
  end.

(** A text run on its own. *)
Definition textRunOf (s : string) : GoogleDocs.element :=
  GoogleDocs.Element (Some (Some (js s))) None None None None.

(** The order [findMarkdownFiles] sorts by: [a] may stand before [b] when
    it was modified no earlier. *)
Definition newerFirst (cwd : GoogleDocs.node) (a b : jsstring) : Prop :=
  (GoogleDocs.mtimeOf cwd b <= GoogleDocs.mtimeOf cwd a)%Z.

(** *** Further example data *)

(** An operation that always rejects with the same value, and the
    [TypeError] of some engine. *)
Definition rejects (x : Unrestricted.thrown) (n : nat)
  : Unrestricted.attempted unit * nat :=
  (Unrestricted.Throws x, S n).

Definition cannotReadOf (property : string) : error :=
  {| instanceOfError := true; code := None;
     message :=
       Some (Text (js "Cannot read properties of undefined (reading '"
                   ++ js property ++ js "')"));
     response := None; serializable := true |}.

(** A tracker that creates an issue, numbered by the submissions before
    it, for the payload [true] and answers without success for [false];
    and a log line that can be written unless the card is null. *)
Definition mockCreate (n : nat) (payload : bool)
  : (Jira.response nat + error) * nat :=
  (inl {| Jira.success := payload;
          Jira.data := if payload then Some n else None;
          Jira.failure := if payload then None else Some (js "rejected") |},
   S n).

Definition logsUnlessNull (issue : nat) (card : option jsstring)
  : option error :=
  match card with
  | Some _ => None
  | None =>
      Some {| instanceOfError := true; code := None;
              message := Some (Text (js "Cannot read properties of null (reading 'summary')"));
              response := None; serializable := true |}
  end.

(** Two users of whom the second has the address asked for and the first
    a display name that contains it. *)
Definition ana : Jira.JiraUser :=
  {| Jira.accountId := js "1"; Jira.emailAddress := None;
     Jira.displayName := js "Ana@Example.Org (old)" |}.

Definition bia : Jira.JiraUser :=
  {| Jira.accountId := js "2"; Jira.emailAddress := Some (js "ana@example.org");
     Jira.displayName := js "Bia" |}.

(** A disk on which every file holds a headed text. *)
Definition onDisk : Reader.files :=
  {| Reader.readFileSync := fun _ => inl (js "# Spec\n\ntext");
     Reader.basename := fun path _ => path |}.


(* ================================================================== *)
(** * Properties *)
(* ================================================================== *)

Unset Implicit Arguments.

(** Split conjunctions only, then evaluate each part. *)
Ltac conjuncts := repeat match goal with |- _ /\ _ => split end.
Ltac by_evaluation := conjuncts; intros; vm_compute; reflexivity.

Module DoubleFacts.
Import Double.
Local Open Scope Q_scope.

Lemma pow2_pos (z : Z) : 0 < 2 ^ z.
Proof. apply Qpower_0_lt. reflexivity. Qed.

Lemma pow2_plus (a b : Z) : 2 ^ (a + b) == 2 ^ a * 2 ^ b.
Proof. apply Qpower_plus. discriminate. Qed.

Lemma pow2_ge_1 (z : Z) : (0 <= z)%Z -> 1 <= 2 ^ z.
Proof.
  intros H. rewrite <- (Z2Nat.id z H). generalize (Z.to_nat z). clear.
  induction n as [|n IH]; [discriminate|].
  rewrite Nat2Z.inj_succ. unfold Z.succ. rewrite pow2_plus.
  change (2 ^ 1) with 2. nra.
Qed.

Lemma pow2_le (a b : Z) : (a <= b)%Z -> 2 ^ a <= 2 ^ b.
Proof.
  intros H. replace b with (a + (b - a))%Z by lia. rewrite pow2_plus.
  pose proof (pow2_pos a). pose proof (pow2_ge_1 (b - a) ltac:(lia)). nra.
Qed.

Lemma pow2_lt_inv (a b : Z) : 2 ^ a < 2 ^ b -> (a < b)%Z.
Proof.
  intros H. destruct (Z_lt_le_dec a b) as [L|L]; [exact L|].
  apply pow2_le in L. lra.
Qed.

Lemma pow2_inject (n : Z) : (0 <= n)%Z -> inject_Z (2 ^ n) == 2 ^ n.
Proof. intros H. rewrite Zpower_Qpower by exact H. reflexivity. Qed.

Lemma binade_spec q : 0 < q -> 2 ^ binade q <= q /\ q < 2 ^ (binade q + 1).
Proof.
  intros Hq. unfold binade.
  destruct q as [n d]. cbn [Qnum Qden].
  assert (Hn : (0 < n)%Z) by (unfold Qlt in Hq; cbn in Hq; lia).
  set (a := Z.log2 n). set (b := Z.log2 (Zpos d)).
  assert (A : (2 ^ a <= n < 2 ^ (a + 1))%Z).
  { pose proof (Z.log2_spec n Hn). unfold a. now rewrite <- Z.add_1_r in *. }
  assert (B : (2 ^ b <= Zpos d < 2 ^ (b + 1))%Z).
  { pose proof (Z.log2_spec (Zpos d) eq_refl). unfold b.
    now rewrite <- Z.add_1_r in *. }
  assert (Ha : (0 <= a)%Z) by apply Z.log2_nonneg.
  assert (Hb : (0 <= b)%Z) by apply Z.log2_nonneg.
  assert (Q : n # d == inject_Z n / inject_Z (Zpos d)) by apply Qmake_Qdiv.
  assert (Dp : 0 < inject_Z (Zpos d)) by reflexivity.
  assert (U : n # d < 2 ^ (a - b + 1)).
  { rewrite Q. apply Qlt_shift_div_r; [exact Dp|].
    replace (a - b + 1)%Z with ((a + 1) + - b)%Z by lia.
    rewrite pow2_plus.
    assert (X : inject_Z n < 2 ^ (a + 1)).
    { rewrite <- pow2_inject by lia. rewrite <- Zlt_Qlt. lia. }
    assert (Y : 2 ^ b <= inject_Z (Zpos d)).
    { rewrite <- pow2_inject by lia. rewrite <- Zle_Qle. lia. }
    assert (Z1 : 2 ^ (- b) * 2 ^ b == 1).
    { rewrite <- pow2_plus. replace (- b + b)%Z with 0%Z by lia. reflexivity. }
    pose proof (pow2_pos (a + 1)). pose proof (pow2_pos (- b)).
    pose proof (pow2_pos b).
    assert (W : 1 <= 2 ^ (- b) * inject_Z (Zpos d)) by nra.
    nra. }
  assert (L : 2 ^ (a - b - 1) < n # d).
  { rewrite Q. apply Qlt_shift_div_l; [exact Dp|].
    replace (a - b - 1)%Z with (a + - (b + 1))%Z by lia.
    rewrite pow2_plus.
    assert (X : 2 ^ a <= inject_Z n).
    { rewrite <- pow2_inject by lia. rewrite <- Zle_Qle. lia. }
    assert (Y : inject_Z (Zpos d) < 2 ^ (b + 1)).
    { rewrite <- pow2_inject by lia. rewrite <- Zlt_Qlt. lia. }
    assert (Z1 : 2 ^ (- (b + 1)) * 2 ^ (b + 1) == 1).
    { rewrite <- pow2_plus. replace (- (b + 1) + (b + 1))%Z with 0%Z by lia.
      reflexivity. }
    pose proof (pow2_pos a). pose proof (pow2_pos (- (b + 1))).
    pose proof (pow2_pos (b + 1)).
    assert (W : 2 ^ (- (b + 1)) * inject_Z (Zpos d) < 1) by nra.
    nra. }
  destruct (Qle_bool (2 ^ (a - b)) (n # d)) eqn:C.
  - apply Qle_bool_iff in C. split; [exact C|exact U].
  - assert (C' : n # d < 2 ^ (a - b)).
    { apply Qnot_le_lt. intros X. apply Qle_bool_iff in X. congruence. }
    split; [apply Qlt_le_weak; exact L|].
    replace (a - b - 1 + 1)%Z with (a - b)%Z by lia. exact C'.
Qed.

Lemma nearestEven_floor q :
  (Qfloor q <= nearestEven q <= Qfloor q + 1)%Z.
Proof.
  unfold nearestEven. destruct (Qcompare _ _); [destruct (Z.even _)| |]; lia.
Qed.

Lemma nearestEven_mono a b : a <= b -> (nearestEven a <= nearestEven b)%Z.
Proof.
  intros H. pose proof (Qfloor_resp_le _ _ H) as F.
  destruct (Z.eq_dec (Qfloor a) (Qfloor b)) as [E|N].
  - unfold nearestEven. rewrite <- E.
    destruct (Qcompare (a - inject_Z (Qfloor a)) (1 # 2)) eqn:Ca;
      destruct (Qcompare (b - inject_Z (Qfloor a)) (1 # 2)) eqn:Cb;
      try (destruct (Z.even (Qfloor a))); try lia;
      repeat match goal with
             | C : Qcompare _ _ = Eq |- _ => apply (proj2 (Qeq_alt _ _)) in C
             | C : Qcompare _ _ = Lt |- _ => apply (proj2 (Qlt_alt _ _)) in C
             | C : Qcompare _ _ = Gt |- _ => apply (proj2 (Qgt_alt _ _)) in C
             end; lra.
  - pose proof (nearestEven_floor a). pose proof (nearestEven_floor b). lia.
Qed.

Lemma nearestEven_ge n a : inject_Z n <= a -> (n <= nearestEven a)%Z.
Proof.
  intros H. apply Qfloor_resp_le in H. rewrite Qfloor_Z in H.
  pose proof (nearestEven_floor a). lia.
Qed.

Lemma nearestEven_Z n : nearestEven (inject_Z n) = n.
Proof.
  unfold nearestEven. rewrite Qfloor_Z.
  assert (C : Qcompare (inject_Z n - inject_Z n) (1 # 2) = Lt)
    by (rewrite <- Qlt_alt; lra).
  now rewrite C.
Qed.

Lemma nearestEven_le a n : a <= inject_Z n -> (nearestEven a <= n)%Z.
Proof.
  intros H. rewrite <- (nearestEven_Z n). now apply nearestEven_mono.
Qed.

Lemma nearestEven_eq a n : a == inject_Z n -> nearestEven a = n.
Proof.
  intros H. apply Z.le_antisymm.
  - apply nearestEven_le. lra.
  - apply nearestEven_ge. lra.
Qed.

(** The significand of a positive number lies between 2^52 and 2^53. *)
Lemma significand q :
  0 < q ->
  let x := q / 2 ^ (binade q - 52) in
  x * 2 ^ (binade q - 52) == q /\ 2 ^ 52 <= x /\ x < 2 ^ 53.
Proof.
  intros Hq x. destruct (binade_spec q Hq) as [L U].
  pose proof (pow2_pos (binade q - 52)) as P.
  assert (X : x * 2 ^ (binade q - 52) == q).
  { unfold x. field. lra. }
  assert (E1 : 2 ^ binade q == 2 ^ 52 * 2 ^ (binade q - 52)).
  { rewrite <- pow2_plus. now replace (52 + (binade q - 52))%Z with (binade q) by lia. }
  assert (E2 : 2 ^ (binade q + 1) == 2 ^ 53 * 2 ^ (binade q - 52)).
  { rewrite <- pow2_plus.
    now replace (53 + (binade q - 52))%Z with (binade q + 1)%Z by lia. }
  split; [exact X|]. split.
  - apply Qnot_lt_le. intros C.
    assert (x * 2 ^ (binade q - 52) < 2 ^ 52 * 2 ^ (binade q - 52)) by nra.
    lra.
  - apply Qnot_le_lt. intros C.
    assert (2 ^ 53 * 2 ^ (binade q - 52) <= x * 2 ^ (binade q - 52)) by nra.
    lra.
Qed.

Lemma nearest_bounds q :
  0 < q -> 2 ^ binade q <= nearest q /\ nearest q <= 2 ^ (binade q + 1).
Proof.
  intros Hq. destruct (significand q Hq) as (X & L & U). unfold nearest.
  set (x := q / 2 ^ (binade q - 52)) in *.
  pose proof (pow2_pos (binade q - 52)) as P.
  assert (A : (2 ^ 52 <= nearestEven x)%Z).
  { apply nearestEven_ge. rewrite pow2_inject by lia. exact L. }
  assert (B : (nearestEven x <= 2 ^ 53)%Z).
  { apply nearestEven_le. rewrite pow2_inject by lia. lra. }
  rewrite Zle_Qle in A, B. rewrite pow2_inject in A, B by lia.
  replace (binade q) with (52 + (binade q - 52))%Z at 1 by lia.
  replace (binade q + 1)%Z with (53 + (binade q - 52))%Z by lia.
  rewrite !pow2_plus. split; nra.
Qed.

Lemma nearest_mono a b : 0 < a -> a <= b -> nearest a <= nearest b.
Proof.
  intros Ha H. assert (Hb : 0 < b) by lra.
  destruct (binade_spec a Ha) as [La Ua]. destruct (binade_spec b Hb) as [Lb Ub].
  assert (E : (binade a <= binade b)%Z).
  { assert (2 ^ binade a < 2 ^ (binade b + 1)) by lra.
    apply pow2_lt_inv in H0. lia. }
  destruct (Z.eq_dec (binade a) (binade b)) as [Eq|Ne].
  - destruct (significand a Ha) as (Xa & _). destruct (significand b Hb) as (Xb & _).
    unfold nearest. rewrite <- Eq in *.
    pose proof (pow2_pos (binade a - 52)) as P.
    assert (M : a / 2 ^ (binade a - 52) <= b / 2 ^ (binade a - 52)).
    { apply Qnot_lt_le. intros C.
      assert (b / 2 ^ (binade a - 52) * 2 ^ (binade a - 52)
              < a / 2 ^ (binade a - 52) * 2 ^ (binade a - 52)) by nra.
      lra. }
    apply nearestEven_mono in M. rewrite Zle_Qle in M. nra.
  - destruct (nearest_bounds a Ha) as [_ U]. destruct (nearest_bounds b Hb) as [L _].
    assert (2 ^ (binade a + 1) <= 2 ^ binade b) by (apply pow2_le; lia).
    lra.
Qed.

Lemma nearest_pos q : 0 < q -> 0 < nearest q.
Proof.
  intros Hq. destruct (nearest_bounds q Hq) as [L _].
  pose proof (pow2_pos (binade q)). lra.
Qed.

Lemma round_pos q : 0 < q -> round q = nearest q.
Proof.
  destruct q as [[|n|n] d]; unfold Qlt; cbn; intros H; try lia. reflexivity.
Qed.

Lemma round_zero q : q == 0 -> round q = 0.
Proof.
  destruct q as [[|n|n] d]; unfold Qeq; cbn; intros H; try lia. reflexivity.
Qed.

Lemma round_nonneg q : 0 <= q -> 0 <= round q.
Proof.
  intros H. destruct (Qlt_le_dec 0 q) as [P|Z].
  - rewrite round_pos by exact P. apply Qlt_le_weak. now apply nearest_pos.
  - rewrite round_zero by lra. lra.
Qed.

(** Rounding keeps the order. *)
Lemma round_mono a b : 0 <= a -> a <= b -> round a <= round b.
Proof.
  intros Ha H. destruct (Qlt_le_dec 0 a) as [P|Z].
  - rewrite (round_pos a P), (round_pos b) by lra. now apply nearest_mono.
  - rewrite (round_zero a) by lra. apply round_nonneg. lra.
Qed.

Lemma round_eq a b : 0 <= a -> a == b -> round a == round b.
Proof.
  intros Ha H. apply Qle_antisym; apply round_mono; lra.
Qed.

(** Integers below 2^53 are doubles. *)
Lemma round_Z z : (0 <= z < 2 ^ 53)%Z -> round (inject_Z z) == inject_Z z.
Proof.
  intros [H0 H1]. destruct (Z.eq_dec z 0) as [->|N]; [reflexivity|].
  assert (Hq : 0 < inject_Z z).
  { change 0 with (inject_Z 0). rewrite <- Zlt_Qlt. lia. }
  rewrite round_pos by exact Hq. unfold nearest.
  destruct (binade_spec _ Hq) as [L _].
  destruct (significand _ Hq) as (X & _).
  set (e := binade (inject_Z z)) in *.
  assert (E : (e < 53)%Z).
  { apply pow2_lt_inv. eapply Qle_lt_trans; [exact L|].
    rewrite <- pow2_inject by lia. rewrite <- Zlt_Qlt. exact H1. }
  assert (I : inject_Z z / 2 ^ (e - 52) == inject_Z (z * 2 ^ (52 - e))).
  { rewrite inject_Z_mult, pow2_inject by lia.
    assert (2 ^ (52 - e) * 2 ^ (e - 52) == 1).
    { rewrite <- pow2_plus. now replace (52 - e + (e - 52))%Z with 0%Z by lia. }
    pose proof (pow2_pos (e - 52)). field_simplify_eq; [|lra].
    rewrite Qmult_comm in X. nra. }
  rewrite (nearestEven_eq _ _ I). rewrite <- I. exact X.
Qed.

End DoubleFacts.

Module GepetoFacts.
Import Gepeto Scenarios.

Lemma parseCards_elements i l cards :
  parseCards i l = inl cards ->
  Forall2 (fun v c => exists j, parseCard j v = inl c) l cards.
Proof.
  revert i cards. induction l as [|v l IH]; intros i cards H; simpl in H.
  - inversion H. constructor.
  - destruct (parseCard i v) as [c|e] eqn:Ec;
      destruct (parseCards (S i) l) as [cs|es] eqn:El; try discriminate.
    inversion H; subst. constructor; eauto.
Qed.

Lemma parseCards_bad_element v es l2 : forall l1 i,
  parseCard (i + length l1) v = inr es ->
  exists issues,
    parseCards i (l1 ++ v :: l2) = inr issues /\ incl es issues.
Proof.
  induction l1 as [|u l1 IH]; intros i H; cbn [app parseCards].
  - cbn [length] in H. rewrite Nat.add_0_r in H. rewrite H.
    destruct (parseCards (S i) l2) as [cs|es'].
    + exists es. split; [reflexivity|apply incl_refl].
    + exists (es ++ es'). split; [reflexivity|apply incl_appl, incl_refl].
  - cbn [length] in H. rewrite Nat.add_succ_r in H.
    destruct (IH (S i) H) as (issues & E & Hin). rewrite E.
    destruct (parseCard i u) as [c|e].
    + exists issues. split; [reflexivity|exact Hin].
    + exists (e ++ issues). split; [reflexivity|now apply incl_appr].
Qed.

Lemma zStringMax_length n v s : zStringMax n v = Some s -> length s <= n.
Proof.
  unfold zStringMax. destruct (zString v) as [t|]; [|discriminate].
  destruct (length t <=? n) eqn:L; [|discriminate].
  intros H. inversion H; subst. now apply Nat.leb_le.
Qed.

Lemma parseCard_summary i v c :
  parseCard i v = inl c -> length (summary c) <= 80.
Proof.
  unfold parseCard. destruct v; try discriminate.
  destruct (zStringMax 80 (field members "summary")) as [a1|] eqn:E1;
    [|discriminate].
  intros H.
  repeat match type of H with
         | context [match ?x with _ => _ end] => destruct x; try discriminate
         end.
  inversion H; subst. simpl. eapply zStringMax_length; eauto.
Qed.

Lemma parseAndValidate_elements s cards :
  parseAndValidate s = inl cards ->
  exists arr, parse s = Some (JArr arr)
    /\ Forall2 (fun v c => exists j, parseCard j v = inl c) arr cards.
Proof.
  unfold parseAndValidate. destruct (parse s) as [v|]; [|discriminate].
  destruct (BDDCardsArraySchema v) as [cs|es] eqn:Ev; [|discriminate].
  intros H. inversion H; subst. destruct v; try discriminate.
  exists elems. split; [reflexivity|]. eapply parseCards_elements; eauto.
Qed.

Lemma parseAndValidate_error s e :
  parseAndValidate s = inr e ->
  e = SyntaxError s
  \/ exists v issues, parse s = Some v /\ e = ZodError v issues.
Proof.
  unfold parseAndValidate. destruct (parse s) as [v|].
  - destruct (BDDCardsArraySchema v); [discriminate|].
    intros H; inversion H; subst. right. eauto.
  - intros H; inversion H; subst. now left.
Qed.

(** C5. The reply made of the prose line and the json fence around
    [[{summary: "Test", description: "d", acceptanceCriteria: ["a"],}]]
    goes through every stage of the recovery: the fence yields the array
    text, the strict parse of it fails, [attemptJsonFix] quotes the keys
    and drops the trailing comma, and the second parse and the schema give
    exactly one card, whose summary is Test. *)
Theorem repair_scenario (M : messages) :
  jsonString reply = candidate
  /\ parseAndValidate candidate = inr (SyntaxError candidate)
  /\ attemptJsonFix candidate = repaired
  /\ generateBDDCards M reply = Success [testCard]
  /\ summary testCard = js "Test".
Proof. by_evaluation. Qed.

(** C1, as stated, fails.  The three-card batch parses as a JSON array
    whose first and third elements satisfy the schema and whose second has
    a summary of 85 characters; the call fails as a whole and returns no
    card.  And a card with an empty [acceptanceCriteria] is not flagged: it
    passes the schema and is returned. *)
Lemma batch_with_long_summary_fails :
  parse (jsonString batch) = Some (JArr [firstJson; longJson; thirdJson])
  /\ parseCard 0 firstJson = inl (card "First" "d1" [js "a"])
  /\ parseCard 2 thirdJson = inl (card "Third" "d3" [js "c"])
  /\ length longSummary = 85
  /\ (forall M, generateBDDCards M batch
                = Failure (zodErrorMessage M
                             (JArr [firstJson; longJson; thirdJson])
                             [BadField 1 (js "summary")]))
  /\ (forall M, generateBDDCards M bare = Success [card "Only" "d" []]).
Proof. by_evaluation. Qed.

Lemma recover_success M s cards :
  recover M s = Success cards ->
  exists arr,
    (parse s = Some (JArr arr) \/ parse (attemptJsonFix s) = Some (JArr arr))
    /\ Forall2 (fun v c => exists j, parseCard j v = inl c) arr cards.
Proof.
  unfold recover. destruct (parseAndValidate s) as [cs|e0] eqn:E1.
  - intros H; inversion H; subst.
    destruct (parseAndValidate_elements _ _ E1) as (arr & Hp & Hf). eauto.
  - cbv zeta.
    destruct (parseAndValidate (attemptJsonFix s)) as [cs|e] eqn:E2;
      [|discriminate].
    intros H; inversion H; subst.
    destruct (parseAndValidate_elements _ _ E2) as (arr & Hp & Hf). eauto.
Qed.

Lemma recover_rejected M s e0 :
  parseAndValidate s = inr e0 ->
  recover M s = respond M (parseAndValidate (attemptJsonFix s)).
Proof. intros H0. unfold recover. now rewrite H0. Qed.

Lemma generateBDDCards_recover M content :
  content <> [] -> generateBDDCards M content = recover M (jsonString content).
Proof. destruct content; [congruence|reflexivity]. Qed.

Lemma recover_pinned M s cards :
  recover M s = Success cards ->
  exists arr,
    ((parse s = Some (JArr arr) /\ parseAndValidate s = inl cards)
     \/ (exists e0,
           parseAndValidate s = inr e0
           /\ parse (attemptJsonFix s) = Some (JArr arr)
           /\ parseAndValidate (attemptJsonFix s) = inl cards))
    /\ Forall2 (fun v c => exists j, parseCard j v = inl c) arr cards.
Proof.
  unfold recover. destruct (parseAndValidate s) as [cs|e0] eqn:E1.
  - intros H; inversion H; subst.
    destruct (parseAndValidate_elements _ _ E1) as (arr & Hp & Hf).
    exists arr. split; [left; split; [exact Hp|reflexivity]|exact Hf].
  - cbv zeta.
    destruct (parseAndValidate (attemptJsonFix s)) as [cs|e] eqn:E2;
      [|discriminate].
    intros H; inversion H; subst.
    destruct (parseAndValidate_elements _ _ E2) as (arr & Hp & Hf).
    exists arr. split; [right; exists e0; auto|exact Hf].
Qed.

Lemma bare_card_passes i s d :
  length s <= 80 ->
  parseCard i (cardJson s d [])
  = inl {| summary := s; description := d; acceptanceCriteria := [];
           labels := None; priority := None; storyPoints := None;
           component := None; epicLink := None; linkedIssues := None |}.
Proof.
  intros L. unfold parseCard, cardJson.
  set (ms := [(js "summary", JStr s); (js "description", JStr d);
              (js "acceptanceCriteria", JArr [])]).
  change (field ms "summary") with (Some (JStr s)).
  change (field ms "description") with (Some (JStr d)).
  change (field ms "acceptanceCriteria") with (Some (JArr [])).
  change (field ms "labels") with (@None json).
  change (field ms "priority") with (@None json).
  change (field ms "storyPoints") with (@None json).
  change (field ms "component") with (@None json).
  change (field ms "epicLink") with (@None json).
  change (field ms "linkedIssues") with (@None json).
  cbn [zStringMax zString zStringArray zStrings zOptional].
  replace (length s <=? 80) with true by (symmetry; now apply Nat.leb_le).
  reflexivity.
Qed.

(** The repair works on the text, strings included: in this batch the
    second summary has 85 characters, the first attempt rejects the array,
    and the repair drops the five commas before closing braces inside the
    summary, so that the repaired text passes with a summary of 80
    characters and the call returns three cards. *)
Lemma repair_can_shorten_summary M :
  length commaSummary = 85
  /\ (exists e0, parseAndValidate (jsonString commaBatch) = inr e0)
  /\ exists c1 c2 c3,
       generateBDDCards M commaBatch = Success [c1; c2; c3]
       /\ length (summary c2) = 80.
Proof.
  split; [reflexivity|]. split.
  - eexists. vm_compute. reflexivity.
  - eexists. eexists. eexists. split; vm_compute; reflexivity.
Qed.

(** C1, amended.  The array is validated as a whole.  A successful call
    returns one card for every element of the array it parsed, the array
    of the candidate text when the first attempt accepts it and otherwise,
    the first attempt having thrown, the array of the repaired text; each
    element has passed the schema, so nothing is left out or flagged and
    every returned summary has at most 80 characters.  When an element of
    the candidate array, wherever it stands, fails the schema, the first
    attempt yields no card and the call ends as parsing and validating the
    repaired text ends.  And an object with a summary of at most 80
    characters, a description and an empty array of acceptance criteria
    passes the schema. *)
Theorem success_covers_every_element M :
  (forall content cards,
     generateBDDCards M content = Success cards ->
     exists arr,
       ((parse (jsonString content) = Some (JArr arr)
         /\ parseAndValidate (jsonString content) = inl cards)
        \/ (exists e0,
              parseAndValidate (jsonString content) = inr e0
              /\ parse (attemptJsonFix (jsonString content)) = Some (JArr arr)
              /\ parseAndValidate (attemptJsonFix (jsonString content))
                 = inl cards))
       /\ Forall2 (fun v c => exists j, parseCard j v = inl c) arr cards
       /\ Forall (fun c => length (summary c) <= 80) cards)
  /\ (forall content l1 v l2 es,
        parse (jsonString content) = Some (JArr (l1 ++ v :: l2)) ->
        parseCard (length l1) v = inr es ->
        (forall cards, parseAndValidate (jsonString content) <> inl cards)
        /\ generateBDDCards M content
           = respond M (parseAndValidate (attemptJsonFix (jsonString content))))
  /\ (forall i s d,
        length s <= 80 ->
        parseCard i (cardJson s d [])
        = inl {| summary := s; description := d; acceptanceCriteria := [];
                 labels := None; priority := None; storyPoints := None;
                 component := None; epicLink := None; linkedIssues := None |}).
Proof.
  split; [|split].
  - intros content cards H.
    assert (Hne : content <> []) by (destruct content; discriminate).
    rewrite (generateBDDCards_recover M _ Hne) in H.
    destruct (recover_pinned _ _ _ H) as (arr & Hp & Hf).
    exists arr. split; [exact Hp|]. split; [exact Hf|].
    clear - Hf. induction Hf as [|v c l l' (j & Hj) _ IH]; constructor; trivial.
    eapply parseCard_summary; eauto.
  - intros content l1 v l2 es Hp Hv.
    assert (Hne : content <> []).
    { intros ->. vm_compute in Hp. discriminate. }
    destruct (parseCards_bad_element v es l2 l1 0 Hv) as (issues & E & _).
    assert (R : parseAndValidate (jsonString content)
                = inr (ZodError (JArr (l1 ++ v :: l2)) issues)).
    { unfold parseAndValidate. rewrite Hp. cbn [BDDCardsArraySchema].
      now rewrite E. }
    split; [intros cards; rewrite R; discriminate|].
    rewrite (generateBDDCards_recover M _ Hne).
    now apply recover_rejected with (e0 := ZodError (JArr (l1 ++ v :: l2)) issues).
  - apply bare_card_passes.
Qed.

Lemma success_covers_every_element_witness :
  (exists arr,
     ((parse (jsonString reply) = Some (JArr arr)
       /\ parseAndValidate (jsonString reply) = inl [testCard])
      \/ (exists e0,
            parseAndValidate (jsonString reply) = inr e0
            /\ parse (attemptJsonFix (jsonString reply)) = Some (JArr arr)
            /\ parseAndValidate (attemptJsonFix (jsonString reply))
               = inl [testCard]))
     /\ Forall2 (fun v c => exists j, parseCard j v = inl c) arr [testCard]
     /\ Forall (fun c => length (summary c) <= 80) [testCard])
  /\ ((forall cards, parseAndValidate (jsonString batch) <> inl cards)
      /\ generateBDDCards plainMessages batch
         = respond plainMessages
             (parseAndValidate (attemptJsonFix (jsonString batch))))
  /\ parseCard 0 (cardJson (js "Only") (js "d") []) = inl (card "Only" "d" []).
Proof.
  destruct (success_covers_every_element plainMessages) as (A & B & C).
  split; [|split].
  - apply (A reply [testCard]). vm_compute. reflexivity.
  - apply (B batch [firstJson] longJson [thirdJson] [BadField 1 (js "summary")]);
      vm_compute; reflexivity.
  - apply (C 0 (js "Only") (js "d")). vm_compute. lia.
Defined.

(** When the first attempt is rejected, whatever the reason (a syntax
    error, or one element failing the schema), the outcome is that of the
    repaired text. *)
Lemma rejected_batch_goes_to_repair M content e0 :
  content <> [] ->
  parseAndValidate (jsonString content) = inr e0 ->
  generateBDDCards M content =
  respond M (parseAndValidate (attemptJsonFix (jsonString content))).
Proof.
  intros Hne H0. rewrite (generateBDDCards_recover M _ Hne).
  now apply recover_rejected with (e0 := e0).
Qed.

(** C4, as stated, fails.  The replies [x[] and [y[] have different
    candidate texts, both are repaired to the same text, which does not
    parse, and both calls return the same failure: the message of the
    syntax error on the repaired text.  Nothing in the result tells the two
    candidates apart. *)
Lemma failure_forgets_candidate :
  jsonString brokenX <> jsonString brokenY
  /\ parseAndValidate (attemptJsonFix (jsonString brokenX))
     = inr (SyntaxError (js "["))
  /\ parseAndValidate (attemptJsonFix (jsonString brokenY))
     = inr (SyntaxError (js "["))
  /\ (forall M, generateBDDCards M brokenX
                = Failure (syntaxErrorMessage M (js "[")))
  /\ (forall M, generateBDDCards M brokenY
                = Failure (syntaxErrorMessage M (js "["))).
Proof.
  split; [vm_compute; discriminate|]. by_evaluation.
Qed.

(** C4, amended.  When the candidate is rejected and the repaired text is
    rejected too, the call returns the failure result whose only content
    is the message of the error raised on the repaired text: the syntax
    error of [JSON.parse] on it, or the schema error on its parsed value.
    No exception leaves the call. *)
Theorem failed_repair_returns_failure M content e0 e :
  content <> [] ->
  parseAndValidate (jsonString content) = inr e0 ->
  parseAndValidate (attemptJsonFix (jsonString content)) = inr e ->
  generateBDDCards M content = Failure (messageOf M e)
  /\ (e = SyntaxError (attemptJsonFix (jsonString content))
      \/ exists v issues,
           parse (attemptJsonFix (jsonString content)) = Some v
           /\ e = ZodError v issues).
Proof.
  intros Hne H0 H1. split.
  - rewrite (rejected_batch_goes_to_repair M _ _ Hne H0). now rewrite H1.
  - now apply parseAndValidate_error.
Qed.

Lemma failed_repair_returns_failure_witness :
  generateBDDCards plainMessages brokenX
  = Failure (messageOf plainMessages (SyntaxError (js "[")))
  /\ (SyntaxError (js "[") = SyntaxError (attemptJsonFix (jsonString brokenX))
      \/ exists v issues,
           parse (attemptJsonFix (jsonString brokenX)) = Some v
           /\ SyntaxError (js "[") = ZodError v issues).
Proof.
  apply (@failed_repair_returns_failure plainMessages brokenX
           (SyntaxError brokenX) (SyntaxError (js "["))).
  - vm_compute. discriminate.
  - vm_compute. reflexivity.
  - vm_compute. reflexivity.
Defined.

End GepetoFacts.

Module RetryFacts.
Import RetryManager Scenarios.
Local Open Scope Q_scope.

Section Loop.
Variables T W : Type.
Variable operation : W -> (T + error) * W.
Variable random : Z -> Q.
Variable opts : Options.

Lemma loop_past_limit fuel attempt lastError w n slept :
  ~ inject_Z attempt <= optMaxAttempts opts ->
  loop operation random opts fuel attempt lastError w n slept
  = Some {| outcome := ThrownAfterLoop lastError; calls := n;
            sleeps := slept; world := w |}.
Proof.
  intros H.
  assert (E : Qle_bool (inject_Z attempt) (optMaxAttempts opts) = false).
  { destruct (Qle_bool _ _) eqn:B; trivial. apply Qle_bool_iff in B. tauto. }
  destruct fuel; simpl; now rewrite E.
Qed.

Lemma floor_below_next attempt :
  (Qfloor (optMaxAttempts opts) < attempt)%Z ->
  ~ inject_Z attempt <= optMaxAttempts opts.
Proof.
  intros H L. apply Qfloor_resp_le in L. rewrite Qfloor_Z in L. lia.
Qed.

(** The fuel [execute] starts with is never exhausted. *)
Lemma loop_total fuel : forall attempt lastError w n slept,
  (Qfloor (optMaxAttempts opts) - attempt + 1 <= Z.of_nat fuel)%Z ->
  exists r, loop operation random opts fuel attempt lastError w n slept = Some r.
Proof.
  induction fuel as [|fuel IH]; intros attempt lastError w n slept Hf.
  - rewrite loop_past_limit; [eauto|]. apply floor_below_next. lia.
  - simpl. destruct (Qle_bool _ _); [|eauto].
    destruct (operation w) as [[v|e] w']; [eauto|].
    destruct (_ || _); [eauto|]. apply IH. lia.
Qed.


End Loop.

Lemma execute_total T W (operation : W -> (T + error) * W) random options w :
  exists r, execute operation random options w = Some r.
Proof.
  unfold execute, run, iterations. apply loop_total. lia.
Qed.

(** C3. With the default options, and whatever retry condition is in
    force: if every invocation of the operation throws an error the
    condition accepts, [execute] invokes it exactly three times, sleeping
    twice, and throws the error of the third invocation itself; and if the
    first invocation throws an error the condition rejects, [execute]
    throws that error after this single invocation, without sleeping. *)
Theorem exhaustion_rethrows_last_error
    T W (operation : W -> (T + error) * W) random rc w :
  let opts := merge (withCondition rc) in
  ((forall w', exists e,
       fst (operation w') = inr e /\ optRetryCondition opts e = true) ->
   exists e1 w1 e2 w2 e3 w3,
     operation w = (inr e1, w1)
     /\ operation w1 = (inr e2, w2)
     /\ operation w2 = (inr e3, w3)
     /\ execute operation random (withCondition rc) w
        = Some {| outcome := ThrownInLoop e3; calls := 3;
                  sleeps := [finalDelay opts 1 (random 1%Z) e1;
                             finalDelay opts 2 (random 2%Z) e2];
                  world := w3 |})
  /\ (forall e w1,
        operation w = (inr e, w1) ->
        optRetryCondition opts e = false ->
        execute operation random (withCondition rc) w
        = Some {| outcome := ThrownInLoop e; calls := 1; sleeps := [];
                  world := w1 |}).
Proof.
  intros opts. split.
  - intros Hall.
    destruct (Hall w) as (e1 & H1 & A1).
    destruct (operation w) as [r1 w1] eqn:O1. simpl in H1. subst r1.
    destruct (Hall w1) as (e2 & H2 & A2).
    destruct (operation w1) as [r2 w2] eqn:O2. simpl in H2. subst r2.
    destruct (Hall w2) as (e3 & H3 & A3).
    destruct (operation w2) as [r3 w3] eqn:O3. simpl in H3. subst r3.
    exists e1, w1, e2, w2, e3, w3.
    split; [reflexivity|]. split; [exact O2|]. split; [exact O3|].
    change (orDefault rc defaultRetryCondition e1 = true) in A1.
    change (orDefault rc defaultRetryCondition e2 = true) in A2.
    unfold execute, run, iterations. simpl.
    rewrite O1. simpl. rewrite A1. simpl.
    rewrite O2. simpl. rewrite A2. simpl.
    rewrite O3. reflexivity.
  - intros e w1 O1 R.
    change (orDefault rc defaultRetryCondition e = false) in R.
    unfold execute, run, iterations. simpl.
    rewrite O1. simpl. rewrite R. reflexivity.
Qed.

Lemma exhaustion_rethrows_last_error_witness :
  execute (alwaysThrows connectionReset) halfJitter (withCondition None) 0%nat
  = Some {| outcome := ThrownInLoop connectionReset; calls := 3;
            sleeps := [finalDelay DEFAULT_OPTIONS 1 (1 # 2) connectionReset;
                       finalDelay DEFAULT_OPTIONS 2 (1 # 2) connectionReset];
            world := 3%nat |}
  /\ execute (alwaysThrows notFound) halfJitter (withCondition None) 0%nat
     = Some {| outcome := ThrownInLoop notFound; calls := 1; sleeps := [];
               world := 1%nat |}.
Proof.
  split.
  - destruct (proj1 (exhaustion_rethrows_last_error unit nat
                       (alwaysThrows connectionReset) halfJitter None 0%nat))
      as (e1 & w1 & e2 & w2 & e3 & w3 & O1 & O2 & O3 & H).
    + intros w'. exists connectionReset. split; reflexivity.
    + inversion O1; subst. inversion O2; subst. inversion O3; subst. exact H.
  - apply (proj2 (exhaustion_rethrows_last_error unit nat
                    (alwaysThrows notFound) halfJitter None 0%nat));
      reflexivity.
Defined.




Lemma power_of_two_positive (z : Z) : 0 < 2 ^ z.
Proof. apply Qpower_0_lt. reflexivity. Qed.

(** A double below one is at most [belowOne]. *)
Lemma double_below_one u :
  0 <= u -> u < 1 -> Double.round u == u -> u <= belowOne.
Proof.
  intros H0 H1 R.
  assert (B : belowOne == 1 - 2 ^ (-53)) by reflexivity.
  assert (P53 : 2 ^ (-53) * 2 ^ 53 == 1) by reflexivity.
  destruct (Qlt_le_dec u (1 # 2)) as [S|S].
  - assert ((1 # 2) <= belowOne) by (vm_compute; discriminate). lra.
  - assert (Hu : 0 < u) by lra.
    rewrite (DoubleFacts.round_pos u Hu) in R. unfold Double.nearest in R.
    destruct (DoubleFacts.binade_spec u Hu) as [L U].
    assert (E : Double.binade u = (-1)%Z).
    { assert (A : 2 ^ Double.binade u < 2 ^ 0) by (change (2 ^ 0) with 1; lra).
      apply DoubleFacts.pow2_lt_inv in A.
      assert (C : 2 ^ (-1) < 2 ^ (Double.binade u + 1))
        by (change (2 ^ (-1)) with (1 # 2); lra).
      apply DoubleFacts.pow2_lt_inv in C. lia. }
    rewrite E in R. change (-1 - 52)%Z with (-53)%Z in R.
    set (n := Double.nearestEven (u / 2 ^ (-53))) in *.
    assert (N : (n < 2 ^ 53)%Z).
    { rewrite Zlt_Qlt. rewrite DoubleFacts.pow2_inject by lia.
      pose proof (DoubleFacts.pow2_pos (-53)). nra. }
    assert (N' : inject_Z n <= 2 ^ 53 - 1).
    { rewrite <- DoubleFacts.pow2_inject by lia.
      change 1 with (inject_Z 1). unfold Qminus.
      rewrite <- inject_Z_opp, <- inject_Z_plus, <- Zle_Qle. lia. }
    pose proof (DoubleFacts.pow2_pos (-53)). nra.
Qed.

(** The delay of the default settings before attempt [k]: the capped
    power, one of five doubles. *)
Lemma backoff_default m rc (k : Z) :
  (2 <= k)%Z ->
  let d := backoffDelay (merge (defaultDelays m rc)) (k - 1) in
  d == Qmin (2 ^ (k - 2) * 1000) 10000
  /\ (d == 1000 \/ d == 2000 \/ d == 4000 \/ d == 8000 \/ d == 10000).
Proof.
  intros Hk d.
  destruct (Z_lt_le_dec k 6) as [S|S].
  - assert (C : k = 2%Z \/ k = 3%Z \/ k = 4%Z \/ k = 5%Z) by lia.
    destruct C as [ -> | [ -> | [ -> | -> ] ] ];
      (split; [vm_compute; reflexivity|]).
    + left. reflexivity.
    + right. left. reflexivity.
    + right. right. left. reflexivity.
    + right. right. right. left. reflexivity.
  - assert (P : 2 ^ 4 <= 2 ^ (k - 2)) by (apply DoubleFacts.pow2_le; lia).
    assert (D : d == 10000).
    { unfold d, backoffDelay.
      change (optBaseDelay (merge (defaultDelays m rc))) with 1000.
      change (optBackoffFactor (merge (defaultDelays m rc))) with 2.
      change (optMaxDelay (merge (defaultDelays m rc))) with 10000.
      replace (k - 1 - 1)%Z with (k - 2)%Z by lia.
      apply Q.min_r.
      assert (R1 : Double.round (2 ^ 4) <= Double.round (2 ^ (k - 2)))
        by (apply DoubleFacts.round_mono; [discriminate|exact P]).
      assert (E1 : Double.round (2 ^ 4) == 16) by reflexivity.
      assert (R2 : Double.round 16000
                   <= Double.round (1000 * Double.round (2 ^ (k - 2))))
        by (apply DoubleFacts.round_mono; [discriminate|lra]).
      assert (E2 : Double.round 16000 == 16000) by reflexivity.
      lra. }
    split.
    + rewrite D. symmetry. apply Q.min_r. change (2 ^ 4) with 16 in P. lra.
    + right. right. right. right. exact D.
Qed.

(** The jittered delay is at least the delay and grows with the sample. *)
Lemma jitter_bounds delay d u v :
  delay == d -> 0 < d -> Double.round d == d -> 0 <= u -> u <= v ->
  d <= Double.round (delay + Double.round (Double.round (u * tenth) * delay))
  /\ Double.round (delay + Double.round (Double.round (u * tenth) * delay))
     <= Double.round (d + Double.round (Double.round (v * tenth) * d)).
Proof.
  intros E Hd Rd H0 Huv.
  assert (T : 0 < tenth) by reflexivity.
  assert (J0 : 0 <= Double.round (u * tenth))
    by (apply DoubleFacts.round_nonneg; nra).
  assert (J1 : Double.round (u * tenth) <= Double.round (v * tenth))
    by (apply DoubleFacts.round_mono; nra).
  assert (K0 : 0 <= Double.round (Double.round (u * tenth) * delay))
    by (apply DoubleFacts.round_nonneg; nra).
  assert (K1 : Double.round (Double.round (u * tenth) * delay)
               <= Double.round (Double.round (v * tenth) * d))
    by (apply DoubleFacts.round_mono; nra).
  split.
  - rewrite <- Rd at 1. apply DoubleFacts.round_mono; lra.
  - apply DoubleFacts.round_mono; lra.
Qed.

Lemma capped_interval m rc (k : Z) (u v bound : Q) :
  (2 <= k)%Z -> 0 <= u -> u <= v ->
  (forall d, In d [1000; 2000; 4000; 8000; 10000] ->
     Double.round (d + Double.round (Double.round (v * tenth) * d))
     <= bound * d) ->
  Qmin (2 ^ (k - 2) * 1000) 10000
    <= totalDelay (merge (defaultDelays m rc)) (k - 1) u
  /\ totalDelay (merge (defaultDelays m rc)) (k - 1) u
       <= bound * Qmin (2 ^ (k - 2) * 1000) 10000.
Proof.
  intros Hk H0 Huv Hb.
  destruct (backoff_default m rc k Hk) as [B C].
  unfold totalDelay. cbv zeta.
  set (delay := backoffDelay (merge (defaultDelays m rc)) (k - 1)) in *.
  rewrite <- B.
  assert (X : forall d, In d [1000; 2000; 4000; 8000; 10000] ->
                Double.round d == d -> 0 < d -> delay == d ->
                delay <= Double.round
                           (delay + Double.round (Double.round (u * tenth) * delay))
                /\ Double.round
                     (delay + Double.round (Double.round (u * tenth) * delay))
                   <= bound * delay).
  { intros d Hin Rd Pd E.
    destruct (jitter_bounds delay d u v E Pd Rd H0 Huv) as [L U].
    specialize (Hb d Hin).
    assert (M : bound * delay == bound * d) by (rewrite E; reflexivity).
    split; lra. }
  destruct C as [E|[E|[E|[E|E]]]].
  - apply (X 1000); [cbn; tauto|reflexivity|reflexivity|exact E].
  - apply (X 2000); [cbn; tauto|reflexivity|reflexivity|exact E].
  - apply (X 4000); [cbn; tauto|reflexivity|reflexivity|exact E].
  - apply (X 8000); [cbn; tauto|reflexivity|reflexivity|exact E].
  - apply (X 10000); [cbn; tauto|reflexivity|reflexivity|exact E].
Qed.

(** For the largest sample the jittered delay is exactly 1.1 times each of
    the five delays. *)
Lemma largest_jitter d :
  In d [1000; 2000; 4000; 8000; 10000] ->
  Double.round (d + Double.round (Double.round (belowOne * tenth) * d))
  <= (11 # 10) * d.
Proof.
  intros H. cbn [In] in H.
  destruct H as [<-|[<-|[<-|[<-|[<-|[]]]]]]; vm_compute; discriminate.
Qed.

(** C6, as stated, fails at both ends.  The lower bound of the interval
    is not capped: with six attempts allowed and the delay settings at
    their defaults, the delay slept before attempt 6 is 10000 ms, below
    2^4 * 1000.  And the upper end is reached: for the largest sample
    below one the delay before attempt 2 is exactly 1100 ms, 1.1 times
    1000, so the interval is not open there. *)
Lemma cap_breaks_lower_bound :
  (exists r d,
     execute (alwaysThrows connectionReset) noJitter (withMaxAttempts 6) 0%nat
     = Some r
     /\ calls r = 6%nat
     /\ nth_error (sleeps r) 4 = Some (Some d)
     /\ d == 10000
     /\ ~ 2 ^ (6 - 2) * 1000 <= d)
  /\ 0 <= belowOne /\ belowOne < 1 /\ Double.round belowOne == belowOne
  /\ totalDelay DEFAULT_OPTIONS (2 - 1) belowOne
     == (11 # 10) * Qmin (2 ^ (2 - 2) * 1000) 10000.
Proof.
  split.
  - eexists. eexists. split; [vm_compute; reflexivity|].
    split; [reflexivity|]. split; [reflexivity|].
    split; [reflexivity|]. intros H. vm_compute in H. now apply H.
  - split; [discriminate|]. split; [reflexivity|].
    split; vm_compute; reflexivity.
Qed.

Lemma retry_after_exact r :
  (0 <= r < 2 ^ 43)%Z ->
  Double.round (Double.round (inject_Z r) * 1000) == inject_Z r * 1000.
Proof.
  intros H.
  assert (R1 : Double.round (inject_Z r) == inject_Z r)
    by (apply DoubleFacts.round_Z; lia).
  assert (P : 0 <= inject_Z r)
    by (change 0 with (inject_Z 0); rewrite <- Zle_Qle; lia).
  assert (E : Double.round (inject_Z r) * 1000 == inject_Z (r * 1000)).
  { rewrite inject_Z_mult, R1. reflexivity. }
  assert (N : 0 <= Double.round (inject_Z r) * 1000) by lra.
  rewrite (DoubleFacts.round_eq _ _ N E).
  rewrite DoubleFacts.round_Z by lia. rewrite inject_Z_mult. reflexivity.
Qed.

(** C6, amended.  With the delay settings at their defaults and a jitter
    sample that is a double in [0, 1), the delay computed before attempt
    k, for k at least 2, is at least min(2^(k-2) * 1000, 10000) and at
    most 1.1 times that; it is the delay slept when the error carries no
    retry-after header, and when the header parses to r seconds, r * 1000
    being an exact double, the delay slept is the larger of r * 1000 and
    the jittered delay. *)
Theorem retry_delay_bounds m rc (k : Z) (u : Q) :
  (2 <= k)%Z -> 0 <= u -> u < 1 -> Double.round u == u ->
  let opts := merge (defaultDelays m rc) in
  let cap := Qmin (2 ^ (k - 2) * 1000) 10000 in
  let total := totalDelay opts (k - 1) u in
  cap <= total
  /\ total <= (11 # 10) * cap
  /\ (forall e,
        retryAfterOf e = None -> finalDelay opts (k - 1) u e = Some total)
  /\ (forall e h r,
        retryAfterOf e = Some h -> parseInt h = Some r ->
        (0 <= r < 2 ^ 43)%Z ->
        exists d, finalDelay opts (k - 1) u e = Some d
                  /\ d == Qmax (inject_Z r * 1000) total).
Proof.
  intros Hk H0 H1 R opts cap total.
  pose proof (double_below_one u H0 H1 R) as B.
  destruct (capped_interval m rc k u belowOne (11 # 10) Hk H0 B largest_jitter)
    as [L U].
  split; [exact L|]. split; [exact U|]. split.
  - intros e Hn. unfold finalDelay. now rewrite Hn.
  - intros e h r Hh Hr Hrange. unfold finalDelay. rewrite Hh, Hr.
    eexists. split; [reflexivity|].
    fold total. now rewrite (retry_after_exact r Hrange).
Qed.

Lemma retry_delay_bounds_witness :
  Qmin (2 ^ (7 - 2) * 1000) 10000
    <= totalDelay DEFAULT_OPTIONS (7 - 1) (1 # 2)
  /\ totalDelay DEFAULT_OPTIONS (7 - 1) (1 # 2)
       <= (11 # 10) * Qmin (2 ^ (7 - 2) * 1000) 10000
  /\ finalDelay DEFAULT_OPTIONS (7 - 1) (1 # 2) connectionReset
     = Some (totalDelay DEFAULT_OPTIONS (7 - 1) (1 # 2))
  /\ exists d,
       finalDelay DEFAULT_OPTIONS (7 - 1) (1 # 2) tooManyRequests = Some d
       /\ d == Qmax (inject_Z 120 * 1000)
                 (totalDelay DEFAULT_OPTIONS (7 - 1) (1 # 2)).
Proof.
  destruct (retry_delay_bounds None None 7 (1 # 2)) as (L & U & N & H).
  - lia.
  - discriminate.
  - reflexivity.
  - reflexivity.
  - split; [exact L|]. split; [exact U|]. split.
    + apply (N connectionReset). reflexivity.
    + apply (H tooManyRequests (js "120") 120%Z); [reflexivity|reflexivity|lia].
Defined.

(** Up to attempt 5 the cap is not reached, and the interval is the one
    the uncapped lower bound gives. *)
Lemma uncapped_lower_bound m rc (k : Z) (u : Q) :
  (2 <= k <= 5)%Z -> 0 <= u -> u <= 1 ->
  2 ^ (k - 2) * 1000 <= totalDelay (merge (defaultDelays m rc)) (k - 1) u.
Proof.
  intros Hk H0 H1.
  assert (Hb : forall d, In d [1000; 2000; 4000; 8000; 10000] ->
                 Double.round (d + Double.round (Double.round (1 * tenth) * d))
                 <= (12 # 10) * d).
  { intros d H. cbn [In] in H.
    destruct H as [<-|[<-|[<-|[<-|[<-|[]]]]]]; vm_compute; discriminate. }
  destruct (capped_interval m rc k u 1 (12 # 10) ltac:(lia) H0 H1 Hb) as (L & _).
  eapply Qle_trans; [|exact L].
  assert (C : k = 2%Z \/ k = 3%Z \/ k = 4%Z \/ k = 5%Z) by lia.
  destruct C as [ -> | [ -> | [ -> | -> ] ] ]; vm_compute; discriminate.
Qed.

(** The header of the 429 scenario: 120 seconds, so 120000 ms are slept
    before the second attempt whatever the jitter below 1. *)
Lemma retry_after_scenario u :
  0 <= u -> u < 1 ->
  exists d, finalDelay DEFAULT_OPTIONS 1 u tooManyRequests = Some d
            /\ d == 120000.
Proof.
  intros H0 H1. eexists. split; [reflexivity|].
  assert (E : Double.round (Double.round (inject_Z 120) * 1000) == 120000)
    by reflexivity.
  assert (Hb : forall d, In d [1000; 2000; 4000; 8000; 10000] ->
                 Double.round (d + Double.round (Double.round (1 * tenth) * d))
                 <= (12 # 10) * d).
  { intros d H. cbn [In] in H.
    destruct H as [<-|[<-|[<-|[<-|[<-|[]]]]]]; vm_compute; discriminate. }
  destruct (capped_interval None None 2 u 1 (12 # 10) ltac:(lia) H0
              ltac:(lra) Hb) as (_ & U).
  change (merge (defaultDelays None None)) with DEFAULT_OPTIONS in U.
  change (2 - 1)%Z with 1%Z in U.
  assert (C : (12 # 10) * Qmin (2 ^ (2 - 2) * 1000) 10000 <= 120000)
    by (vm_compute; discriminate).
  eapply Qeq_trans; [|exact E]. apply Q.max_l. lra.
Qed.

End RetryFacts.

Module GoogleDocsFacts.
Import GoogleDocs Scenarios.

Lemma startsWith_app p s : startsWith (p ++ s) p = true.
Proof.
  induction p as [|a p IH]; simpl; [reflexivity|].
  now rewrite N.eqb_refl, IH.
Qed.

(** Whatever the text, the local normalizer returns something that starts
    with the heading. *)
Lemma normalizeMarkdownContent_heading content title :
  startsWith (normalizeMarkdownContent content title) (heading title) = true.
Proof.
  unfold normalizeMarkdownContent.
  destruct (startsWith (cleanup content) (heading title)) eqn:S; simpl.
  - exact S.
  - apply startsWith_app.
Qed.

(** C2, as stated, fails on both paths.  The remote normalizer adds the
    heading even to a text that starts with it, and a second pass adds it
    once more.  The local normalizer leaves three line feeds in a row in
    its first result, which a second pass collapses. *)
Lemma normalizers_not_idempotent :
  startsWith (cleanup headed) (heading (js "T")) = true
  /\ normalizeContent (js "T") headed = js "# T\n\n# T\n\nbody"
  /\ normalizeContent (js "T") (normalizeContent (js "T") headed)
     <> normalizeContent (js "T") headed
  /\ normalizeMarkdownContent gappy (js "T") = js "# T\n\nx\n\n\ny"
  /\ normalizeMarkdownContent (normalizeMarkdownContent gappy (js "T")) (js "T")
     = js "# T\n\nx\n\ny".
Proof.
  split; [by_evaluation|]. split; [by_evaluation|].
  split; [vm_compute; discriminate|]. by_evaluation.
Qed.

(** C2, amended.  The remote normalizer always puts the heading and a
    blank line before the cleaned-up text.  The local normalizer does so
    exactly when the cleaned-up text does not start with the heading, and
    returns the cleaned-up text as it is otherwise.  Normalizing a result
    of the local normalizer again with the same title returns it unchanged
    provided the clean-up leaves that result unchanged. *)
Theorem normalizer_heading_rule title content :
  normalizeContent title content
  = heading title ++ js "\n\n" ++ cleanup content
  /\ (startsWith (cleanup content) (heading title) = false ->
      normalizeMarkdownContent content title
      = heading title ++ js "\n\n" ++ cleanup content)
  /\ (startsWith (cleanup content) (heading title) = true ->
      normalizeMarkdownContent content title = cleanup content)
  /\ (cleanup (normalizeMarkdownContent content title)
      = normalizeMarkdownContent content title ->
      normalizeMarkdownContent (normalizeMarkdownContent content title) title
      = normalizeMarkdownContent content title).
Proof.
  split; [reflexivity|]. split; [|split].
  - intros S. unfold normalizeMarkdownContent. now rewrite S.
  - intros S. unfold normalizeMarkdownContent. now rewrite S.
  - intros C.
    pose proof (normalizeMarkdownContent_heading content title) as S.
    revert C S. generalize (normalizeMarkdownContent content title).
    intros r C S. unfold normalizeMarkdownContent. rewrite C, S. reflexivity.
Qed.

Lemma normalizer_heading_rule_witness :
  normalizeMarkdownContent (js "body") (js "T") = js "# T\n\nbody"
  /\ normalizeMarkdownContent headed (js "T") = headed
  /\ normalizeMarkdownContent (normalizeMarkdownContent (js "body") (js "T"))
       (js "T")
     = normalizeMarkdownContent (js "body") (js "T").
Proof.
  destruct (normalizer_heading_rule (js "T") (js "body")) as (_ & A & _ & C).
  destruct (normalizer_heading_rule (js "T") headed) as (_ & _ & B & _).
  split; [|split].
  - rewrite A; by_evaluation.
  - rewrite B; by_evaluation.
  - apply C. by_evaluation.
Defined.

(** *** Permission errors *)

Lemma startsWith_spec p : forall s,
  startsWith s p = true <-> exists after, s = p ++ after.
Proof.
  induction p as [|a p IH]; intros s; cbn [startsWith app].
  - split; [intros _; now exists s|reflexivity].
  - destruct s as [|b s]; [split; [discriminate|intros [x H]; discriminate]|].
    rewrite andb_true_iff, N.eqb_eq, IH. split.
    + intros [-> [x ->]]. now exists x.
    + intros [x H]. inversion H; subst. split; [reflexivity|now exists x].
Qed.

(** [includes] finds a phrase exactly when it stands somewhere in the
    text. *)
Lemma includes_contains p : forall s,
  includes s p = true <-> contains s p.
Proof.
  unfold contains. induction s as [|c s IH]; cbn [includes];
    rewrite orb_true_iff, startsWith_spec.
  - split.
    + intros [[x H]|H]; [|discriminate]. exists [], x. exact H.
    + intros (before & after & H). left.
      destruct before; [now exists after|discriminate].
  - rewrite IH. split.
    + intros [[x H]|(before & after & H)].
      * exists [], x. exact H.
      * exists (c :: before), after. cbn [app]. now rewrite H.
    + intros (before & after & H). destruct before as [|b before].
      * left. now exists after.
      * right. cbn [app] in H. inversion H; subst. now exists before, after.
Qed.

Lemma status403_class e :
  status403 e = true <-> exists r, response e = Some r /\ status r = Some 403%Z.
Proof.
  unfold status403. split.
  - destruct (response e) as [r|]; [|discriminate].
    destruct (status r) as [s|] eqn:Hs; [|discriminate].
    intros H. apply Z.eqb_eq in H. subst. eauto.
  - intros (r & Hr & Hs). now rewrite Hr, Hs.
Qed.

Lemma code403_class e : code403 e = true <-> code e = Some (CodeNum 403).
Proof.
  unfold code403. split.
  - destruct (code e) as [[c|n]|]; try discriminate.
    intros H. apply Z.eqb_eq in H. now subst.
  - intros H. now rewrite H.
Qed.

(** The six tests in a row, by the kind of the message. *)
Lemma isPermissionError_cases E e :
  isPermissionError E e
  = if status403 e || code403 e then Checked true
    else match message e with
         | Some (Text m) =>
             Checked (existsb (includes (toLowerCase E m)) permissionPhrases)
         | Some (NonText _ _) => TypeError
         | None => Checked false
         end.
Proof.
  unfold isPermissionError, messageIncludes.
  destruct (status403 e), (code403 e); try reflexivity. cbn [orb].
  destruct (message e) as [[m|t x]|]; try reflexivity.
  cbn [permissionPhrases existsb].
  destruct (includes (toLowerCase E m) (js "permission denied")),
    (includes (toLowerCase E m) (js "access denied")),
    (includes (toLowerCase E m) (js "forbidden")),
    (includes (toLowerCase E m) (js "insufficient permissions")); reflexivity.
Qed.

Lemma phrase_found E m :
  existsb (includes (toLowerCase E m)) permissionPhrases = true
  <-> exists phrase, In phrase permissionPhrases
                     /\ contains (toLowerCase E m) phrase.
Proof.
  rewrite existsb_exists. split; intros (phrase & Hin & H); exists phrase;
    (split; [exact Hin|]); now apply includes_contains.
Qed.

Lemma isPermissionError_class E e :
  isPermissionError E e = Checked true <-> permissionClass E e.
Proof.
  rewrite isPermissionError_cases. unfold permissionClass.
  rewrite <- status403_class, <- code403_class.
  destruct (status403 e); [cbn; intuition|].
  destruct (code403 e); [cbn; intuition|]. cbn [orb].
  destruct (message e) as [[m|t x]|].
  - split.
    + intros H. inversion H as [H']. apply phrase_found in H'.
      destruct H' as (phrase & Hin & Hc). right. right. eauto.
    + intros [H|[H|(m' & phrase & Hm & Hin & Hc)]]; try discriminate.
      inversion Hm; subst m'. f_equal. apply phrase_found. eauto.
  - split; [discriminate|].
    intros [H|[H|(m' & phrase & Hm & _)]]; discriminate.
  - split; [discriminate|].
    intros [H|[H|(m' & phrase & Hm & _)]]; discriminate.
Qed.

(** Outside the class the verdict depends on the kind of the message
    only. *)
Lemma isPermissionError_outside E e :
  ~ permissionClass E e ->
  isPermissionError E e
  = match message e with
    | Some (NonText _ _) => TypeError
    | _ => Checked false
    end.
Proof.
  intros H. rewrite <- isPermissionError_class in H.
  rewrite isPermissionError_cases in *.
  destruct (status403 e || code403 e); [now elim H|].
  destruct (message e) as [[m|t x]|]; try reflexivity.
  destruct (existsb _ _); [now elim H|reflexivity].
Qed.

(** [Logger.logError] writes its lines exactly for the printable
    errors, and throws a [TypeError] for the others. *)
Lemma logError_printable E e : logError E e = None <-> printable e.
Proof.
  unfold logError, printable. destruct (response e) as [r|].
  - destruct (errorMessages r); split; intros H;
      try reflexivity; try discriminate; now elim H.
  - destruct (messageIsTruthy e); [intuition|].
    destruct (serializable e); [intuition|].
    split; [discriminate|]. intros [H|H]; discriminate.
Qed.

Lemma logError_throws E e thrown :
  logError E e = Some thrown -> exists call, thrown = typeError E call.
Proof.
  unfold logError. destruct (response e) as [r|].
  - destruct (errorMessages r); try discriminate.
    intros H. inversion H. now exists "forEach"%string.
  - destruct (messageIsTruthy e); [discriminate|].
    destruct (serializable e); [discriminate|].
    intros H. inversion H. now exists "stringify"%string.
Qed.

(** The [catch] block of [readDocument] outside the permission class. *)
Lemma onError_outside E fallback e :
  ~ permissionClass E e ->
  match message e with
  | Some (NonText _ _) =>
      onError E fallback e = ([], Rejected (typeError E "toLowerCase"))
  | _ =>
      (printable e ->
       onError E fallback e = ([LogError e], Resolved (Failure (errorText e))))
      /\ (~ printable e ->
          exists call,
            onError E fallback e = ([LogError e], Rejected (typeError E call)))
  end.
Proof.
  intros H. unfold onError. rewrite (isPermissionError_outside E e H).
  pose proof (logError_printable E e) as P.
  pose proof (logError_throws E e) as T.
  destruct (message e) as [[m|t x]|]; [|reflexivity|];
    (destruct (logError E e) as [thrown|]; split; intros L;
     [ apply P in L; discriminate
     | destruct (T thrown eq_refl) as [call ->]; now exists call
     | reflexivity
     | elim L; now apply P ]).
Qed.




(** The 403 response and the error whose message says access denied go
    to the fallback; the 404 response comes back as a failure. *)
Lemma permission_scenarios :
  readDocument latin localCopy (inr forbidden)
  = ([LogWarning (js "Permission denied accessing Google Docs. Searching for local markdown file...");
      CallFallback], localCopy)
  /\ snd (readDocument latin localCopy (inr denied)) = localCopy
  /\ readDocument latin localCopy (inr notFound)
     = ([LogError notFound], Resolved (Failure (js "Not Found"))).
Proof. by_evaluation. Qed.

(** *** Tables *)

Lemma processElement_table t :
  processElement (Element None None (Some t) None None) = processTable t.
Proof.
  destruct t as [[rows|]]; [|reflexivity].
  simpl. destruct (mapJoin processRow [] rows); reflexivity.
Qed.

Lemma processRow_pair c1 c2 a b :
  processCell c1 = Ok a -> processCell c2 = Ok b ->
  processRow (TableRow (Some [c1; c2]))
  = Ok (js "| " ++ (a ++ js " | " ++ b) ++ js " |\n").
Proof.
  intros H1 H2.
  change (processRow (TableRow (Some [c1; c2])))
    with (bind (bind (bind (processCell c1)
                        (fun s => bind (bind (processCell c2)
                                          (fun s' => bind (Ok []) (fun r => Ok (s' :: r))))
                                    (fun r => Ok (s :: r))))
                  (fun l => Ok (join (js " | ") l)))
            (fun rowText => Ok (js "| " ++ rowText ++ js " |\n"))).
  rewrite H1, H2. reflexivity.
Qed.

(** C8. A table of two rows and two columns whose cells flatten, after
    trimming, to [cellA] and [cellB] comes out as two lines, each a
    vertical bar and a space, [cellA], the separator of space, bar, space,
    [cellB], a space and a bar, and after them one empty line. *)
Theorem table_two_by_two (c11 c12 c21 c22 : tableCell) (cellA cellB : jsstring) :
  processCell c11 = Ok cellA -> processCell c12 = Ok cellB ->
  processCell c21 = Ok cellA -> processCell c22 = Ok cellB ->
  processElement (tableOf [[c11; c12]; [c21; c22]])
  = Ok ((js "| " ++ cellA ++ js " | " ++ cellB ++ js " |\n")
        ++ (js "| " ++ cellA ++ js " | " ++ cellB ++ js " |\n")
        ++ js "\n").
Proof.
  intros H11 H12 H21 H22. unfold tableOf. rewrite processElement_table.
  cbn [map].
  change (processTable _)
    with (bind (bind (bind (processRow (TableRow (Some [c11; c12])))
                        (fun s => bind (bind (processRow (TableRow (Some [c21; c22])))
                                          (fun s' => bind (Ok []) (fun r => Ok (s' :: r))))
                                    (fun r => Ok (s :: r))))
                  (fun l => Ok (join [] l)))
            (fun r => Ok (r ++ js "\n"))).
  rewrite (processRow_pair c11 c12 cellA cellB H11 H12).
  rewrite (processRow_pair c21 c22 cellA cellB H21 H22).
  cbn [bind join]. rewrite !app_nil_l, <- !app_assoc. reflexivity.
Qed.

Lemma table_two_by_two_witness :
  processElement
    (tableOf [[textCell "cellA"; textCell "cellB"];
              [textCell "cellA"; textCell "cellB"]])
  = Ok (js "| cellA | cellB |\n| cellA | cellB |\n\n").
Proof.
  apply (table_two_by_two (textCell "cellA") (textCell "cellB")
           (textCell "cellA") (textCell "cellB") (js "cellA") (js "cellB"));
    reflexivity.
Defined.

(** *** Local fallback locator *)

Section ScanFacts.
Variable E : engine.

Lemma scan_cons dirPath item n rest :
  scan E dirPath (Dir ((item, n) :: rest))
  = match n with
    | Dir _ =>
        if startsWith item dot || Js.eqb item (js "node_modules")
        then scan E dirPath (Dir rest)
        else scan E (pathJoin dirPath item) n ++ scan E dirPath (Dir rest)
    | File _ =>
        if Js.eqb (toLowerCase E (extname item)) (js ".md")
        then pathJoin dirPath item :: scan E dirPath (Dir rest)
        else scan E dirPath (Dir rest)
    end.
Proof. destruct n; reflexivity. Qed.

(** A markdown file of a scanned directory is collected under its joined
    path. *)
Lemma scan_file dirPath items item mtime :
  In (item, File mtime) items ->
  Js.eqb (toLowerCase E (extname item)) (js ".md") = true ->
  In (pathJoin dirPath item) (scan E dirPath (Dir items)).
Proof.
  intros Hin X. induction items as [|[item' n] rest IH]; [destruct Hin|].
  rewrite scan_cons. destruct Hin as [Hin|Hin].
  - inversion Hin; subst. rewrite X. now left.
  - specialize (IH Hin). destruct n.
    + destruct (Js.eqb (toLowerCase E (extname item')) _); [right|]; exact IH.
    + destruct (startsWith item' dot || _); [|apply in_or_app; right]; exact IH.
Qed.

(** What a visible subdirectory yields is part of what its parent
    yields. *)
Lemma scan_subdirectory dirPath items item sub p :
  In (item, Dir sub) items ->
  startsWith item dot || Js.eqb item (js "node_modules") = false ->
  In p (scan E (pathJoin dirPath item) (Dir sub)) ->
  In p (scan E dirPath (Dir items)).
Proof.
  intros Hin V P. induction items as [|[item' n] rest IH]; [destruct Hin|].
  rewrite scan_cons. destruct Hin as [Hin|Hin].
  - inversion Hin; subst. rewrite V. apply in_or_app. now left.
  - specialize (IH Hin). destruct n.
    + destruct (Js.eqb (toLowerCase E (extname item')) _); [right|]; exact IH.
    + destruct (startsWith item' dot || _); [|apply in_or_app; right]; exact IH.
Qed.

Lemma eqb_true a b : Js.eqb a b = true -> a = b.
Proof. unfold Js.eqb. now destruct (list_eq_dec N.eq_dec a b). Qed.

Lemma lookupEntry_In name entries n :
  lookupEntry name entries = Some n -> In (name, n) entries.
Proof.
  induction entries as [|[k x] rest IH]; simpl; [discriminate|].
  destruct (Js.eqb k name) eqn:K.
  - intros H. inversion H; subst. apply eqb_true in K. subst. now left.
  - intros H. right. auto.
Qed.

Lemma insert_permutation cwd a l : Permutation (insert cwd a l) (a :: l).
Proof.
  induction l as [|b l IH]; simpl; [reflexivity|].
  destruct (_ <=? _)%Z; [reflexivity|].
  rewrite IH. apply perm_swap.
Qed.

Lemma sort_permutation cwd l : Permutation (sort cwd l) l.
Proof.
  induction l as [|a l IH]; simpl; [reflexivity|].
  rewrite insert_permutation. now constructor.
Qed.

(** Joining under docs gives the same path whether docs was reached from
    the current directory or named as a search root. *)
Lemma join_docs name :
  pathJoin (js "./docs") name = pathJoin (js "docs") name.
Proof.
  destruct name as [|c name]; [reflexivity|].
  unfold pathJoin. cbn [js app]. unfold normalize.
  vm_compute. reflexivity.
Qed.

Lemma collect_root cwd path items rest :
  resolve cwd path = Some (Dir items) ->
  collect E cwd (path :: rest) = scan E path (Dir items) ++ collect E cwd rest.
Proof.
  intros R. cbn [collect]. unfold existsSync, scanDirectoryForMarkdown.
  rewrite R. reflexivity.
Qed.

(** C10. Whenever the current directory has a subdirectory docs that
    holds a file with the markdown extension, the list returned for the
    search roots of the fallback contains the path of that file at least
    twice: once from the recursive scan of the current directory and once
    from the scan of the root docs. *)
Theorem docs_file_found_twice entries sub name mtime :
  lookupEntry (js "docs") entries = Some (Dir sub) ->
  In (name, File mtime) sub ->
  Js.eqb (toLowerCase E (extname name)) (js ".md") = true ->
  2 <= count_occ (list_eq_dec N.eq_dec)
         (findMarkdownFiles E (Dir entries) searchPaths)
         (pathJoin (js "docs") name)
  /\ ~ NoDup (findMarkdownFiles E (Dir entries) searchPaths).
Proof.
  intros L Hin X.
  set (p := pathJoin (js "docs") name).
  assert (C : 2 <= count_occ (list_eq_dec N.eq_dec)
                     (findMarkdownFiles E (Dir entries) searchPaths) p).
  { unfold findMarkdownFiles.
    rewrite (proj1 (Permutation_count_occ (list_eq_dec N.eq_dec) _ _)
               (sort_permutation (Dir entries) _)).
    assert (R0 : resolve (Dir entries) (js ".") = Some (Dir entries))
      by reflexivity.
    assert (R1 : resolve (Dir entries) (js "./docs") = Some (Dir sub)).
    { unfold resolve. change (segments false (js "./docs") [] [])
        with [js "docs"]. cbn [walk]. now rewrite L. }
    assert (A : In p (scan E (js ".") (Dir entries))).
    { apply scan_subdirectory with (item := js "docs") (sub := sub).
      - now apply lookupEntry_In.
      - reflexivity.
      - change (pathJoin (js ".") (js "docs")) with (js "docs").
        now apply scan_file with (mtime := mtime). }
    assert (B : In p (scan E (js "./docs") (Dir sub))).
    { unfold p. rewrite <- join_docs.
      now apply scan_file with (mtime := mtime). }
    apply (count_occ_In (list_eq_dec N.eq_dec)) in A, B.
    unfold searchPaths.
    rewrite (collect_root (Dir entries) (js ".") entries _ R0).
    rewrite (collect_root (Dir entries) (js "./docs") sub _ R1).
    rewrite !count_occ_app.
    match goal with
    | |- 2 <= ?a + (?b + _) =>
        assert (A' : a > 0) by exact A; assert (B' : b > 0) by exact B
    end.
    lia. }
  split; [exact C|].
  intros Hnd.
  pose proof (proj1 (NoDup_count_occ (list_eq_dec N.eq_dec) _) Hnd p) as U.
  lia.
Qed.

End ScanFacts.

Lemma docs_file_found_twice_witness :
  2 <= count_occ (list_eq_dec N.eq_dec)
         (findMarkdownFiles latin project searchPaths) (js "docs/spec.md")
  /\ ~ NoDup (findMarkdownFiles latin project searchPaths).
Proof.
  apply (docs_file_found_twice latin
           [ (js "README.txt", File 3);
             (js "docs", Dir [ (js "spec.md", File 5) ]) ]
           [ (js "spec.md", File 5) ] (js "spec.md") 5%Z).
  - reflexivity.
  - left. reflexivity.
  - reflexivity.
Defined.

(** The list returned for the project of the scenario. *)
Lemma project_files :
  findMarkdownFiles latin project searchPaths
  = [js "docs/spec.md"; js "docs/spec.md"].
Proof. by_evaluation. Qed.

End GoogleDocsFacts.

(* ================================================================== *)
(** * Further properties *)
(* ================================================================== *)

Module RetryMore.
Import RetryManager Scenarios.
Local Open Scope Q_scope.

Lemma worldAfter_end R W (operation : W -> R * W) w i :
  worldAfter operation w (S i) = snd (operation (worldAfter operation w i)).
Proof.
  revert w. induction i as [|i IH]; intros w; [reflexivity|].
  change (worldAfter operation w (S (S i)))
    with (worldAfter operation (snd (operation w)) (S i)).
  rewrite IH. reflexivity.
Qed.

Section FirstSuccess.
Variables T W : Type.
Variable operation : W -> (T + error) * W.
Variable random : Z -> Q.
Variable opts : Options.
Variable w0 : W.
Variable j : nat.
Variable v : T.
Hypothesis within : inject_Z (Z.of_nat j) <= optMaxAttempts opts.
Hypothesis failures : forall i, (i < j - 1)%nat ->
  exists e, fst (operation (worldAfter operation w0 i)) = inr e
            /\ optRetryCondition opts e = true.
Hypothesis success : fst (operation (worldAfter operation w0 (j - 1))) = inl v.

Lemma loop_first_success d : forall n lastError slept fuel,
  (n + d + 1 = j)%nat -> (d < fuel)%nat ->
  exists r,
    loop operation random opts fuel (Z.of_nat n + 1) lastError
      (worldAfter operation w0 n) n slept = Some r
    /\ outcome r = Returned v /\ calls r = j
    /\ length (sleeps r) = (length slept + d)%nat
    /\ world r = worldAfter operation w0 j.
Proof.
  induction d as [|d IH]; intros n lastError slept fuel Hj Hf;
    (destruct fuel as [|fuel]; [lia|]); cbn [loop].
  - assert (L : Qle_bool (inject_Z (Z.of_nat n + 1)) (optMaxAttempts opts)
                = true).
    { apply Qle_bool_iff. eapply Qle_trans; [|exact within].
      rewrite <- Zle_Qle. lia. }
    rewrite L. assert (E : n = (j - 1)%nat) by lia. subst n.
    destruct (operation (worldAfter operation w0 (j - 1))) as [r1 w'] eqn:O.
    simpl in success. subst r1.
    eexists. split; [reflexivity|]. cbn [outcome calls sleeps world].
    split; [reflexivity|]. split; [lia|]. split; [lia|].
    replace (worldAfter operation w0 j)
      with (worldAfter operation w0 (S (j - 1))) by (f_equal; lia).
    rewrite worldAfter_end, O. reflexivity.
  - assert (L : Qle_bool (inject_Z (Z.of_nat n + 1)) (optMaxAttempts opts)
                = true).
    { apply Qle_bool_iff. eapply Qle_trans; [|exact within].
      rewrite <- Zle_Qle. lia. }
    rewrite L.
    destruct (failures n) as (e & He & Ha); [lia|].
    destruct (operation (worldAfter operation w0 n)) as [r1 w'] eqn:O.
    simpl in He. subst r1.
    assert (Q : Qeq_bool (inject_Z (Z.of_nat n + 1)) (optMaxAttempts opts)
                = false).
    { destruct (Qeq_bool _ _) eqn:B; [|reflexivity].
      apply Qeq_bool_iff in B. rewrite <- B in within.
      rewrite <- Zle_Qle in within. lia. }
    rewrite Q, Ha. cbn [negb orb].
    replace w' with (worldAfter operation w0 (S n))
      by (rewrite worldAfter_end, O; reflexivity).
    replace (Z.of_nat n + 1 + 1)%Z with (Z.of_nat (S n) + 1)%Z by lia.
    destruct (IH (S n) (Some e)
                (slept ++ [finalDelay opts (Z.of_nat n + 1)
                             (random (Z.of_nat n + 1)) e]) fuel)
      as (r & Hr & Ho & Hc & Hs & Hw); [lia|lia|].
    exists r. split; [exact Hr|]. split; [exact Ho|]. split; [exact Hc|].
    split; [|exact Hw]. rewrite Hs, length_app. simpl. lia.
Qed.

End FirstSuccess.

(** X3. If the first j - 1 invocations throw errors the retry condition
    accepts, the j-th returns a value, and j does not exceed
    [maxAttempts], then [execute] returns that value after exactly j
    invocations and j - 1 sleeps. *)
Theorem first_success_is_returned
    T W (operation : W -> (T + error) * W) random options w (j : nat) (v : T) :
  (1 <= j)%nat ->
  inject_Z (Z.of_nat j) <= optMaxAttempts (merge options) ->
  (forall i, (i < j - 1)%nat ->
     exists e, fst (operation (worldAfter operation w i)) = inr e
               /\ optRetryCondition (merge options) e = true) ->
  fst (operation (worldAfter operation w (j - 1))) = inl v ->
  exists r,
    execute operation random options w = Some r
    /\ outcome r = Returned v /\ calls r = j
    /\ length (sleeps r) = (j - 1)%nat
    /\ world r = worldAfter operation w j.
Proof.
  intros H1 Hj Hf Hs.
  destruct (loop_first_success T W operation random (merge options) w j v
              Hj Hf Hs (j - 1) 0%nat None []
              (iterations (merge options)))
    as (r & Hr & R); [lia| |].
  - unfold iterations.
    apply Qfloor_resp_le in Hj. rewrite Qfloor_Z in Hj. lia.
  - exists r. split; [exact Hr|]. exact R.
Qed.

Lemma first_success_is_returned_witness :
  exists r,
    execute (failsThenReturns 1) halfJitter noOptions 0%nat = Some r
    /\ outcome r = Returned 1%nat /\ calls r = 2%nat
    /\ length (sleeps r) = (2 - 1)%nat
    /\ world r = worldAfter (failsThenReturns 1) 0%nat 2.
Proof.
  apply (first_success_is_returned nat nat (failsThenReturns 1) halfJitter
           noOptions 0%nat 2 1%nat).
  - lia.
  - discriminate.
  - intros i Hi. assert (i = 0%nat) by lia. subst i.
    exists connectionReset. split; reflexivity.
  - reflexivity.
Defined.

End RetryMore.

Module UnrestrictedFacts.
Import RetryManager Unrestricted Scenarios.
Local Open Scope Q_scope.

Section Loop.
Variables T W : Type.
Variable operation : W -> attempted T * W.
Variable random : Z -> Q.
Variable lim : limit.
Variable cond : condition.
Variable opts : Options.
Variable cannotRead : string -> error.





(** What the loop hands on: with [n] invocations made, [lastError] is
    what the last of them threw. *)
Lemma loop_exit w0 fuel : forall attempt lastError n slept r,
  match lastError with
  | None => n = 0%nat
  | Some x =>
      (1 <= n)%nat
      /\ fst (operation (worldAfter operation w0 (n - 1))) = Throws x
  end ->
  Unrestricted.loop operation random lim cond opts cannotRead
    fuel attempt lastError (worldAfter operation w0 n) n slept = Some r ->
  world r = worldAfter operation w0 (calls r)
  /\ match outcome r with
     | Returned v =>
         (1 <= calls r)%nat
         /\ fst (operation (worldAfter operation w0 (calls r - 1))) = Returns v
     | Rethrown x =>
         (1 <= calls r)%nat
         /\ fst (operation (worldAfter operation w0 (calls r - 1))) = Throws x
     | Raised y =>
         (1 <= calls r)%nat
         /\ exists x,
              fst (operation (worldAfter operation w0 (calls r - 1))) = Throws x
              /\ (cond x = inr y
                  \/ (cond x = inl true /\ x = Nullish
                      /\ y = Object (cannotRead "response"%string)))
     | AfterLoop None => calls r = 0%nat
     | AfterLoop (Some x) =>
         (1 <= calls r)%nat
         /\ fst (operation (worldAfter operation w0 (calls r - 1))) = Throws x
     | Hangs =>
         (1 <= calls r)%nat
         /\ fst (operation (worldAfter operation w0 (calls r - 1)))
            = NeverSettles
     end.
Proof.
  induction fuel as [|fuel IH]; intros attempt lastError n slept r S0;
    cbn [Unrestricted.loop].
  - destruct (within _ _); [discriminate|].
    intros H; inversion H; subst; cbn [world calls outcome].
    split; [reflexivity|]. destruct lastError; exact S0.
  - destruct (within _ _).
    2:{ intros H; inversion H; subst; cbn [world calls outcome].
        split; [reflexivity|]. destruct lastError; exact S0. }
    destruct (operation (worldAfter operation w0 n)) as [o w'] eqn:O.
    assert (Wn : w' = worldAfter operation w0 (S n))
      by (rewrite RetryMore.worldAfter_end, O; reflexivity).
    assert (Last : forall m, m = S n ->
              fst (operation (worldAfter operation w0 (m - 1))) = o).
    { intros m ->. replace (S n - 1)%nat with n by lia. now rewrite O. }
    destruct o as [v|x|].
    + intros H; inversion H; subst r; cbn [world calls outcome].
      split; [exact Wn|]. split; [lia|]. now apply Last.
    + destruct (isLast _ _).
      { intros H; inversion H; subst r; cbn [world calls outcome].
        split; [exact Wn|]. split; [lia|]. now apply Last. }
      destruct (cond x) as [[|]|y] eqn:C.
      * destruct x as [|e].
        -- intros H; inversion H; subst r; cbn [world calls outcome].
           split; [exact Wn|]. split; [lia|]. exists Nullish.
           split; [now apply Last|]. right. auto.
        -- intros H. rewrite Wn in H. apply IH in H; [exact H|].
           split; [lia|]. now apply Last.
      * intros H; inversion H; subst r; cbn [world calls outcome].
        split; [exact Wn|]. split; [lia|]. now apply Last.
      * intros H; inversion H; subst r; cbn [world calls outcome].
        split; [exact Wn|]. split; [lia|]. exists x.
        split; [now apply Last|]. now left.
    + intros H; inversion H; subst r; cbn [world calls outcome].
      split; [exact Wn|]. split; [lia|]. now apply Last.
Qed.

End Loop.

Section Limits.
Variables T W : Type.
Variable operation : W -> attempted T * W.
Variable random : Z -> Q.
Variable cond : condition.
Variable opts : Options.
Variable cannotRead : string -> error.



End Limits.

(** The loop for a finite limit, settled invocations and thrown objects
    is this loop on the same operation lifted. *)
Lemma agrees T W (operation : W -> (T + error) * W) random opts cond
    cannotRead fuel :
  agreesWith (optRetryCondition opts) cond ->
  forall attempt lastError w n slept r,
    RetryManager.loop operation random opts fuel attempt lastError w n slept
    = Some r ->
    Unrestricted.loop (lift operation) random (Finite (optMaxAttempts opts))
      cond opts cannotRead fuel attempt (option_map Object lastError) w n
      slept
    = Some (embed r).
Proof.
  intros A. induction fuel as [|fuel IH];
    intros attempt lastError w n slept r;
    cbn [RetryManager.loop Unrestricted.loop within isLast].
  - destruct (Qle_bool _ _); [discriminate|].
    intros H; inversion H; subst. reflexivity.
  - destruct (Qle_bool _ _); [|intros H; inversion H; subst; reflexivity].
    unfold lift. destruct (operation w) as [[v|e] w'].
    + intros H; inversion H; subst. reflexivity.
    + destruct (Qeq_bool _ _); cbn [orb].
      * intros H; inversion H; subst. reflexivity.
      * rewrite (A e). destruct (optRetryCondition opts e); cbn [negb].
        -- intros H. apply IH in H. exact H.
        -- intros H; inversion H; subst. reflexivity.
Qed.



(** X2. When [execute] ends, the world is as the last invocation left it,
    and what it returns, or throws again, is what that invocation returned
    or threw.  It throws a value the operation did not throw only in two
    ways: the retry condition threw it (as the default condition does,
    reading the code of [undefined]), or the condition accepted
    [undefined] or [null] and reading its response threw.  [lastError]
    is thrown after the loop as the last invocation threw it, and is still
    unset only when the operation was never invoked.  And it hangs only
    when the last invocation never settles. *)
Theorem exit_is_last_invocation
    T W (operation : W -> attempted T * W) random lim cond opts cannotRead
    fuel w r :
  Unrestricted.execute operation random lim cond opts cannotRead fuel w
  = Some r ->
  world r = worldAfter operation w (calls r)
  /\ match outcome r with
     | Returned v =>
         (1 <= calls r)%nat
         /\ fst (operation (worldAfter operation w (calls r - 1))) = Returns v
     | Rethrown x =>
         (1 <= calls r)%nat
         /\ fst (operation (worldAfter operation w (calls r - 1))) = Throws x
     | Raised y =>
         (1 <= calls r)%nat
         /\ exists x,
              fst (operation (worldAfter operation w (calls r - 1))) = Throws x
              /\ (cond x = inr y
                  \/ (cond x = inl true /\ x = Nullish
                      /\ y = Object (cannotRead "response"%string)))
     | AfterLoop None => calls r = 0%nat
     | AfterLoop (Some x) =>
         (1 <= calls r)%nat
         /\ fst (operation (worldAfter operation w (calls r - 1))) = Throws x
     | Hangs =>
         (1 <= calls r)%nat
         /\ fst (operation (worldAfter operation w (calls r - 1)))
            = NeverSettles
     end.
Proof.
  unfold Unrestricted.execute. intros H.
  change w with (worldAfter operation w 0) in H at 1.
  apply (loop_exit T W operation random lim cond opts cannotRead w) in H;
    [exact H|reflexivity].
Qed.

Lemma exit_is_last_invocation_witness :
  let r := {| outcome := Raised (Object (cannotReadOf "code"));
              calls := 1; sleeps := []; world := 1%nat |} in
  Unrestricted.execute (rejects Nullish) noJitter (Finite 3)
    (defaultCondition cannotReadOf) DEFAULT_OPTIONS cannotReadOf 3 0%nat
  = Some r
  /\ world r = worldAfter (rejects Nullish) 0%nat (calls r)
  /\ (1 <= calls r)%nat
  /\ exists x,
       fst (rejects Nullish (worldAfter (rejects Nullish) 0%nat (calls r - 1)))
       = Throws x
       /\ (defaultCondition cannotReadOf x
           = inr (Object (cannotReadOf "code"))
           \/ (defaultCondition cannotReadOf x = inl true /\ x = Nullish
               /\ Object (cannotReadOf "code")
                  = Object (cannotReadOf "response"))).
Proof.
  intros r. split; [reflexivity|].
  apply (exit_is_last_invocation unit nat (rejects Nullish) noJitter
           (Finite 3) (defaultCondition cannotReadOf) DEFAULT_OPTIONS
           cannotReadOf 3 0%nat r).
  reflexivity.
Defined.

(** With one attempt allowed, an operation that rejects with [undefined]
    has [undefined] thrown again after its single invocation. *)
Lemma undefined_is_rethrown :
  Unrestricted.execute (rejects Nullish) noJitter (Finite 1)
    (defaultCondition cannotReadOf) DEFAULT_OPTIONS cannotReadOf 1 0%nat
  = Some {| outcome := Rethrown Nullish; calls := 1; sleeps := [];
            world := 1%nat |}.
Proof. reflexivity. Qed.

End UnrestrictedFacts.

Module RegexFacts.

Lemma run_Star A g r1 s caps (k : jsstring -> captures -> option A) :
  run (Star g r1) s caps k = starLoop r1 g k (S (length s)) s caps.
Proof. reflexivity. Qed.

Lemma run_Cat A r1 r2 s caps (k : jsstring -> captures -> option A) :
  run (Cat r1 r2) s caps k = run r1 s caps (fun s1 c1 => run r2 s1 c1 k).
Proof. reflexivity. Qed.

Lemma run_Group A n r1 s caps (k : jsstring -> captures -> option A) :
  run (Group n r1) s caps k
  = run r1 s caps
      (fun s' c' => k s' ((n, firstn (length s - length s') s) :: c')).
Proof. reflexivity. Qed.

Lemma run_Class A p s caps (k : jsstring -> captures -> option A) :
  run (Class p) s caps k
  = match s with
    | c :: s' => if p c then k s' caps else None
    | [] => None
    end.
Proof. reflexivity. Qed.

Lemma run_Lit A p : forall s caps (k : jsstring -> captures -> option A),
  run (Lit p) s caps k
  = if startsWith s p then k (skipn (length p) s) caps else None.
Proof.
  induction p as [|c p IH]; intros s caps k; [reflexivity|].
  cbn [Lit run]. destruct s as [|x s]; [reflexivity|].
  cbn [startsWith length skipn]. destruct (c =? x)%N; [apply IH|reflexivity].
Qed.

Lemma startsWith_prefix p s : startsWith (p ++ s) p = true.
Proof.
  induction p as [|a p IH]; [reflexivity|].
  cbn [app startsWith]. now rewrite N.eqb_refl, IH.
Qed.

Lemma skipn_prefix (p s : jsstring) : skipn (length p) (p ++ s) = s.
Proof. induction p; [reflexivity|assumption]. Qed.

Lemma firstn_prefix (p s : jsstring) :
  firstn (length (p ++ s) - length s) (p ++ s) = p.
Proof.
  rewrite length_app. replace (length p + length s - length s) with (length p)
    by lia.
  induction p as [|a p IH]; [reflexivity|]. simpl. now rewrite IH.
Qed.

(** A lazy star over any character stops at the first place where what
    follows it matches. *)
Lemma starLoop_lazy_any A (k : jsstring -> captures -> option A) rest caps x :
  k rest caps = Some x ->
  forall body fuel,
    length (body ++ rest) < fuel ->
    (forall b1 b2, body = b1 ++ b2 -> b2 <> [] -> k (b2 ++ rest) caps = None) ->
    starLoop any false k fuel (body ++ rest) caps = Some x.
Proof.
  intros Hk. induction body as [|c body IH]; intros fuel Hf Hn;
    (destruct fuel as [|fuel]; [simpl in Hf; lia|]); cbn [starLoop app].
  - simpl. now rewrite Hk.
  - assert (E : k (c :: body ++ rest) caps = None)
      by (apply (Hn [] (c :: body) eq_refl); discriminate).
    cbv zeta. rewrite E. unfold any. cbn [run]. replace (length (body ++ rest) <? length (c :: body ++ rest))
      with true by (symmetry; apply Nat.ltb_lt; simpl; lia).
    apply IH.
    + simpl in Hf. lia.
    + intros b1 b2 E2. apply (Hn (c :: b1) b2). now rewrite E2.
Qed.

(** A greedy star over a class takes the whole run of its characters when
    what follows the run matches. *)
Lemma starLoop_greedy_class A p (k : jsstring -> captures -> option A)
    caps x :
  forall s fuel,
    length s < fuel ->
    k (dropClass p s) caps = Some x ->
    starLoop (Class p) true k fuel s caps = Some x.
Proof.
  induction s as [|c s IH]; intros fuel Hf Hk;
    (destruct fuel as [|fuel]; [simpl in Hf; lia|]); cbn [starLoop run].
  - exact Hk.
  - cbn [dropClass] in Hk. destruct (p c).
    + replace (length s <? length (c :: s)) with true
        by (symmetry; apply Nat.ltb_lt; simpl; lia).
      rewrite IH; [reflexivity| |exact Hk]. simpl in Hf. lia.
    + exact Hk.
Qed.

End RegexFacts.

Module GepetoMore.
Import Gepeto Scenarios RegexFacts.

Lemma no_fence_here (fence : jsstring) rest s :
  match s with [] => True | c :: _ => c <> backquote end ->
  matchHere (Cat (Lit (backquote :: fence)) rest) s = None.
Proof.
  intros H. unfold matchHere. cbn [run]. rewrite run_Lit.
  destruct s as [|c s]; [reflexivity|]. cbn [startsWith].
  destruct (backquote =? c)%N eqn:B; [|reflexivity].
  apply N.eqb_eq in B. congruence.
Qed.

Lemma search_no_backquote fence rest s :
  Forall (fun c => c <> backquote) s ->
  search (Cat (Lit (backquote :: fence)) rest) s = None.
Proof.
  induction 1 as [|c s Hc Hs IH]; cbn [search].
  - now rewrite no_fence_here.
  - now rewrite no_fence_here.
Qed.

Lemma search_skips_prose fence rest s prose :
  Forall (fun c => c <> backquote) prose ->
  search (Cat (Lit (backquote :: fence)) rest) (prose ++ s)
  = search (Cat (Lit (backquote :: fence)) rest) s.
Proof.
  induction 1 as [|c p Hc Hp IH]; [reflexivity|].
  cbn [app search]. now rewrite no_fence_here.
Qed.

Lemma search_here r s c rest :
  matchHere r s = Some (c, rest) -> search r s = Some c.
Proof. intros H. destruct s; cbn [search]; now rewrite H. Qed.

Lemma body_is_not_closing b2 tail :
  Forall (fun c => c <> backquote) b2 -> b2 <> [] ->
  startsWith (b2 ++ js "\n```" ++ tail) (js "\n```") = false.
Proof.
  intros Hb Hn. destruct b2 as [|x b2]; [congruence|].
  change (js "\n```") with [10%N; backquote; backquote; backquote].
  cbn [app startsWith]. destruct (10 =? x)%N; [|reflexivity].
  inversion Hb as [|? ? _ Hb']; subst. destruct b2 as [|y b2].
  - reflexivity.
  - inversion Hb' as [|? ? Hy _]; subst. cbn [app startsWith].
    destruct (backquote =? y)%N eqn:B; [|reflexivity].
    apply N.eqb_eq in B. congruence.
Qed.

Lemma Forall_suffix (P : char -> Prop) b1 b2 :
  Forall P (b1 ++ b2) -> Forall P b2.
Proof. intros H. apply Forall_app in H. tauto. Qed.

Lemma jsonFence_here body tail :
  Forall (fun c => c <> backquote) body ->
  matchHere jsonFence (js "```json\n" ++ body ++ js "\n```" ++ tail)
  = Some ([(1, body)], tail).
Proof.
  intros Hb. unfold matchHere.
  change jsonFence with
    (Cat (Lit (js "```json\n"))
       (Cat (Group 1 (Star false any)) (Lit (js "\n```")))).
  rewrite run_Cat, run_Lit, startsWith_prefix, skipn_prefix.
  rewrite run_Cat, run_Group, run_Star.
  apply starLoop_lazy_any.
  - rewrite run_Lit, startsWith_prefix, skipn_prefix, firstn_prefix.
    reflexivity.
  - lia.
  - intros b1 b2 E Hn. rewrite run_Lit, body_is_not_closing; trivial.
    rewrite E in Hb. now apply Forall_suffix in Hb.
Qed.

(** X4. A reply without any backquote is its own candidate text: neither
    fence pattern can match, so [jsonString] falls back to the content. *)
Theorem unfenced_reply_is_candidate content :
  Forall (fun c => c <> backquote) content ->
  jsonString content = content.
Proof.
  intros H. unfold jsonString.
  change jsonFence with
    (Cat (Lit (backquote :: js "``json\n"))
       (Cat (Group 1 (Star false any)) (Lit (js "\n```")))).
  change plainFence with
    (Cat (Lit (backquote :: js "``\n"))
       (Cat (Group 1 (Star false any)) (Lit (js "\n```")))).
  now rewrite !search_no_backquote.
Qed.

Lemma unfenced_reply_is_candidate_witness :
  jsonString bare = bare.
Proof.
  apply (unfenced_reply_is_candidate bare).
  vm_compute. repeat constructor; discriminate.
Defined.

(** X5. For a reply made of prose, a json fence and anything after it,
    where neither the prose nor the fenced body holds a backquote, the
    candidate text is exactly the body, and the call goes on as on the
    body alone: prose and tail have no influence on the result. *)
Theorem fenced_body_is_candidate M prose body tail :
  Forall (fun c => c <> backquote) prose ->
  Forall (fun c => c <> backquote) body ->
  let content := prose ++ js "```json\n" ++ body ++ js "\n```" ++ tail in
  jsonString content = body
  /\ generateBDDCards M content = recover M body.
Proof.
  intros Hp Hb content.
  assert (J : jsonString content = body).
  { pose proof (search_here _ _ _ _ (jsonFence_here body tail Hb)) as S.
    unfold jsonString, content.
    change jsonFence with
      (Cat (Lit (backquote :: js "``json\n"))
         (Cat (Group 1 (Star false any)) (Lit (js "\n```")))) in S |- *.
    rewrite search_skips_prose by assumption.
    rewrite S. reflexivity. }
  split; [exact J|].
  unfold generateBDDCards. rewrite J.
  destruct content eqn:C; [|reflexivity].
  unfold content in C. apply app_eq_nil in C. destruct C as [_ C].
  discriminate.
Qed.

Lemma fenced_body_is_candidate_witness :
  jsonString reply = candidate
  /\ generateBDDCards plainMessages reply = recover plainMessages candidate.
Proof.
  apply (fenced_body_is_candidate plainMessages (js "Here you go:\n")
           candidate []);
    vm_compute; repeat constructor; discriminate.
Defined.

End GepetoMore.

Module SchemaFacts.
Import Gepeto Scenarios Cards.

Lemma eqb_false a b : a <> b -> Js.eqb a b = false.
Proof. unfold Js.eqb. destruct (list_eq_dec N.eq_dec a b); congruence. Qed.

Lemma get_other k' k v ms2 : forall ms1,
  k' <> k -> get k' (ms1 ++ (k, v) :: ms2) = get k' (ms1 ++ ms2).
Proof.
  intros ms1 Hk. induction ms1 as [|[k0 v0] ms1 IH]; cbn [app get].
  - destruct (get k' ms2); [reflexivity|]. now rewrite eqb_false.
  - now rewrite IH.
Qed.

(** X6. A member whose key the schema does not declare is stripped: the
    object with it and the object without it give the same card, or the
    same issues. *)
Theorem unknown_key_is_stripped i ms1 k v ms2 :
  ~ In k schemaKeys ->
  parseCard i (JObj (ms1 ++ (k, v) :: ms2)) = parseCard i (JObj (ms1 ++ ms2)).
Proof.
  intros Hk. unfold parseCard, field.
  rewrite !(get_other _ k v ms2 ms1); [reflexivity| | | | | | | | |];
    intros E; apply Hk; rewrite <- E; cbn [schemaKeys In]; tauto.
Qed.

Lemma unknown_key_is_stripped_witness :
  parseCard 0 annotatedJson = parseCard 0 firstJson.
Proof.
  apply (unknown_key_is_stripped 0 [(js "summary", JStr (js "First"))]
           (js "note") (JNum (js "1"))
           [(js "description", JStr (js "d1"));
            (js "acceptanceCriteria", JArr [JStr (js "a")])]).
  vm_compute. intuition discriminate.
Defined.

(** X7. The array schema is all or nothing: when one element, wherever it
    stands, fails the card schema, the array yields no card at all, the
    candidate text is rejected with a [ZodError], and the issues of that
    element are among those reported. *)
Theorem one_bad_element_rejects_array s l1 v l2 es :
  parse s = Some (JArr (l1 ++ v :: l2)) ->
  parseCard (length l1) v = inr es ->
  exists issues,
    BDDCardsArraySchema (JArr (l1 ++ v :: l2)) = inr issues
    /\ incl es issues
    /\ parseAndValidate s = inr (ZodError (JArr (l1 ++ v :: l2)) issues).
Proof.
  intros Hp Hv.
  destruct (GepetoFacts.parseCards_bad_element v es l2 l1 0 Hv)
    as (issues & E & Hin).
  exists issues. unfold parseAndValidate. rewrite Hp. cbn [BDDCardsArraySchema].
  rewrite E. auto.
Qed.

Lemma one_bad_element_rejects_array_witness :
  exists issues,
    BDDCardsArraySchema (JArr ([firstJson] ++ longJson :: [thirdJson]))
    = inr issues
    /\ incl [BadField 1 (js "summary")] issues
    /\ parseAndValidate batch
       = inr (ZodError (JArr ([firstJson] ++ longJson :: [thirdJson])) issues).
Proof.
  apply (one_bad_element_rejects_array batch [firstJson] longJson [thirdJson]
           [BadField 1 (js "summary")]); vm_compute; reflexivity.
Defined.

Lemma cardErrors_complete c :
  length (summary c) <= 80 ->
  (complete c = true /\ cardErrors c = [])
  \/ (complete c = false /\ cardErrors c <> []
      /\ ~ In tooLong (cardErrors c)).
Proof.
  intros L. unfold complete, cardErrors.
  replace (80 <? length (summary c)) with false
    by (symmetry; apply Nat.ltb_ge; exact L).
  rewrite andb_false_r.
  destruct (isEmpty (summary c)), (isEmpty (description c)),
    (isEmpty (acceptanceCriteria c)); cbn [negb andb app];
    [right|right|right|right|right|right|right|left];
    try (split; reflexivity);
    (split; [reflexivity|split; [discriminate|]]);
    cbn [In]; intros H; repeat destruct H as [H|H];
      try (vm_compute in H; discriminate); exact H.
Qed.

Lemma validateBDDCards_bounded cards :
  Forall (fun c => length (summary c) <= 80) cards ->
  fst (validateBDDCards cards) = length (filter complete cards)
  /\ fst (validateBDDCards cards) + length (snd (validateBDDCards cards))
     = length cards
  /\ Forall (fun f => errors f <> [] /\ ~ In tooLong (errors f))
       (snd (validateBDDCards cards)).
Proof.
  induction 1 as [|c cards L _ IH]; [repeat split; constructor|].
  cbn [validateBDDCards filter]. destruct (validateBDDCards cards) as [valid invalid].
  cbn [fst snd] in IH. destruct IH as (I1 & I2 & I3).
  destruct (cardErrors_complete c L) as [(C & E)|(C & E & T)]; rewrite C.
  - rewrite E. cbn [fst snd length]. repeat split; [lia|lia|exact I3].
  - destruct (cardErrors c) as [|e errs] eqn:Ec; [congruence|].
    cbn [fst snd length]. repeat split; [exact I1|lia|].
    constructor; [|exact I3]. cbn [errors]. split; [discriminate|exact T].
Qed.

Lemma Forall2_summaries arr cards :
  Forall2 (fun v c => exists j, parseCard j v = inl c) arr cards ->
  Forall (fun c => length (summary c) <= 80) cards.
Proof.
  induction 1 as [|v c arr cards [j Hj] _ IH]; constructor; [|exact IH].
  exact (GepetoFacts.parseCard_summary j v c Hj).
Qed.

(** X8. What the test runners' [validateBDDCards] finds on the cards of a
    successful [generateBDDCards]: the cards counted valid are exactly
    those with a summary, a description and at least one criterion; valid
    and flagged cards add up to all cards; every flagged card carries an
    error; and the length check never fires, the schema having bounded
    every summary already. *)
Theorem validation_of_generated_cards M content cards :
  generateBDDCards M content = Success cards ->
  fst (validateBDDCards cards) = length (filter complete cards)
  /\ fst (validateBDDCards cards) + length (snd (validateBDDCards cards))
     = length cards
  /\ Forall (fun f => errors f <> [] /\ ~ In tooLong (errors f))
       (snd (validateBDDCards cards)).
Proof.
  intros H. apply validateBDDCards_bounded.
  destruct content as [|c content]; [discriminate|].
  cbn [generateBDDCards] in H.
  destruct (GepetoFacts.recover_success _ _ _ H) as (arr & _ & F).
  exact (Forall2_summaries arr cards F).
Qed.

Lemma validation_of_generated_cards_witness :
  fst (validateBDDCards [card "Only" "d" []])
  = length (filter complete [card "Only" "d" []])
  /\ fst (validateBDDCards [card "Only" "d" []])
     + length (snd (validateBDDCards [card "Only" "d" []]))
     = length [card "Only" "d" []]
  /\ Forall (fun f => errors f <> [] /\ ~ In tooLong (errors f))
       (snd (validateBDDCards [card "Only" "d" []])).
Proof.
  apply (validation_of_generated_cards plainMessages bare
           [card "Only" "d" []]).
  vm_compute. reflexivity.
Defined.

End SchemaFacts.

Module ReaderFacts.
Import GoogleDocs RetryManager Reader Scenarios RegexFacts.

(** X9. When every request for the document throws the same error object
    [e], [readDocument] makes three requests if the default retry
    condition accepts [e] and one if it does not, and then ends as its
    [catch] block makes it: as the local fallback ends when [e] is in the
    permission class; outside the class, when the message of [e] is a
    string or absent, with a failure that carries the text of [e] if the
    logger can print [e] and with a rejected promise, the [TypeError] of
    the logger, if it cannot; and when the message is a value of another
    kind, with a rejected promise, the [TypeError] of
    [isPermissionError]. *)
Theorem failing_fetch_requests_and_result (W : Type) E fallback
    (get : W -> (document + error) * W) random w e :
  (forall w', fst (get w') = inr e) ->
  exists result,
    readDocumentThrough E fallback get random w
    = Some (if defaultRetryCondition e then 3 else 1, result)
    /\ (permissionClass E e ->
        result
        = ([LogWarning (js "Permission denied accessing Google Docs. Searching for local markdown file...");
            CallFallback], fallback))
    /\ (~ permissionClass E e ->
        match message e with
        | Some (NonText _ _) =>
            result = ([], Rejected (typeError E "toLowerCase"))
        | _ =>
            (printable e ->
             result = ([LogError e], Resolved (Failure (errorText e))))
            /\ (~ printable e ->
                exists call,
                  result = ([LogError e], Rejected (typeError E call)))
        end).
Proof.
  intros H. exists (onError E fallback e). split; [|split].
  - unfold readDocumentThrough, execute, run, iterations.
    change (Z.to_nat (Qfloor (optMaxAttempts (merge noOptions)))) with 3.
    cbn [loop]. change (optMaxAttempts (merge noOptions)) with 3%Q.
    change (optRetryCondition (merge noOptions)) with defaultRetryCondition.
    change (Qle_bool (inject_Z 1) 3) with true.
    change (Qeq_bool (inject_Z 1) 3) with false.
    change (Qle_bool (inject_Z (1 + 1)) 3) with true.
    change (Qeq_bool (inject_Z (1 + 1)) 3) with false.
    change (Qle_bool (inject_Z (1 + 1 + 1)) 3) with true.
    change (Qeq_bool (inject_Z (1 + 1 + 1)) 3) with true.
    cbn [orb negb].
    pose proof (H w) as H1. destruct (get w) as [r1 w1]. cbn [fst] in H1.
    subst r1. destruct (defaultRetryCondition e) eqn:D; cbn [negb];
      [|reflexivity].
    pose proof (H w1) as H2. destruct (get w1) as [r2 w2]. cbn [fst] in H2.
    subst r2. rewrite D. cbn [negb].
    pose proof (H w2) as H3. destruct (get w2) as [r3 w3]. cbn [fst] in H3.
    subst r3. reflexivity.
  - intros C. apply GoogleDocsFacts.isPermissionError_class in C.
    unfold onError. now rewrite C.
  - apply GoogleDocsFacts.onError_outside.
Qed.

Lemma failing_fetch_requests_and_result_witness :
  (exists result,
     readDocumentThrough latin localCopy (fetchThrows forbidden) noJitter tt
     = Some (if defaultRetryCondition forbidden then 3 else 1, result)
     /\ (permissionClass latin forbidden ->
         result
         = ([LogWarning (js "Permission denied accessing Google Docs. Searching for local markdown file...");
             CallFallback], localCopy))
     /\ (~ permissionClass latin forbidden ->
         match message forbidden with
         | Some (NonText _ _) =>
             result = ([], Rejected (typeError latin "toLowerCase"))
         | _ =>
             (printable forbidden ->
              result = ([LogError forbidden],
                        Resolved (Failure (errorText forbidden))))
             /\ (~ printable forbidden ->
                 exists call,
                   result = ([LogError forbidden],
                             Rejected (typeError latin call)))
         end))
  /\ permissionClass latin forbidden.
Proof.
  split.
  - apply (failing_fetch_requests_and_result unit latin localCopy
             (fetchThrows forbidden) noJitter tt forbidden).
    intros w'. reflexivity.
  - left. eexists. split; reflexivity.
Defined.

Lemma fallback_headed E F cwd path c :
  fallbackToLocalMarkdown E F cwd path = Resolved (Success c) ->
  startsWith (normalizedText c) (heading (title c)) = true.
Proof.
  unfold fallbackToLocalMarkdown.
  destruct (selectFile E cwd path) as [f|]; [|discriminate].
  destruct (readFileSync F f) as [content|e];
    [|destruct (logError E e); discriminate].
  intros H. inversion H; subst. cbn [normalizedText title].
  apply GoogleDocsFacts.normalizeMarkdownContent_heading.
Qed.

Lemma onError_headed E F cwd path e ev c :
  onError E (fallbackToLocalMarkdown E F cwd path) e
  = (ev, Resolved (Success c)) ->
  startsWith (normalizedText c) (heading (title c)) = true.
Proof.
  unfold onError. destruct (isPermissionError E e) as [[|]|];
    try discriminate; [|destruct (logError E e); discriminate].
  intros H. inversion H as [[H1 H2]]. now apply fallback_headed in H2.
Qed.

(** X10. Whatever way [readDocument] comes to a document, from the remote
    service or from the local fallback after a permission error, the
    normalized text it returns starts with the heading line of the title
    it returns. *)
Theorem returned_text_is_headed E F cwd path fetched ev c :
  readDocument E (fallbackToLocalMarkdown E F cwd path) fetched
  = (ev, Resolved (Success c)) ->
  startsWith (normalizedText c) (heading (title c)) = true.
Proof.
  unfold readDocument. destruct fetched as [d|e].
  - destruct (extractContent d) as [[t x]|n].
    + intros H. inversion H; subst. cbn [normalizedText title].
      unfold normalizeContent. apply GoogleDocsFacts.startsWith_app.
    + apply onError_headed.
  - apply onError_headed.
Qed.

Lemma returned_text_is_headed_witness :
  exists ev c,
    readDocument latin (fallbackToLocalMarkdown latin onDisk project None)
      (inr forbidden) = (ev, Resolved (Success c))
    /\ startsWith (normalizedText c) (heading (title c)) = true.
Proof.
  eexists. eexists. split.
  - vm_compute. reflexivity.
  - apply (returned_text_is_headed latin onDisk project None (inr forbidden)
             [LogWarning (js "Permission denied accessing Google Docs. Searching for local markdown file...");
              CallFallback]).
    vm_compute. reflexivity.
Defined.

End ReaderFacts.

Module TitleFacts.
Import GoogleDocs Reader Scenarios RegexFacts.

Lemma dropClass_run p a b :
  Forall (fun c => p c = true) a -> stops p b -> dropClass p (a ++ b) = b.
Proof.
  intros Ha Hb. induction Ha as [|c a Hc _ IH]; cbn [app dropClass].
  - destruct b as [|c b]; [reflexivity|]. cbn [dropClass]. cbn [stops] in Hb.
    now rewrite Hb.
  - now rewrite Hc.
Qed.

Lemma plus_class A p (k : jsstring -> captures -> option A) caps x c a b :
  p c = true -> Forall (fun c => p c = true) a -> stops p b ->
  k b caps = Some x ->
  run (Plus (Class p)) (c :: a ++ b) caps k = Some x.
Proof.
  intros Hc Ha Hb Hk. unfold Plus. rewrite run_Cat, run_Class, Hc, run_Star.
  apply starLoop_greedy_class; [lia|]. now rewrite dropClass_run.
Qed.

Lemma matchHeadingAt_line w ws c t rest :
  isWhiteSpace w = true ->
  Forall (fun x => isWhiteSpace x = true) ws ->
  isWhiteSpace c = false ->
  Forall (fun x => isLineTerminator x = false) (c :: t) ->
  atLineEnd rest = true ->
  matchHeadingAt (js "#" ++ (w :: ws) ++ (c :: t) ++ rest)
  = Some [(1, c :: t)].
Proof.
  intros Hw Hws Hc Ht Hr. unfold matchHeadingAt.
  change headingLine with
    (Cat (Class (N.eqb 35))
       (Cat (Plus (Class isWhiteSpace))
            (Group 1 (Plus (Class (fun c => negb (isLineTerminator c))))))).
  change (js "#") with [35%N]. cbn [app].
  rewrite run_Cat, run_Class. cbn [N.eqb Pos.eqb]. rewrite run_Cat.
  apply plus_class; trivial. rewrite run_Group. cbn [app].
  inversion Ht as [|? ? Hc' Ht']; subst.
  apply plus_class.
  - now rewrite Hc'.
  - eapply Forall_impl; [|exact Ht']. intros a Ha. cbn beta. now rewrite Ha.
  - unfold stops. destruct rest as [|r rest]; [exact I|].
    cbn [atLineEnd] in Hr. now rewrite Hr.
  - rewrite Hr. do 3 f_equal.
    change (c :: t ++ rest) with ((c :: t) ++ rest).
    apply firstn_prefix.
Qed.

(** X11. A text that opens with a heading line (a sharp sign, white
    space, then a title that starts with a visible character and holds no
    line terminator, up to the end of the line) has that title, trimmed, as
    its extracted title. *)
Theorem heading_line_gives_title w ws c t rest :
  isWhiteSpace w = true ->
  Forall (fun x => isWhiteSpace x = true) ws ->
  isWhiteSpace c = false ->
  Forall (fun x => isLineTerminator x = false) (c :: t) ->
  atLineEnd rest = true ->
  extractTitleFromMarkdown (js "#" ++ (w :: ws) ++ (c :: t) ++ rest)
  = Some (trim (c :: t)).
Proof.
  intros Hw Hws Hc Ht Hr. unfold extractTitleFromMarkdown.
  pose proof (matchHeadingAt_line w ws c t rest Hw Hws Hc Ht Hr) as M.
  change (js "#" ++ (w :: ws) ++ (c :: t) ++ rest)
    with (35%N :: (w :: ws) ++ (c :: t) ++ rest) in M |- *.
  cbn [searchLines]. rewrite M. reflexivity.
Qed.

Lemma heading_line_gives_title_witness :
  extractTitleFromMarkdown
    (js "#" ++ (32%N :: []) ++ (ch "S" :: js "pec ") ++ js "\n\ntext")
  = Some (trim (ch "S" :: js "pec ")).
Proof.
  apply (heading_line_gives_title 32%N [] (ch "S") (js "pec ") (js "\n\ntext"));
    vm_compute; repeat constructor.
Defined.

End TitleFacts.

Module LocatorFacts.
Import GoogleDocs Reader Scenarios.

Section Locator.
Variable E : engine.
Variable cwd : node.

Lemma insert_In a l x : In x (insert cwd a l) -> x = a \/ In x l.
Proof.
  intros H. apply (Permutation_in _ (GoogleDocsFacts.insert_permutation cwd a l))
    in H. destruct H; auto.
Qed.

Lemma insert_sorted a l :
  StronglySorted (newerFirst cwd) l -> StronglySorted (newerFirst cwd) (insert cwd a l).
Proof.
  induction 1 as [|b l Hs IH Hb]; cbn [insert].
  - constructor; constructor.
  - destruct (mtimeOf cwd b - mtimeOf cwd a <=? 0)%Z eqn:C.
    + apply Z.leb_le in C. constructor; [constructor; assumption|].
      constructor; [unfold newerFirst; lia|].
      rewrite Forall_forall in Hb |- *. intros x Hx. specialize (Hb x Hx).
      unfold newerFirst in *. lia.
    + apply Z.leb_gt in C. constructor; [exact IH|].
      rewrite Forall_forall in Hb |- *. intros x Hx.
      destruct (insert_In _ _ _ Hx) as [->|Hx'];
        [unfold newerFirst; lia|auto].
Qed.

Lemma sort_sorted l : StronglySorted (newerFirst cwd) (sort cwd l).
Proof.
  induction l as [|a l IH]; cbn [sort]; [constructor|now apply insert_sorted].
Qed.

End Locator.

(** X12. [findMarkdownFiles] returns what the scans of its search paths
    collected, every path as often as it was collected, ordered from the
    most recently modified file to the least. *)
Theorem found_files_newest_first E cwd searchPaths :
  Permutation (findMarkdownFiles E cwd searchPaths) (collect E cwd searchPaths)
  /\ StronglySorted (newerFirst cwd) (findMarkdownFiles E cwd searchPaths).
Proof.
  split; [apply GoogleDocsFacts.sort_permutation|apply sort_sorted].
Qed.



(** X14. What the scan of a directory yields, exactly: the joined path of
    every entry that is a file with the markdown extension, whatever the
    case of its letters, and what the scan of every subdirectory yields
    whose name neither starts with a dot nor is node_modules.  Hidden
    directories and node_modules contribute nothing. *)
Theorem scan_finds_exactly E dirPath items p :
  In p (scan E dirPath (Dir items))
  <-> (exists item m,
         In (item, File m) items
         /\ Js.eqb (toLowerCase E (extname item)) (js ".md") = true
         /\ p = pathJoin dirPath item)
      \/ (exists item sub,
            In (item, Dir sub) items
            /\ startsWith item dot || Js.eqb item (js "node_modules") = false
            /\ In p (scan E (pathJoin dirPath item) (Dir sub))).
Proof.
  split.
  - induction items as [|[item n] rest IH]; [intros []|].
    rewrite GoogleDocsFacts.scan_cons.
    assert (K : In p (scan E dirPath (Dir rest)) ->
                (exists item0 m,
                   In (item0, File m) ((item, n) :: rest)
                   /\ Js.eqb (toLowerCase E (extname item0)) (js ".md") = true
                   /\ p = pathJoin dirPath item0)
                \/ (exists item0 sub,
                      In (item0, Dir sub) ((item, n) :: rest)
                      /\ startsWith item0 dot
                         || Js.eqb item0 (js "node_modules") = false
                      /\ In p (scan E (pathJoin dirPath item0) (Dir sub)))).
    { intros H. destruct (IH H) as [(i & m & A & B & C)|(i & sub & A & B & C)].
      - left. exists i, m. repeat split; trivial. now right.
      - right. exists i, sub. repeat split; trivial. now right. }
    destruct n as [m|sub].
    + destruct (Js.eqb (toLowerCase E (extname item)) (js ".md")) eqn:X;
        [|exact K].
      intros [H|H]; [|exact (K H)].
      left. exists item, m. repeat split; auto. now left.
    + destruct (startsWith item dot || Js.eqb item (js "node_modules")) eqn:V;
        [exact K|].
      intros H. apply in_app_or in H. destruct H as [H|H]; [|exact (K H)].
      right. exists item, sub. repeat split; auto. now left.
  - intros [(item & m & A & B & C)|(item & sub & A & B & C)].
    + subst p. exact (GoogleDocsFacts.scan_file E dirPath items item m A B).
    + exact (GoogleDocsFacts.scan_subdirectory E dirPath items item sub p A B C).
Qed.

End LocatorFacts.

Module JiraFacts.
Import Jira Scenarios.

Section BatchFacts.
Variables Payload Card Issue W : Type.
Variable createIssue : W -> Payload -> (response Issue + error) * W.
Variable logCreated : Issue -> Card -> option error.

Lemma batchLoop_accounting total : forall issues i w results errors pauses,
  total = i + length issues ->
  exists r e w',
    batchLoop createIssue logCreated total i issues w results errors pauses
    = (r, e, pauses ++ List.repeat 500%Z (length issues - 1), w')
    /\ length results + length errors + length issues
       <= length r + length e
    /\ length r + length e + length results
       <= length results + length errors + length issues + length r
    /\ length results <= length r <= length results + length issues
    /\ ((forall payload card issue,
           In (payload, card) issues -> logCreated issue card = None) ->
        length r + length e
        = length results + length errors + length issues)
    /\ w' = fold_left (fun w entry => snd (createIssue w (fst entry))) issues w.
Proof.
  induction issues as [|[payload card] rest IH];
    intros i w results errors pauses T.
  - exists results, errors, w.
    cbn [batchLoop length List.repeat Nat.sub fold_left].
    rewrite app_nil_r. repeat split; lia.
  - cbn [batchLoop fold_left fst]. destruct (createIssue w payload) as [o w1].
    cbn [snd length] in *.
    assert (P : (if i <? total - 1 then pauses ++ [500%Z] else pauses)
                ++ List.repeat 500%Z (length rest - 1)
                = pauses ++ List.repeat 500%Z (S (length rest) - 1)).
    { destruct rest as [|p2 rest].
      - replace (i <? total - 1) with false
          by (symmetry; apply Nat.ltb_ge; cbn [length] in T; lia).
        reflexivity.
      - replace (i <? total - 1) with true
          by (symmetry; apply Nat.ltb_lt; cbn [length] in T; lia).
        cbn [length Nat.sub]. rewrite Nat.sub_0_r, <- app_assoc. reflexivity. }
    assert (T' : total = S i + length rest) by lia.
    assert (Step : forall r0 e0,
              length results <= length r0 <= length results + 1 ->
              length results + length errors + 1 <= length r0 + length e0 ->
              length r0 + length e0 + length results
              <= length results + length errors + 1 + length r0 ->
              ((forall issue, logCreated issue card = None) ->
               length r0 + length e0 = length results + length errors + 1) ->
              exists r e w',
                batchLoop createIssue logCreated total (S i) rest w1 r0 e0
                  (if i <? total - 1 then pauses ++ [500%Z] else pauses)
                = (r, e, pauses ++ List.repeat 500%Z (S (length rest) - 1), w')
                /\ length results + length errors + S (length rest)
                   <= length r + length e
                /\ length r + length e + length results
                   <= length results + length errors + S (length rest)
                      + length r
                /\ length results <= length r
                   <= length results + S (length rest)
                /\ ((forall payload0 card0 issue,
                       In (payload0, card0) ((payload, card) :: rest) ->
                       logCreated issue card0 = None) ->
                    length r + length e
                    = length results + length errors + S (length rest))
                /\ w' = fold_left
                          (fun w entry => snd (createIssue w (fst entry)))
                          rest w1).
    { intros r0 e0 B1 B2 B3 B4.
      destruct (IH (S i) w1 r0 e0
                  (if i <? total - 1 then pauses ++ [500%Z] else pauses) T')
        as (r' & e' & w' & B & L1 & L2 & L3 & L4 & F).
      exists r', e', w'. rewrite B, P. repeat split; trivial; try lia.
      intros Hall.
      assert (H4 : length r0 + length e0 = length results + length errors + 1).
      { apply B4. intros issue. apply (Hall payload card issue). now left. }
      rewrite L4; [lia|].
      intros p c issue Hin. apply (Hall p c issue). now right. }
    destruct o as [result|e].
    + destruct (success result), (data result) as [issue|];
        try (apply Step; rewrite ?length_app; cbn [length]; intros; lia).
      destruct (logCreated issue card) as [e|] eqn:Lc.
      * apply Step; rewrite ?length_app; cbn [length]; try lia.
        intros Hall. rewrite Hall in Lc. discriminate.
      * apply Step; rewrite ?length_app; cbn [length]; intros; lia.
    + apply Step; rewrite ?length_app; cbn [length]; intros; lia.
Qed.

End BatchFacts.

(** X15. [createBatchIssues] submits every payload once, in order, also
    after failures, and pauses 500 ms between two submissions and not
    after the last; it reports success when at least one issue was
    created, and carries an error message exactly when a failure was
    recorded.  There are at most as many created issues as entries, and
    every entry leaves a created issue or a recorded failure; it leaves
    both when the issue is created and writing its log line throws, as for
    a card that is null, so created issues and failures together number
    between the entries and the entries plus the created issues.  When
    the log line can be written for every card, they number exactly the
    entries, and the error message is absent exactly when every entry
    produced an issue. *)
Theorem batch_accounting (Payload Card Issue W : Type)
    (createIssue : W -> Payload -> (response Issue + error) * W)
    (logCreated : Issue -> Card -> option error)
    (issues : list (Payload * Card)) (w : W) :
  let b := createBatchIssues createIssue logCreated issues w in
  exists results,
    data (answer b) = Some results
    /\ pauses b = List.repeat 500%Z (length issues - 1)
    /\ after b
       = fold_left (fun w entry => snd (createIssue w (fst entry))) issues w
    /\ success (answer b) = (0 <? length results)
    /\ (failure (answer b) = None <-> failures b = [])
    /\ length results <= length issues
    /\ length issues <= length results + length (failures b)
       <= length issues + length results
    /\ ((forall payload card issue,
           In (payload, card) issues -> logCreated issue card = None) ->
        length results + length (failures b) = length issues
        /\ (failure (answer b) = None <-> length results = length issues)).
Proof.
  intros b. unfold b, createBatchIssues.
  destruct (batchLoop_accounting Payload Card Issue W createIssue logCreated
              (length issues) issues 0 w [] [] [] eq_refl)
    as (r & e & w' & B & L1 & L2 & L3 & L4 & F).
  rewrite B. cbn [answer failures pauses after data success failure app].
  exists r. cbn [length] in *.
  assert (N : (if 0 <? length e
               then Some (decimal (length e) ++ js " issues failed")
               else None) = None <-> e = []).
  { destruct e; cbn [length Nat.ltb Nat.leb]; split; congruence. }
  repeat split; trivial; try lia; try apply N.
  - apply (L4 H).
  - intros X. apply N in X. subst e. specialize (L4 H). cbn [length] in L4. lia.
  - intros X. apply N. specialize (L4 H).
    destruct e; [reflexivity|cbn [length] in L4; lia].
Qed.

Lemma batch_accounting_witness :
  let b := createBatchIssues mockCreate logsUnlessNull
             [(true, Some (js "a")); (false, Some (js "b"));
              (true, Some (js "c"))] 0%nat in
  exists results,
    data (answer b) = Some results
    /\ length results + length (failures b) = 3
    /\ (failure (answer b) = None <-> length results = 3).
Proof.
  intros b.
  destruct (batch_accounting bool (option jsstring) nat nat mockCreate
              logsUnlessNull
              [(true, Some (js "a")); (false, Some (js "b"));
               (true, Some (js "c"))] 0%nat)
    as (results & D & _ & _ & _ & _ & _ & _ & X).
  exists results. split; [exact D|].
  apply X. intros payload card issue Hin. cbn [In] in Hin.
  destruct Hin as [H|[H|[H|[]]]]; inversion H; reflexivity.
Defined.

(** With a card that is null the issue is created and a failure is
    recorded for the same entry. *)
Lemma null_card_counts_twice :
  let b := createBatchIssues mockCreate logsUnlessNull [(true, None)] 0%nat in
  data (answer b) = Some [0%nat]
  /\ length (failures b) = 1
  /\ success (answer b) = true
  /\ failure (answer b) = Some (js "1 issues failed").
Proof. intros b. by_evaluation. Qed.

(** X16. [findUser] on a search result that is not empty always selects
    one of the users found; and when some of them has exactly the address
    asked for, the selected one has it, wherever it stands and whatever
    display names the others have. *)
Theorem findUser_selection E emailOrName users :
  users <> [] ->
  exists user,
    findUser E emailOrName users = Success user
    /\ In user users
    /\ ((exists other, In other users
                       /\ emailAddress other = Some emailOrName)
        -> emailAddress user = Some emailOrName).
Proof.
  intros Hn. destruct users as [|first rest]; [congruence|].
  unfold findUser.
  destruct (find (hasEmail emailOrName) (first :: rest)) as [u|] eqn:F1.
  - apply find_some in F1. destruct F1 as [Hin Hu]. exists u.
    repeat split; trivial. intros _. unfold hasEmail in Hu.
    destruct (emailAddress u) as [m|]; [|discriminate].
    now apply GoogleDocsFacts.eqb_true in Hu; subst.
  - assert (N1 : (exists other, In other (first :: rest)
                                /\ emailAddress other = Some emailOrName)
                 -> False).
    { intros (o & Ho & Eo). pose proof (find_none _ _ F1 o Ho) as X.
      unfold hasEmail in X. rewrite Eo in X. unfold Js.eqb in X.
      destruct (list_eq_dec N.eq_dec emailOrName emailOrName); congruence. }
    destruct (find (nameIncludes E emailOrName) (first :: rest)) as [u|] eqn:F2.
    + apply find_some in F2. destruct F2 as [Hin _]. exists u.
      repeat split; trivial. intros X. destruct (N1 X).
    + exists first. repeat split; [now left|]. intros X. destruct (N1 X).
Qed.

Lemma findUser_selection_witness :
  exists user,
    findUser latin (js "ana@example.org") [ana; bia] = Success user
    /\ In user [ana; bia]
    /\ ((exists other, In other [ana; bia]
                       /\ emailAddress other = Some (js "ana@example.org"))
        -> emailAddress user = Some (js "ana@example.org")).
Proof.
  apply (findUser_selection latin (js "ana@example.org") [ana; bia]).
  discriminate.
Defined.

End JiraFacts.

Module CleanupFacts.
Import GoogleDocs RegexFacts.

Lemma dropClass_stops p s : stops p (dropClass p s).
Proof.
  induction s as [|c s IH]; cbn [dropClass]; [exact I|].
  destruct (p c) eqn:P; [exact IH|exact P].
Qed.

Lemma dropClass_suffix p s : exists a, s = a ++ dropClass p s.
Proof.
  induction s as [|c s [a IH]]; cbn [dropClass]; [now exists []|].
  destruct (p c); [|now exists []]. exists (c :: a). cbn [app]. now f_equal.
Qed.

Lemma dropClass_length p s : length (dropClass p s) <= length s.
Proof.
  destruct (dropClass_suffix p s) as [a E]. rewrite E at 2.
  rewrite length_app. lia.
Qed.

Lemma matchHere_plus_class p s :
  matchHere (Plus (Class p)) s
  = match s with
    | c :: s' => if p c then Some ([], dropClass p s') else None
    | [] => None
    end.
Proof.
  unfold matchHere, Plus. rewrite run_Cat, run_Class.
  destruct s as [|c s]; [reflexivity|]. destruct (p c); [|reflexivity].
  rewrite run_Star. apply starLoop_greedy_class; [lia|reflexivity].
Qed.

Lemma matchHere_newlineBlanks s :
  matchHere newlineBlanks s
  = match s with
    | a :: s1 =>
        if (10 =? a)%N then
          match s1 with
          | c :: s2 => if isBlank c then Some ([], dropClass isBlank s2) else None
          | [] => None
          end
        else None
    | [] => None
    end.
Proof.
  change newlineBlanks with (Cat (Class (N.eqb 10)) (Plus (Class isBlank))).
  destruct s as [|a s1]; [reflexivity|].
  unfold matchHere. rewrite run_Cat, run_Class.
  destruct (10 =? a)%N; [|reflexivity]. apply matchHere_plus_class.
Qed.

Lemma pairFree_cons bad x l :
  pairFree bad (x :: l)
  <-> match l with [] => True | y :: _ => bad x y = false end /\ pairFree bad l.
Proof. destruct l; cbn [pairFree]; tauto. Qed.

Lemma pairFree_app bad a b :
  pairFree bad (a ++ b) -> pairFree bad a /\ pairFree bad b.
Proof.
  induction a as [|x a IH]; [cbn [app]; split; [exact I|assumption]|].
  cbn [app]. rewrite !pairFree_cons. intros [H1 H2].
  destruct (IH H2) as [Ha Hb]. repeat split; trivial.
  destruct a; [exact I|exact H1].
Qed.

Lemma isBlank_tab c : isBlank c = false -> c <> 9%N.
Proof. intros H E. subst. discriminate. Qed.

(** The second replacement leaves no tab and no two blanks side by
    side. *)
Lemma squeeze_good : forall fuel s,
  length s < fuel ->
  let out := replaceLoop fuel blanks [Txt (js " ")] s in
  Forall (fun c => c <> 9%N) out /\ pairFree blankPair out
  /\ (stops isBlank s -> stops isBlank out).
Proof.
  change blanks with (Plus (Class isBlank)).
  induction fuel as [|fuel IH]; intros s L; [lia|].
  cbn [replaceLoop]. rewrite matchHere_plus_class.
  destruct s as [|c s]; [repeat split; constructor|].
  cbn [length] in L. destruct (isBlank c) eqn:B.
  - pose proof (dropClass_length isBlank s) as D.
    replace (length (dropClass isBlank s) <? length (c :: s)) with true
      by (symmetry; apply Nat.ltb_lt; cbn [length]; lia).
    destruct (IH (dropClass isBlank s)) as (F & P & S); [lia|].
    specialize (S (dropClass_stops isBlank s)).
    cbn [expand app]. change (js " ") with [32%N]. cbn [app].
    repeat split.
    + constructor; [discriminate|exact F].
    + apply pairFree_cons. split; [|exact P].
      destruct (replaceLoop fuel _ _ _) as [|y out]; [exact I|].
      cbn [stops] in S. unfold blankPair. now rewrite S, andb_false_r.
    + cbn [stops]. congruence.
  - destruct (IH s) as (F & P & S); [lia|].
    repeat split.
    + constructor; [now apply isBlank_tab|exact F].
    + apply pairFree_cons. split; [|exact P].
      destruct (replaceLoop fuel _ _ _) as [|y out]; [exact I|].
      unfold blankPair. now rewrite B.
    + intros _. exact B.
Qed.

(** The third replacement keeps that and leaves no blank right after a
    line feed. *)
Lemma unindent_good : forall fuel s,
  length s < fuel ->
  Forall (fun c => c <> 9%N) s -> pairFree blankPair s ->
  let out := replaceLoop fuel newlineBlanks [Txt (js "\n")] s in
  Forall (fun c => c <> 9%N) out /\ pairFree blankPair out
  /\ pairFree lineStartBlank out /\ headFrom s out.
Proof.
  induction fuel as [|fuel IH]; intros s L F P; [lia|].
  cbn [replaceLoop]. rewrite matchHere_newlineBlanks.
  destruct s as [|a s1]; [repeat split; constructor|].
  cbn [length] in L.
  inversion F as [|? ? Fa F1]; subst.
  apply pairFree_cons in P. destruct P as [Pa P1].
  assert (Keep : (10 =? a)%N = false
                 \/ s1 = []
                 \/ (exists c s2, s1 = c :: s2 /\ isBlank c = false) ->
                 let out := a :: replaceLoop fuel newlineBlanks [Txt (js "\n")] s1 in
                 Forall (fun c => c <> 9%N) out /\ pairFree blankPair out
                 /\ pairFree lineStartBlank out /\ headFrom (a :: s1) out).
  { intros C. destruct (IH s1) as (F' & P' & L' & H'); trivial; [lia|].
    cbv zeta. repeat split.
    - now constructor.
    - apply pairFree_cons. split; [|exact P'].
      destruct (replaceLoop fuel _ _ s1) as [|y out]; [exact I|].
      cbn [headFrom] in H'. destruct H' as [->|H'].
      + unfold blankPair. cbn. apply andb_false_r.
      + destruct s1 as [|x s2]; [destruct H'|]. now subst.
    - apply pairFree_cons. split; [|exact L'].
      destruct (replaceLoop fuel _ _ s1) as [|y out]; [exact I|].
      cbn [headFrom] in H'. unfold lineStartBlank. destruct H' as [->|H'].
      + cbn. apply andb_false_r.
      + destruct s1 as [|x s2]; [destruct H'|]. subst y.
        destruct C as [C|[C|(c & s3 & C & B)]].
        * rewrite N.eqb_sym, C. reflexivity.
        * discriminate.
        * inversion C; subst. rewrite B. apply andb_false_r.
    - cbn [headFrom]. now right. }
  destruct (10 =? a)%N eqn:A; [|apply Keep; now left].
  destruct s1 as [|c s2]; [apply Keep; right; now left|].
  destruct (isBlank c) eqn:B;
    [|apply Keep; right; right; exists c, s2; now split].
  clear Keep.
  pose proof (dropClass_length isBlank s2) as D. unfold char in *.
  assert (Lt : (length (dropClass isBlank s2) <? length (a :: c :: s2)) = true)
    by (apply Nat.ltb_lt; unfold char in *; cbn [length]; lia).
  unfold char in *. rewrite Lt.
  destruct (dropClass_suffix isBlank s2) as [pre E].
  inversion F1 as [|? ? _ F2]; subst.
  apply pairFree_cons in P1. destruct P1 as [_ P2].
  rewrite E in F2, P2. apply Forall_app in F2. apply pairFree_app in P2.
  destruct (IH (dropClass isBlank s2)) as (F' & P' & L' & H');
    [cbn [length] in L; unfold char in *; lia|tauto|tauto|].
  cbn [expand app]. change (js "\n") with [10%N]. cbn [app].
  pose proof (dropClass_stops isBlank s2) as S.
  assert (Hy : match replaceLoop fuel newlineBlanks [Txt [10%N]]
                       (dropClass isBlank s2) with
               | [] => True
               | y :: _ => isBlank y = false
               end).
  { change (js "\n") with [10%N] in H'.
    destruct (replaceLoop fuel _ _ (dropClass isBlank s2)) as [|y out];
      [exact I|].
    cbn [headFrom] in H'. destruct H' as [->|H']; [reflexivity|].
    destruct (dropClass isBlank s2) as [|x s3]; [destruct H'|].
    subst. exact S. }
  change (js "\n") with [10%N] in F', P', L'.
  repeat split.
  - constructor; [discriminate|exact F'].
  - apply pairFree_cons. split; [|exact P'].
    destruct (replaceLoop fuel _ _ (dropClass isBlank s2)) as [|y out]; [exact I|]. reflexivity.
  - apply pairFree_cons. split; [|exact L'].
    destruct (replaceLoop fuel _ _ (dropClass isBlank s2)) as [|y out]; [exact I|].
    unfold lineStartBlank. now rewrite Hy, andb_false_r.
  - cbn [headFrom]. now left.
Qed.

Lemma trimStart_suffix s : exists a, s = a ++ trimStart s.
Proof.
  induction s as [|c s [a IH]]; cbn [trimStart]; [now exists []|].
  destruct (isWhiteSpace c); [|now exists []].
  exists (c :: a). cbn [app]. now f_equal.
Qed.

Lemma trimStart_stops s : stops isWhiteSpace (trimStart s).
Proof.
  induction s as [|c s IH]; cbn [trimStart]; [exact I|].
  destruct (isWhiteSpace c) eqn:W; [exact IH|exact W].
Qed.

Lemma trimEnd_prefix s : exists b, s = trimEnd s ++ b.
Proof.
  unfold trimEnd. destruct (trimStart_suffix (rev s)) as [a E].
  exists (rev a). rewrite <- rev_app_distr, <- E. symmetry. apply rev_involutive.
Qed.

Lemma trim_middle s : exists a b, s = a ++ trim s ++ b.
Proof.
  unfold trim. destruct (trimStart_suffix s) as [a Ea].
  destruct (trimEnd_prefix (trimStart s)) as [b Eb].
  exists a, b. now rewrite <- Eb.
Qed.

Lemma trim_stops s :
  stops isWhiteSpace (trim s) /\ stops isWhiteSpace (rev (trim s)).
Proof.
  split.
  - unfold trim. destruct (trimEnd_prefix (trimStart s)) as [b Eb].
    pose proof (trimStart_stops s) as S. rewrite Eb in S.
    destruct (trimEnd (trimStart s)); [exact I|exact S].
  - unfold trim, trimEnd. rewrite rev_involutive. apply trimStart_stops.
Qed.

(** X17. What the clean-up of both normalizers guarantees for every text:
    the result holds no tab, no two blanks side by side and no blank at
    the start of a line, and it neither starts nor ends with white
    space. *)
Theorem cleanup_invariants text :
  let out := cleanup text in
  Forall (fun c => c <> 9%N) out
  /\ pairFree blankPair out
  /\ pairFree lineStartBlank out
  /\ stops isWhiteSpace out
  /\ stops isWhiteSpace (rev out).
Proof.
  cbv zeta. unfold cleanup.
  set (s1 := replaceAll manyNewlines [Txt (js "\n\n")] text).
  destruct (squeeze_good (S (length s1)) s1) as (F2 & P2 & _);
    [unfold char; lia|].
  fold (replaceAll blanks [Txt (js " ")] s1) in F2, P2.
  set (s2 := replaceAll blanks [Txt (js " ")] s1) in *.
  destruct (unindent_good (S (length s2)) s2) as (F3 & P3 & L3 & _);
    trivial; [unfold char; lia|].
  fold (replaceAll newlineBlanks [Txt (js "\n")] s2) in F3, P3, L3.
  set (s3 := replaceAll newlineBlanks [Txt (js "\n")] s2) in *.
  destruct (trim_middle s3) as (a & b & E).
  rewrite E in F3, P3, L3.
  apply Forall_app in F3. destruct F3 as [_ F3].
  apply Forall_app in F3. destruct F3 as [F3 _].
  apply pairFree_app in P3. destruct P3 as [_ P3].
  apply pairFree_app in P3. destruct P3 as [P3 _].
  apply pairFree_app in L3. destruct L3 as [_ L3].
  apply pairFree_app in L3. destruct L3 as [L3 _].
  destruct (trim_stops s3) as [S1 S2]. auto.
Qed.

End CleanupFacts.

Module WalkerFacts.
Import GoogleDocs Scenarios.

Lemma mapM_Forall2 (A : Type) (f : A -> walked jsstring) items outs :
  Forall2 (fun x y => f x = Ok y) items outs -> mapM f items = Ok outs.
Proof.
  induction 1 as [|x y items outs H _ IH]; [reflexivity|].
  cbn [mapM]. rewrite H. cbn [bind]. rewrite IH. reflexivity.
Qed.

Lemma processRow_cells cells :
  processRow (TableRow (Some cells))
  = bind (mapJoin processCell (js " | ") cells)
      (fun rowText => Ok (js "| " ++ rowText ++ js " |\n")).
Proof. reflexivity. Qed.

Lemma processTable_rows rows :
  processTable (Table (Some rows))
  = bind (mapJoin processRow [] rows) (fun r => Ok (r ++ js "\n")).
Proof. reflexivity. Qed.

Lemma processRow_line cells ts :
  Forall2 (fun c t => processCell c = Ok t) cells ts ->
  processRow (TableRow (Some cells))
  = Ok (js "| " ++ join (js " | ") ts ++ js " |\n").
Proof.
  intros H. rewrite processRow_cells. unfold mapJoin.
  rewrite (mapM_Forall2 _ _ _ _ H). reflexivity.
Qed.

(** X18. A table of any size flattens row by row: when the cells of each
    row flatten, after trimming, to the texts [ts], the row becomes the
    line made of a bar and a space, the texts joined by space, bar, space,
    and a space and a bar; the lines follow one another and one line feed
    ends the table.  A table without rows is a single line feed. *)
Theorem table_flattening rows texts :
  Forall2 (fun cells ts => Forall2 (fun c t => processCell c = Ok t) cells ts)
    rows texts ->
  processElement (tableOf rows)
  = Ok (join [] (map (fun ts => js "| " ++ join (js " | ") ts ++ js " |\n")
                   texts)
        ++ js "\n").
Proof.
  intros H. unfold tableOf. rewrite GoogleDocsFacts.processElement_table.
  rewrite processTable_rows. unfold mapJoin.
  rewrite (mapM_Forall2 _ processRow
             (map (fun cells => TableRow (Some cells)) rows)
             (map (fun ts => js "| " ++ join (js " | ") ts ++ js " |\n") texts)).
  - reflexivity.
  - induction H as [|cells ts rows texts Hc _ IH]; cbn [map]; constructor.
    + now apply processRow_line.
    + exact IH.
Qed.

Lemma table_flattening_witness :
  processElement (tableOf [[textCell "a"; textCell "b"; textCell "c"]; []])
  = Ok (join [] (map (fun ts => js "| " ++ join (js " | ") ts ++ js " |\n")
                   [[js "a"; js "b"; js "c"]; []])
        ++ js "\n").
Proof.
  apply (table_flattening [[textCell "a"; textCell "b"; textCell "c"]; []]
           [[js "a"; js "b"; js "c"]; []]).
  repeat constructor.
Defined.

Lemma processParagraph_elements es style bullet :
  processParagraph (Paragraph (Some es) style bullet)
  = bind (mapJoin processItem [] es)
      (fun paragraphText =>
         bind (headingPrefix style)
           (fun h =>
              Ok ((if bullet then js "- " ++ (h ++ paragraphText)
                   else h ++ paragraphText) ++ js "\n"))).
Proof. reflexivity. Qed.

(** X19. A paragraph whose elements flatten to [txt] becomes one line.
    With one of the six heading styles, HEADING_1 to HEADING_6, the line
    is as many sharp signs as the level, a space and [txt]; with a style
    that does not start with HEADING_ it is [txt] alone; a bullet puts a
    hyphen and a space before either, so before the sharp signs. *)
Theorem paragraph_line es txt bullet :
  mapJoin processItem [] es = Ok txt ->
  (forall k, 1 <= k <= 6 ->
     processParagraph
       (Paragraph (Some es) (Some (js "HEADING_" ++ decimal k)) bullet)
     = Ok ((if bullet then js "- " else [])
           ++ Js.repeat (js "#") k ++ js " " ++ txt ++ js "\n"))
  /\ (forall style,
        startsWith style (js "HEADING_") = false ->
        processParagraph (Paragraph (Some es) (Some style) bullet)
        = Ok ((if bullet then js "- " else []) ++ txt ++ js "\n")).
Proof.
  intros H. split.
  - intros k Hk. rewrite processParagraph_elements, H. cbn [bind].
    assert (K : k = 1 \/ k = 2 \/ k = 3 \/ k = 4 \/ k = 5 \/ k = 6) by lia.
    clear Hk. repeat destruct K as [K|K]; subst k;
      match goal with
      | |- bind (headingPrefix (Some (_ ++ decimal ?n))) _ = _ =>
          change (headingPrefix (Some (js "HEADING_" ++ decimal n)))
            with (Ok (Js.repeat (js "#") n ++ js " "))
      end;
      cbn [bind]; destruct bullet; rewrite <- ?app_assoc; reflexivity.
  - intros style S. rewrite processParagraph_elements, H. cbn [bind].
    unfold headingPrefix. destruct style as [|c style];
      [|rewrite S]; cbn [bind app]; destruct bullet; reflexivity.
Qed.

Lemma paragraph_line_witness :
  (forall k, 1 <= k <= 6 ->
     processParagraph
       (Paragraph (Some [Some (textRunOf "Intro")])
          (Some (js "HEADING_" ++ decimal k)) true)
     = Ok ((if true then js "- " else [])
           ++ Js.repeat (js "#") k ++ js " " ++ js "Intro" ++ js "\n"))
  /\ (forall style,
        startsWith style (js "HEADING_") = false ->
        processParagraph
          (Paragraph (Some [Some (textRunOf "Intro")]) (Some style) true)
        = Ok ((if true then js "- " else []) ++ js "Intro" ++ js "\n")).
Proof.
  apply (paragraph_line [Some (textRunOf "Intro")] (js "Intro") true).
  reflexivity.
Defined.

End WalkerFacts.
